(** * Splatting: the training model of [model.cpp]

    A shallow embedding of [ns::Model] (render pass [forward], training
    schedules, density-control statistics in [afterTrain]) together with
    the properties stated for it.

    Conventions.
    - C++ [int] values are integers of [Z]; an operation whose C++ result
      is undefined (division by zero, a result outside the 32-bit range)
      yields [None].
    - [float] scalars and the entries of float tensors are real numbers;
      arithmetic on them is exact (rounding is not modelled, so a value
      given here as positive may be computed as 0, and one given as
      below 1 as 1).  A quotient stands for the float quotient where
      its divisor is not zero, and the properties that rest on one say
      so; the normalized size of [afterTrain], whose divisor is zero
      after an empty image was rendered, is a [Size]: a real number or
      [+inf].
    - A one-dimensional tensor is a list, a two-dimensional one a list of
      rows.  The parameter tensors of the model and the pose of a camera
      have the shapes their constructors give them (one row per
      primitive, a 4 x 4 pose); the tensors that [afterTrain] sets up
      lazily are checked against the current ones, as torch does, and a
      mismatch raises. *)

From Stdlib Require Import ZArith List Bool Lia Reals Lra.
Import ListNotations.

Local Open Scope Z_scope.

(** ** Error monad for partial C++ operations *)

Definition obind {A B : Type} (c : option A) (k : A -> option B) : option B :=
  match c with
  | Some a => k a
  | None => None
  end.

Notation "x <- c ;; k" := (obind c (fun x => k))
  (at level 61, c at next level, right associativity).

(** ** C++ [int] arithmetic *)

Module Int.

Definition min_int : Z := - 2 ^ 31.
Definition max_int : Z := 2 ^ 31 - 1.

Definition in_range (z : Z) : bool := (min_int <=? z) && (z <=? max_int).

(** A value that must be representable to be defined. *)
Definition checked (z : Z) : option Z :=
  if in_range z then Some z else None.

Definition sub (a b : Z) : option Z := checked (a - b).
Definition add (a b : Z) : option Z := checked (a + b).
Definition mul (a b : Z) : option Z := checked (a * b).

(** [a / b]: truncation toward zero. *)
Definition div (a b : Z) : option Z :=
  if b =? 0 then None else checked (a ÷ b).

(** [a % b]: sign of the dividend; undefined whenever [a / b] is, which
    includes [INT_MIN % -1]. *)
Definition rem (a b : Z) : option Z :=
  match div a b with
  | Some _ => Some (Z.rem a b)
  | None => None
  end.

(** [static_cast<int>] of a [double] holding the integer [z]. *)
Definition of_double (z : Z) : option Z := checked z.

End Int.

(** ** Training configuration

    The data members of [Model] that hold the schedule parameters. *)

Record Config := {
  numDownscales : Z;
  resolutionSchedule : Z;
  shDegree : Z;
  shDegreeInterval : Z;
  refineEvery : Z;
  warmupLength : Z;
  resetAlphaEvery : Z;
  stopSplitAt : Z;
  numCameras : Z
}.

(** [int Model::getDownscaleFactor(int step)]:
    [return std::pow(2, std::max<int>(numDownscales - step / resolutionSchedule, 0));] *)
Definition getDownscaleFactor (c : Config) (step : Z) : option Z :=
  q <- Int.div step (resolutionSchedule c) ;;
  e <- Int.sub (numDownscales c) q ;;
  Int.of_double (2 ^ Z.max e 0).

(** [int degreesToUse = (std::min<int>)(step / shDegreeInterval, shDegree);] *)
Definition degreesToUse (c : Config) (step : Z) : option Z :=
  q <- Int.div step (shDegreeInterval c) ;;
  Some (Z.min q (shDegree c)).

(** ** Tensors *)

Definition matrix := list (list R).

Fixpoint map2 {A B C : Type} (f : A -> B -> C) (a : list A) (b : list B) : list C :=
  match a, b with
  | x :: a', y :: b' => f x y :: map2 f a' b'
  | _, _ => []
  end.

Definition numel {A : Type} (t : list A) : Z := Z.of_nat (length t).

Definition ones_like {A : Type} (t : list A) : list R := map (fun _ => 1%R) t.

(** An entry of [max2DSize]: a real number or, once a radius has been
    divided by the side 0 of an empty image, [+inf]. *)
Inductive Size :=
| Finite (x : R)
| Infinite.

(** [torch::maximum] and the order on such entries. *)
Definition size_max (a b : Size) : Size :=
  match a, b with
  | Finite x, Finite y => Finite (Rmax x y)
  | _, _ => Infinite
  end.

Definition size_le (a b : Size) : Prop :=
  match a, b with
  | Finite x, Finite y => (x <= y)%R
  | _, Infinite => True
  | Infinite, Finite _ => False
  end.

(** [r / static_cast<float>(side)] for a radius [r > 0], as the radii
    under the visibility mask are. *)
Definition normalized (r side : Z) : Size :=
  if side =? 0 then Infinite else Finite (IZR r / IZR side).

Definition zeros_like {A : Type} (t : list A) : list Size :=
  map (fun _ => Finite 0) t.

(** The entries of [t] selected by a boolean mask, in order. *)
Fixpoint select {A : Type} (t : list A) (m : list bool) : list A :=
  match t, m with
  | x :: t', b :: m' => if b then x :: select t' m' else select t' m'
  | _, _ => []
  end.

(** The entries of [t] under the mask replaced by the successive entries
    of [v]. *)
Fixpoint scatter {A : Type} (t : list A) (m : list bool) (v : list A) : list A :=
  match t, m with
  | x :: t', b :: m' =>
      if b then
        match v with
        | y :: v' => y :: scatter t' m' v'
        | [] => x :: scatter t' m' []
        end
      else x :: scatter t' m' v
  | _, _ => t
  end.

Definition count_true (m : list bool) : nat := length (filter (fun b => b) m).

(** [t.index({mask})]: the mask must have the shape of [t]. *)
Definition index {A : Type} (t : list A) (m : list bool) : option (list A) :=
  if (length t =? length m)%nat then Some (select t m) else None.

(** [t.index_put_({mask}, v)]: the mask must have the shape of [t] and
    [v] one value per selected entry (the values written here are always
    read under the same mask). *)
Definition index_put_ {A : Type} (t : list A) (m : list bool) (v : list A)
  : option (list A) :=
  if ((length t =? length m)%nat && (length v =? count_true m)%nat)%bool
  then Some (scatter t m v) else None.

(** 2-norm of one row. *)
Definition row_norm (row : list R) : R :=
  sqrt (fold_right (fun x s => (x * x + s)%R) 0%R row).

(** [torch::linalg::vector_norm(g, 2, {-1}, false)] *)
Definition vector_norm (g : matrix) : list R := map row_norm g.

(** [t / t.norm(2, {-1}, true)] *)
Definition normalize_rows (t : matrix) : matrix :=
  map (fun row => map (fun x => (x / row_norm row)%R) row) t.

(** ** Model state *)

Record Model := {
  config : Config;
  (* parameters *)
  means : matrix;
  scales : matrix;
  quats : matrix;
  featuresDc : matrix;
  featuresRest : list matrix;
  opacities : matrix;
  backgroundColor : list R;
  (* byproducts of the last render pass *)
  xys : matrix;
  xys_grad : option matrix;
  radii : list Z;
  lastHeight : Z;
  lastWidth : Z;
  (* density-control statistics *)
  xysGradNorm : list R;
  visCounts : list R;
  max2DSize : list Size
}.

Definition set_statistics (m : Model) (norm counts : list R)
    (size : list Size) : Model :=
  {| config := config m; means := means m; scales := scales m;
     quats := quats m; featuresDc := featuresDc m;
     featuresRest := featuresRest m; opacities := opacities m;
     backgroundColor := backgroundColor m;
     xys := xys m; xys_grad := xys_grad m; radii := radii m;
     lastHeight := lastHeight m; lastWidth := lastWidth m;
     xysGradNorm := norm; visCounts := counts; max2DSize := size |}.

Definition set_render_state (m : Model) (xy : matrix) (g : option matrix)
    (r : list Z) (h w : Z) : Model :=
  {| config := config m; means := means m; scales := scales m;
     quats := quats m; featuresDc := featuresDc m;
     featuresRest := featuresRest m; opacities := opacities m;
     backgroundColor := backgroundColor m;
     xys := xy; xys_grad := g; radii := r;
     lastHeight := h; lastWidth := w;
     xysGradNorm := xysGradNorm m; visCounts := visCounts m;
     max2DSize := max2DSize m |}.

(** ** Density-control statistics ([Model::afterTrain]) *)

(** [(radii > 0).flatten()] *)
Definition visibleMask (m : Model) : list bool := map (fun r => 0 <? r) (radii m).

(** The gradient-norm accumulator and the visibility counts after the
    first [if]/[else] of the statistics block. *)
Definition update_gradients (m : Model) (grads : list R)
  : option (list R * list R) :=
  if numel (xysGradNorm m) =? 0 then
    Some (grads, ones_like grads)
  else
    vc <- index (visCounts m) (visibleMask m) ;;
    counts <- index_put_ (visCounts m) (visibleMask m) (map (fun c => (c + 1)%R) vc) ;;
    gs <- index grads (visibleMask m) ;;
    xs <- index (xysGradNorm m) (visibleMask m) ;;
    norm <- index_put_ (xysGradNorm m) (visibleMask m) (map2 Rplus gs xs) ;;
    Some (norm, counts).

(** The largest projected size after the second half of the block. *)
Definition update_max2DSize (m : Model) : option (list Size) :=
  let size := if numel (max2DSize m) =? 0 then zeros_like (radii m)
              else max2DSize m in
  newRadii <- index (radii m) (visibleMask m) ;;
  old <- index size (visibleMask m) ;;
  index_put_ size (visibleMask m)
    (map2 size_max old
       (map (fun r => normalized r (Z.max (lastHeight m) (lastWidth m)))
            newRadii)).

(** The body of [if (step < stopSplitAt)] up to the debug print. *)
Definition update_statistics (m : Model) : option Model :=
  g <- xys_grad m ;;
  let grads := vector_norm g in
  nc <- update_gradients m grads ;;
  size <- update_max2DSize m ;;
  Some (set_statistics m (fst nc) (snd nc) size).

(** [bool doDensification = step < stopSplitAt &&
      step % resetInterval > numCameras + refineEvery;] *)
Definition doDensification (c : Config) (step : Z) : option bool :=
  resetInterval <- Int.mul (resetAlphaEvery c) (refineEvery c) ;;
  if step <? stopSplitAt c then
    r <- Int.rem step resetInterval ;;
    bound <- Int.add (numCameras c) (refineEvery c) ;;
    Some (bound <? r)
  else Some false.

(** How a call of [afterTrain] ends. *)
Inductive Outcome :=
| Returned (m : Model)
| Exited (code : Z) (printed : list Size) (m : Model)
| Raised
| Undefined.

(** [void Model::afterTrain(int step)]: the statistics block ends in
    [std::cout << max2DSize << std::endl; exit(1);], the refinement block
    that follows has an empty body. *)
Definition afterTrain (m : Model) (step : Z) : Outcome :=
  if step <? stopSplitAt (config m) then
    match update_statistics m with
    | Some m' => Exited 1 (max2DSize m') m'
    | None => Raised
    end
  else
    match Int.rem step (refineEvery (config m)) with
    | None => Undefined
    | Some r =>
        if ((r =? 0) && (warmupLength (config m) <? step))%bool then
          match doDensification (config m) step with
          | None => Undefined
          | Some _ => Returned m
          end
        else Returned m
    end.

(** ** Camera *)

(** Modelled from the spec: the class [Camera], which [model.cpp] uses
    and which is declared outside it.  The spec's camera holds a pose
    (camera to world, 4 x 4), the intrinsics, a target height and width
    and a mutable output-resolution scale. *)
Record Camera := {
  targetFx : R;
  targetFy : R;
  targetCx : R;
  targetCy : R;
  targetHeight : Z;
  targetWidth : Z;
  outputScale : R;
  camToWorld : matrix
}.

(** Conversion of a [float] to [int]: the fractional part is discarded
    (the sizes converted here are far inside the [int] range). *)
Definition float_to_int (r : R) : Z :=
  if Rle_dec 0 r then Int_part r else - Int_part (- r).

(** Modelled from the spec: what [model.cpp] reads as [cam.fx],
    [cam.fy], [cam.cx], [cam.cy], [cam.height] and [cam.width], the
    intrinsics and the size at the current output resolution, that is,
    the target values times the scale.  [model.cpp] uses the height and
    the width as integers (tile counts by integer division, the shape
    list of [repeat]), so these two are converted as C++ converts a
    [float] to [int]. *)
Definition fx (cam : Camera) : R := targetFx cam * outputScale cam.
Definition fy (cam : Camera) : R := targetFy cam * outputScale cam.
Definition cx (cam : Camera) : R := targetCx cam * outputScale cam.
Definition cy (cam : Camera) : R := targetCy cam * outputScale cam.
Definition height (cam : Camera) : Z :=
  float_to_int (IZR (targetHeight cam) * outputScale cam).
Definition width (cam : Camera) : Z :=
  float_to_int (IZR (targetWidth cam) * outputScale cam).

(** Modelled from the spec: [Camera::scaleOutputResolution], which
    [model.cpp] calls and which is defined outside it.  The spec has the
    call scale the camera's output resolution by the given factor, the
    scale being the one mutable field of the camera: the scale is
    multiplied by the factor, the pose and the target values stay. *)
Definition scaleOutputResolution (cam : Camera) (scaleFactor : R) : Camera :=
  {| targetFx := targetFx cam;
     targetFy := targetFy cam;
     targetCx := targetCx cam;
     targetCy := targetCy cam;
     targetHeight := targetHeight cam;
     targetWidth := targetWidth cam;
     outputScale := outputScale cam * scaleFactor;
     camToWorld := camToWorld cam |}.

(** The camera as the stages see it when the downscale factor is [d],
    and as the caller finds it after the call. *)
Definition scaled (cam : Camera) (d : Z) : Camera :=
  scaleOutputResolution cam (1 / IZR d).

Definition restored (cam : Camera) (d : Z) : Camera :=
  scaleOutputResolution (scaled cam d) (1 / (1 / IZR d)).

(** ** Geometry *)

Section Geometry.
Local Open Scope R_scope.

Definition dot (a b : list R) : R := fold_right Rplus 0 (map2 Rmult a b).

Fixpoint transpose (M : matrix) : matrix :=
  match M with
  | [] => []
  | row :: M' =>
      match M' with
      | [] => map (fun x => [x]) row
      | _ => map2 cons row (transpose M')
      end
  end.

Definition matmul (A B : matrix) : matrix :=
  map (fun row => map (dot row) (transpose B)) A.

Definition mneg (A : matrix) : matrix := map (map Ropp) A.

Definition diag3 (a b c : R) : matrix := [[a; 0; 0]; [0; b; 0]; [0; 0; c]].

(** [M.index({Slice(None, 3), Slice(None, 3)})] *)
Definition rotation_of (M : matrix) : matrix := map (firstn 3) (firstn 3 M).

(** [M.index({Slice(None, 3), Slice(3, 4)})] *)
Definition translation_of (M : matrix) : matrix :=
  map (fun row => firstn 1 (skipn 3 row)) (firstn 3 M).

(** The identity of size 4 with its upper blocks overwritten by [Rinv]
    (3 x 3) and [Tinv] (3 x 1). *)
Definition viewMatrix (Rinv Tinv : matrix) : matrix :=
  map2 (fun r t => r ++ t) Rinv Tinv ++ [[0; 0; 0; 1]].

(** [a - b] where the single row of [b] is broadcast over the rows of [a]. *)
Definition sub_broadcast (a b : matrix) : matrix :=
  match b with
  | [row] => map (fun r => map2 Rminus r row) a
  | _ => map2 (map2 Rminus) a b
  end.

(** The locals [t], [b], [r], [l] of [projectionMatrix]. *)
Definition frustum_t (zNear fovY : R) : R := zNear * tan (0.5 * fovY).
Definition frustum_b (zNear fovY : R) : R := - frustum_t zNear fovY.
Definition frustum_r (zNear fovX : R) : R := zNear * tan (0.5 * fovX).
Definition frustum_l (zNear fovX : R) : R := - frustum_r zNear fovX.

(** OpenGL perspective projection matrix. *)
Definition projectionMatrix (zNear zFar fovX fovY : R) : matrix :=
  let t := frustum_t zNear fovY in
  let b := frustum_b zNear fovY in
  let r := frustum_r zNear fovX in
  let l := frustum_l zNear fovX in
  [ [2 * zNear / (r - l); 0; (r + l) / (r - l); 0];
    [0; 2 * zNear / (t - b); (t + b) / (t - b); 0];
    [0; 0; (zFar + zNear) / (zFar - zNear); -1 * zFar * zNear / (zFar - zNear)];
    [0; 0; 1; 0] ].

(** The clip planes [forward] passes to [projectionMatrix]. *)
Definition zNear : R := 0.001.
Definition zFar : R := 1000.

Definition fovX (cam : Camera) : R := 2 * atan (IZR (width cam) / (2 * fx cam)).
Definition fovY (cam : Camera) : R := 2 * atan (IZR (height cam) / (2 * fy cam)).

(** [torch::sigmoid], as the real number that the float result rounds;
    it lies strictly between 0 and 1, its rounding between 0 and 1. *)
Definition sigmoid (x : R) : R := 1 / (1 + exp (- x)).

End Geometry.

(** ** Render pass ([Model::forward]) *)

Definition image := list (list (list R)).

(** The arguments of the projection stage. *)
Record ProjectArgs := {
  pa_means : matrix;
  pa_scales : matrix;
  pa_globScale : R;
  pa_quats : matrix;
  pa_viewMat : matrix;
  pa_projMat : matrix;
  pa_fx : R;
  pa_fy : R;
  pa_cx : R;
  pa_cy : R;
  pa_height : Z;
  pa_width : Z;
  pa_tileBounds : Z * Z * Z
}.

(** Its five results [p[0]] .. [p[4]]. *)
Record Projection := {
  p_xys : matrix;
  p_depths : list R;
  p_radii : list Z;
  p_conics : matrix;
  p_numTilesHit : list Z
}.

Record RasterizeArgs := {
  ra_xys : matrix;
  ra_depths : list R;
  ra_radii : list Z;
  ra_conics : matrix;
  ra_numTilesHit : list Z;
  ra_colors : matrix;
  ra_opacity : matrix;
  ra_height : Z;
  ra_width : Z;
  ra_background : list R
}.

(** The stages of the external pipeline and the tile size of
    [vendor/gsplat/config.h]. *)
Class Pipeline := {
  BLOCK_X : Z;
  BLOCK_Y : Z;
  ProjectGaussians : ProjectArgs -> Projection;
  SphericalHarmonics : Z -> matrix -> list matrix -> matrix;
  RasterizeGaussians : RasterizeArgs -> image
}.

(** A record of the stages a render pass went through. *)
Inductive StageCall :=
| ProjectCall (a : ProjectArgs)
| SphericalHarmonicsCall (degree : Z) (viewDirs : matrix) (colors : list matrix)
| RasterizeCall (a : RasterizeArgs).

Record Rendered := {
  r_image : image;
  r_cam : Camera;
  r_model : Model;
  r_calls : list StageCall
}.

(** [t] laid out over [h] rows of [w] pixels. *)
Definition broadcast (t : list R) (h w : Z) : image :=
  repeat (repeat t (Z.to_nat w)) (Z.to_nat h).

(** [t.repeat({h, w, 1})] for a one-dimensional [t]; a negative count is
    rejected. *)
Definition repeat_hw (t : list R) (h w : Z) : option image :=
  if ((h <? 0) || (w <? 0))%bool then None else Some (broadcast t h w).

Definition sum_radii (r : list Z) : Z := fold_right Z.add 0 r.

Section Forward.
Context {P : Pipeline}.
Local Open Scope R_scope.

(** The world-to-camera matrix of [forward]. *)
Definition viewMat_of (cam : Camera) : matrix :=
  let R0 := rotation_of (camToWorld cam) in
  let T := translation_of (camToWorld cam) in
  let R1 := matmul R0 (diag3 1 (-1) (-1)) in
  let Rinv := transpose R1 in
  let Tinv := matmul (mneg Rinv) T in
  viewMatrix Rinv Tinv.

(** [(size + block - 1) / block] in [int] arithmetic. *)
Definition tile_count (size block : Z) : option Z :=
  s <- Int.add size block ;;
  s' <- Int.sub s 1 ;;
  Int.div s' block.

(** [std::make_tuple((cam.width + BLOCK_X - 1) / BLOCK_X,
                     (cam.height + BLOCK_Y - 1) / BLOCK_Y, 1)] *)
Definition tileBounds_of (cam : Camera) : option (Z * Z * Z) :=
  tx <- tile_count (width cam) BLOCK_X ;;
  ty <- tile_count (height cam) BLOCK_Y ;;
  Some (tx, ty, 1%Z).

(** The camera has a size, and the tile counts of its image stay inside
    the [int] range. *)
Definition tileable (cam : Camera) : Prop :=
  (0 < BLOCK_X /\ 0 < BLOCK_Y /\
   0 <= width cam /\ width cam + BLOCK_X <= Int.max_int /\
   0 <= height cam /\ height cam + BLOCK_Y <= Int.max_int)%Z.

(** What [forward] hands to the projection stage for the scaled camera. *)
Definition project_args (m : Model) (cam : Camera)
    (tileBounds : Z * Z * Z) : ProjectArgs :=
  let viewMat := viewMat_of cam in
  let projMat := projectionMatrix zNear zFar (fovX cam) (fovY cam) in
  {| pa_means := means m;
     pa_scales := map (map exp) (scales m);
     pa_globScale := 1;
     pa_quats := normalize_rows (quats m);
     pa_viewMat := viewMat;
     pa_projMat := matmul projMat viewMat;
     pa_fx := fx cam; pa_fy := fy cam; pa_cx := cx cam; pa_cy := cy cam;
     pa_height := height cam; pa_width := width cam;
     pa_tileBounds := tileBounds |}.

(** [means.detach() - T.transpose(0, 1)], normalized row by row. *)
Definition viewDirs_of (m : Model) (cam : Camera) : matrix :=
  let T := translation_of (camToWorld cam) in
  normalize_rows (sub_broadcast (means m) (transpose T)).

(** [torch::Tensor Model::forward(Camera& cam, int step)].  The result
    carries, next to the image, the camera and the model as the call
    leaves them and the stages the call went through.  The projected
    coordinates are a new tensor, whose gradient is filled in by the
    backward pass only. *)
Definition forward (m : Model) (cam : Camera) (step : Z) : option Rendered :=
  d <- getDownscaleFactor (config m) step ;;
  let scaleFactor := 1 / IZR d in
  let cam1 := scaleOutputResolution cam scaleFactor in
  tileBounds <- tileBounds_of cam1 ;;
  let pargs := project_args m cam1 tileBounds in
  let colors := map2 cons (featuresDc m) (featuresRest m) in
  let p := ProjectGaussians pargs in
  let m1 := set_render_state m (p_xys p) None (p_radii p)
              (height cam1) (width cam1) in
  if (sum_radii (p_radii p) =? 0)%Z then
    (* Rescale resolution back *)
    let cam2 := scaleOutputResolution cam1 (1 / scaleFactor) in
    img <- repeat_hw (backgroundColor m) (height cam2) (width cam2) ;;
    Some {| r_image := img; r_cam := cam2; r_model := m1;
            r_calls := [ProjectCall pargs] |}
  else
    let viewDirs := viewDirs_of m cam1 in
    deg <- degreesToUse (config m) step ;;
    let rgbs := SphericalHarmonics deg viewDirs colors in
    let rgbs := map (map (fun x => Rmax (x + 0.5) 0)) rgbs in
    let rargs :=
      {| ra_xys := p_xys p; ra_depths := p_depths p; ra_radii := p_radii p;
         ra_conics := p_conics p; ra_numTilesHit := p_numTilesHit p;
         ra_colors := rgbs;
         ra_opacity := map (map sigmoid) (opacities m);
         ra_height := height cam1; ra_width := width cam1;
         ra_background := backgroundColor m |} in
    let rgb := RasterizeGaussians rargs in
    let rgb := map (map (map (fun x => Rmin x 1))) rgb in
    (* Rescale resolution back *)
    let cam2 := scaleOutputResolution cam1 (1 / scaleFactor) in
    Some {| r_image := rgb; r_cam := cam2; r_model := m1;
            r_calls := [ProjectCall pargs;
                        SphericalHarmonicsCall deg viewDirs colors;
                        RasterizeCall rargs] |}.

End Forward.

(** ** The view direction as the specification words it

    Not part of [model.cpp]: the unit vector from the mean of each
    primitive to the camera position, for comparison with
    [viewDirs_of]. *)

Definition cameraPosition (cam : Camera) : list R :=
  concat (translation_of (camToWorld cam)).

Definition viewDirs_claimed (m : Model) (cam : Camera) : matrix :=
  normalize_rows (map (map2 Rminus (cameraPosition cam)) (means m)).

(** ** Successive statistics passes

    Between two passes the render pass and the backward pass overwrite
    the projected radii, the gradient of the projected coordinates and
    the size of the last rendered image. *)

Record Observation := {
  o_radii : list Z;
  o_grad : matrix;
  o_height : Z;
  o_width : Z
}.

Definition observe (m : Model) (o : Observation) : Model :=
  set_render_state m (xys m) (Some (o_grad o)) (o_radii o)
    (o_height o) (o_width o).

(** The statistics block executed once per observation, the statistics
    carried from one execution to the next: what successive calls of
    [afterTrain] below [stopSplitAt] do to the statistics, leaving aside
    that the call as it stands ends the process after the block. *)
Fixpoint run (m : Model) (os : list Observation) : option Model :=
  match os with
  | [] => Some m
  | o :: os' => m' <- update_statistics (observe m o) ;; run m' os'
  end.

(** Primitive [i] is visible in [o]; its gradient magnitude there. *)
Definition visible (o : Observation) (i : nat) : bool := 0 <? nth i (o_radii o) 0.
Definition magnitude (o : Observation) (i : nat) : R :=
  nth i (vector_norm (o_grad o)) 0%R.

(** Sum of the magnitudes and number of steps over the steps in which
    primitive [i] is visible. *)
Fixpoint visible_sum (os : list Observation) (i : nat) : R :=
  match os with
  | [] => 0%R
  | o :: os' =>
      if visible o i then (magnitude o i + visible_sum os' i)%R
      else visible_sum os' i
  end.

Fixpoint visible_count (os : list Observation) (i : nat) : R :=
  match os with
  | [] => 0%R
  | o :: os' =>
      if visible o i then (1 + visible_count os' i)%R
      else visible_count os' i
  end.

(** Every tensor of the observation has one entry per primitive. *)
Definition shaped (n : nat) (o : Observation) : Prop :=
  length (o_radii o) = n /\ length (o_grad o) = n.

(** No statistics pass has run yet. *)
Definition fresh (m : Model) : Prop :=
  xysGradNorm m = [] /\ visCounts m = [] /\ max2DSize m = [].

(** The statistics hold one entry per primitive. *)
Definition initialised (n : nat) (m : Model) : Prop :=
  length (xysGradNorm m) = n /\ length (visCounts m) = n /\
  length (max2DSize m) = n.

(** The normalized size of primitive [i] in [o]. *)
Definition size_in (o : Observation) (i : nat) : Size :=
  normalized (nth i (o_radii o) 0%Z) (Z.max (o_height o) (o_width o)).

(** ** Sample scenes

    One primitive on the z axis, one unit behind a camera that sits at
    the origin with the identity pose (it looks down -z), under the
    default schedule with a single downscale level. *)

Definition sample_config : Config :=
  {| numDownscales := 1; resolutionSchedule := 250;
     shDegree := 3; shDegreeInterval := 1000;
     refineEvery := 100; warmupLength := 500; resetAlphaEvery := 30;
     stopSplitAt := 15000; numCameras := 1 |}.

Definition identity_pose : matrix :=
  [[1; 0; 0; 0]; [0; 1; 0; 0]; [0; 0; 1; 0]; [0; 0; 0; 1]]%R.

Definition sample_camera (h w : Z) : Camera :=
  {| targetFx := 4; targetFy := 4; targetCx := 2; targetCy := 2;
     targetHeight := h; targetWidth := w; outputScale := 1;
     camToWorld := identity_pose |}.

Definition sample_model : Model :=
  {| config := sample_config;
     means := [[0; 0; 1]]%R;
     scales := [[0; 0; 0]]%R;
     quats := [[1; 0; 0; 0]]%R;
     featuresDc := [[0; 0; 0]]%R;
     featuresRest := [[]];
     opacities := [[0]]%R;
     backgroundColor := [0; 0; 0]%R;
     xys := []; xys_grad := None; radii := [];
     lastHeight := 0; lastWidth := 0;
     xysGradNorm := []; visCounts := []; max2DSize := [] |}.

(** Two steps of the sample scene: the primitive is culled in the first
    (radius 0, no gradient) and visible in the second. *)
Definition culled_step : Observation :=
  {| o_radii := [0]; o_grad := [[0; 0]]%R; o_height := 4; o_width := 4 |}.

Definition visible_step : Observation :=
  {| o_radii := [1]; o_grad := [[4; 0]]%R; o_height := 4; o_width := 4 |}.

(** A pipeline whose projection gives every primitive the radius [rad];
    its other stages return black. *)
Definition constant_pipeline (rad : Z) : Pipeline :=
  {| BLOCK_X := 16; BLOCK_Y := 16;
     ProjectGaussians := fun a =>
       {| p_xys := map (fun _ => [0; 0]%R) (pa_means a);
          p_depths := map (fun _ => 1%R) (pa_means a);
          p_radii := map (fun _ => rad) (pa_means a);
          p_conics := map (fun _ => [1; 0; 1]%R) (pa_means a);
          p_numTilesHit := map (fun _ => 1) (pa_means a) |};
     SphericalHarmonics := fun _ viewDirs _ => map (fun _ => [0; 0; 0]%R) viewDirs;
     RasterizeGaussians := fun a =>
       broadcast [0; 0; 0]%R (ra_height a) (ra_width a) |}.

(** ** Random rotations ([randomQuatTensor])

    The three calls of [torch::rand(n)] are given as the lists of their
    draws; [pi] is the constant [PI] of [constants.hpp]. *)

Definition stack4 (a b c d : list R) : matrix :=
  map2 cons a (map2 cons b (map2 (fun z t => [z; t]) c d)).

Definition randomQuatTensor (pi : R) (u v w : list R) : matrix :=
  stack4
    (map2 Rmult (map (fun x => sqrt (1 - x)) u) (map (fun x => sin (2 * pi * x)) v))
    (map2 Rmult (map (fun x => sqrt (1 - x)) u) (map (fun x => cos (2 * pi * x)) v))
    (map2 Rmult (map sqrt u) (map (fun x => sin (2 * pi * x)) w))
    (map2 Rmult (map sqrt u) (map (fun x => cos (2 * pi * x)) w)).

(** ** Image metrics ([psnr], [l1])

    An image is given here by the list of its entries; the two arguments
    of a metric have the same shape, which the comparison of the lengths
    stands for.  [None] is a result that is no real number: the mean of
    no entries, the logarithm of an infinite ratio.  The values are the
    real numbers that the float results round: a mean that is positive
    here can be computed as 0 when the differences are tiny. *)

Definition sub_entries (a b : list R) : option (list R) :=
  if (length a =? length b)%nat then Some (map2 Rminus a b) else None.

(** [t.mean()] *)
Definition mean (t : list R) : option R :=
  match t with
  | [] => None
  | _ => Some (fold_right Rplus 0 t / INR (length t))%R
  end.

Definition log10 (x : R) : R := (ln x / ln 10)%R.

(** [(rendered - gt).pow(2).mean()] *)
Definition mse (rendered gt : list R) : option R :=
  d <- sub_entries rendered gt ;;
  mean (map (fun x => (x * x)%R) d).

(** [torch::Tensor psnr(const torch::Tensor& rendered, const torch::Tensor& gt)] *)
Definition psnr (rendered gt : list R) : option R :=
  e <- mse rendered gt ;;
  if Rlt_dec 0 e then Some (10 * log10 (1 / e))%R else None.

(** [torch::Tensor l1(const torch::Tensor& rendered, const torch::Tensor& gt)] *)
Definition l1 (rendered gt : list R) : option R :=
  d <- sub_entries gt rendered ;;
  mean (map Rabs d).

(** ** Rescaled rotations *)

(** The model with other values in [quats]. *)
Definition with_quats (m : Model) (q : matrix) : Model :=
  {| config := config m; means := means m; scales := scales m;
     quats := q; featuresDc := featuresDc m;
     featuresRest := featuresRest m; opacities := opacities m;
     backgroundColor := backgroundColor m;
     xys := xys m; xys_grad := xys_grad m; radii := radii m;
     lastHeight := lastHeight m; lastWidth := lastWidth m;
     xysGradNorm := xysGradNorm m; visCounts := visCounts m;
     max2DSize := max2DSize m |}.

(** Row [i] of [q] multiplied by the [i]-th factor. *)
Definition scale_rows (ks : list R) (q : matrix) : matrix :=
  map2 (fun k row => map (Rmult k) row) ks q.

(** ** Largest normalized size seen

    The largest of [start] and the normalized sizes of primitive [i] in
    the observations in which it is visible. *)
Definition visible_max (os : list Observation) (i : nat) (start : Size)
  : Size :=
  fold_left
    (fun acc o => if visible o i then size_max acc (size_in o i) else acc)
    os start.

(** ** More sample data

    The sample model once statistics for its primitive exist, and a step
    that projects two primitives. *)

Definition tracked_model : Model :=
  set_statistics sample_model [0]%R [1]%R [Finite 0].

Definition two_primitive_step : Observation :=
  {| o_radii := [1; 1]; o_grad := [[0; 0]; [0; 0]]%R;
     o_height := 4; o_width := 4 |}.

(** A step whose image was rendered at size 0 x 0 (a 1 x 1 camera under
    the downscale factor 2) and whose primitive is reported visible. *)
Definition empty_image_step : Observation :=
  {| o_radii := [1]; o_grad := [[0; 0]]%R; o_height := 0; o_width := 0 |}.

(** * Properties *)

(** ** [int] arithmetic *)

Lemma checked_Some z :
  Int.min_int <= z <= Int.max_int -> Int.checked z = Some z.
Proof.
  intros [Hlo Hhi]. unfold Int.checked, Int.in_range.
  apply Z.leb_le in Hlo. apply Z.leb_le in Hhi.
  now rewrite Hlo, Hhi.
Qed.

Lemma checked_inv z r :
  Int.checked z = Some r -> r = z /\ Int.min_int <= z <= Int.max_int.
Proof.
  unfold Int.checked, Int.in_range.
  destruct (Int.min_int <=? z) eqn:Hlo; destruct (z <=? Int.max_int) eqn:Hhi;
    simpl; try discriminate.
  intros [= <-]. apply Z.leb_le in Hlo. apply Z.leb_le in Hhi. auto.
Qed.

Lemma div_nonneg a b :
  0 <= a <= Int.max_int -> 0 < b -> Int.div a b = Some (a / b).
Proof.
  intros [Ha Hmax] Hb. unfold Int.div.
  destruct (Z.eqb_spec b 0) as [->|_]; [lia|].
  rewrite Z.quot_div_nonneg by lia.
  apply checked_Some.
  assert (0 <= a / b) by (apply Z.div_pos; lia).
  assert (a / b <= a) by (apply Z.div_le_upper_bound; nia).
  unfold Int.min_int. lia.
Qed.

(** ** Schedules *)

Lemma degreesToUse_eq c s :
  0 < shDegreeInterval c -> 0 <= s <= Int.max_int ->
  degreesToUse c s = Some (Z.min (s / shDegreeInterval c) (shDegree c)).
Proof.
  intros Hi Hs. unfold degreesToUse.
  now rewrite div_nonneg.
Qed.

Lemma getDownscaleFactor_eq c s :
  0 < resolutionSchedule c -> 0 <= numDownscales c <= 30 ->
  0 <= s <= Int.max_int ->
  getDownscaleFactor c s =
    Some (2 ^ Z.max (numDownscales c - s / resolutionSchedule c) 0).
Proof.
  intros Hr Hn Hs. unfold getDownscaleFactor.
  rewrite div_nonneg by assumption. cbn [obind].
  assert (Hq : 0 <= s / resolutionSchedule c) by (apply Z.div_pos; lia).
  assert (Hq' : s / resolutionSchedule c <= s)
    by (apply Z.div_le_upper_bound; nia).
  unfold Int.sub. rewrite checked_Some
    by (unfold Int.min_int, Int.max_int in *; lia).
  cbn [obind]. unfold Int.of_double. apply checked_Some.
  set (e := Z.max _ 0).
  assert (He : 0 <= e <= 30) by (subst e; lia).
  assert (0 < 2 ^ e) by (apply Z.pow_pos_nonneg; lia).
  assert (2 ^ e <= 2 ^ 30) by (apply Z.pow_le_mono_r; lia).
  unfold Int.min_int, Int.max_int. lia.
Qed.

Lemma getDownscaleFactor_pos c s d :
  getDownscaleFactor c s = Some d -> 0 < d.
Proof.
  unfold getDownscaleFactor.
  destruct (Int.div _ _) as [q|]; [cbn [obind] | discriminate].
  destruct (Int.sub _ _) as [e|]; [cbn [obind] | discriminate].
  intros H. apply checked_inv in H as [-> _].
  apply Z.pow_pos_nonneg; lia.
Qed.

(** ** Shape of a render pass *)

Section ForwardFacts.
Context {P : Pipeline}.

Lemma forward_inv m cam step r :
  forward m cam step = Some r ->
  exists d tb,
    getDownscaleFactor (config m) step = Some d /\
    tileBounds_of (scaled cam d) = Some tb /\
    r_cam r = restored cam d /\
    hd_error (r_calls r)
      = Some (ProjectCall (project_args m (scaled cam d) tb)).
Proof.
  unfold forward.
  destruct (getDownscaleFactor (config m) step) as [d|]; [|discriminate].
  cbn [obind]. fold (scaled cam d).
  destruct (tileBounds_of (scaled cam d)) as [tb|] eqn:Htb; [|discriminate].
  cbn [obind].
  destruct (sum_radii _ =? 0).
  - destruct (repeat_hw _ _ _) as [img|]; [|discriminate].
    cbn [obind]. intros [= <-]. exists d, tb. auto.
  - destruct (degreesToUse (config m) step) as [deg|]; [|discriminate].
    cbn [obind]. intros [= <-]. exists d, tb. auto.
Qed.

Lemma forward_degenerate m cam step d tb :
  getDownscaleFactor (config m) step = Some d ->
  tileBounds_of (scaled cam d) = Some tb ->
  sum_radii (p_radii (ProjectGaussians (project_args m (scaled cam d) tb))) = 0 ->
  0 <= height (restored cam d) -> 0 <= width (restored cam d) ->
  forward m cam step =
    Some {| r_image := broadcast (backgroundColor m)
                         (height (restored cam d)) (width (restored cam d));
            r_cam := restored cam d;
            r_model :=
              (let p := ProjectGaussians (project_args m (scaled cam d) tb) in
               set_render_state m (p_xys p) None (p_radii p)
                 (height (scaled cam d)) (width (scaled cam d)));
            r_calls := [ProjectCall (project_args m (scaled cam d) tb)] |}.
Proof.
  intros Hd Htb Hsum Hh Hw. unfold forward. rewrite Hd. cbn [obind].
  fold (scaled cam d). rewrite Htb. cbn [obind]. rewrite Hsum. cbn [Z.eqb].
  fold (restored cam d). unfold repeat_hw.
  apply Z.ltb_ge in Hh. apply Z.ltb_ge in Hw. now rewrite Hh, Hw.
Qed.

Lemma forward_rendered m cam step r :
  forward m cam step = Some r ->
  forall d tb, getDownscaleFactor (config m) step = Some d ->
  tileBounds_of (scaled cam d) = Some tb ->
  sum_radii (p_radii (ProjectGaussians (project_args m (scaled cam d) tb))) <> 0 ->
  exists deg rargs,
    degreesToUse (config m) step = Some deg /\
    r_calls r =
      [ProjectCall (project_args m (scaled cam d) tb);
       SphericalHarmonicsCall deg (viewDirs_of m (scaled cam d))
         (map2 cons (featuresDc m) (featuresRest m));
       RasterizeCall rargs] /\
    ra_height rargs = height (scaled cam d) /\
    ra_width rargs = width (scaled cam d).
Proof.
  intros Hf d tb Hd Htb Hsum. unfold forward in Hf. rewrite Hd in Hf.
  cbn [obind] in Hf. fold (scaled cam d) in Hf. rewrite Htb in Hf.
  cbn [obind] in Hf.
  apply Z.eqb_neq in Hsum. rewrite Hsum in Hf.
  destruct (degreesToUse (config m) step) as [deg|]; [|discriminate].
  cbn [obind] in Hf. injection Hf as <-.
  eexists. eexists. repeat split; reflexivity.
Qed.

(** The only call of the spherical-harmonics stage is the one of the
    normal exit. *)
Lemma forward_sh_call m cam step r deg vd cs :
  forward m cam step = Some r ->
  In (SphericalHarmonicsCall deg vd cs) (r_calls r) ->
  exists d,
    getDownscaleFactor (config m) step = Some d /\
    degreesToUse (config m) step = Some deg /\
    vd = viewDirs_of m (scaled cam d).
Proof.
  unfold forward.
  destruct (getDownscaleFactor (config m) step) as [d|]; [|discriminate].
  cbn [obind]. fold (scaled cam d).
  destruct (tileBounds_of (scaled cam d)) as [tb|] eqn:Htb; [|discriminate].
  cbn [obind].
  destruct (sum_radii _ =? 0).
  - destruct (repeat_hw _ _ _) as [img|]; [|discriminate].
    cbn [obind]. intros [= <-] Hin. cbn in Hin.
    destruct Hin as [Hin|[]]. discriminate.
  - destruct (degreesToUse (config m) step) as [dg|]; [|discriminate].
    cbn [obind]. intros [= <-] Hin. cbn [r_calls] in Hin.
    destruct Hin as [Hin|[Hin|[Hin|[]]]]; try discriminate.
    injection Hin as <- <- _. exists d. auto.
Qed.

Lemma sum_radii_zero r : Forall (fun x => x = 0) r -> sum_radii r = 0.
Proof.
  induction 1 as [|x r Hx _ IH]; [reflexivity|].
  cbn. unfold sum_radii in IH. lia.
Qed.

End ForwardFacts.

(** What [forward] leaves in the model. *)
Lemma forward_model (P : Pipeline) m cam step r :
  forward m cam step = Some r ->
  exists d a,
    getDownscaleFactor (config m) step = Some d /\
    (exists tb, tileBounds_of (scaled cam d) = Some tb /\
                a = project_args m (scaled cam d) tb) /\
    hd_error (r_calls r) = Some (ProjectCall a) /\
    r_model r =
      set_render_state m (p_xys (ProjectGaussians a)) None
        (p_radii (ProjectGaussians a)) (pa_height a) (pa_width a).
Proof.
  unfold forward.
  destruct (getDownscaleFactor (config m) step) as [d|]; [|discriminate].
  cbn [obind]. fold (scaled cam d).
  destruct (tileBounds_of (scaled cam d)) as [tb|] eqn:Htb; [|discriminate].
  cbn [obind]. intros Hf. exists d. eexists.
  split; [reflexivity|]. split; [exists tb; split; [exact Htb | reflexivity]|].
  destruct (sum_radii _ =? 0).
  - destruct (repeat_hw _ _ _) as [img|]; [|discriminate].
    cbn [obind] in Hf. injection Hf as <-. split; reflexivity.
  - destruct (degreesToUse (config m) step) as [deg|]; [|discriminate].
    cbn [obind] in Hf. injection Hf as <-. split; reflexivity.
Qed.

Section ForwardShape.
Context {P : Pipeline}.

(** The two exits of [forward], spelled out. *)
Lemma forward_cases m cam step r :
  forward m cam step = Some r ->
  exists d tb,
    getDownscaleFactor (config m) step = Some d /\
    tileBounds_of (scaled cam d) = Some tb /\
    let a := project_args m (scaled cam d) tb in
    let p := ProjectGaussians a in
    let m1 := set_render_state m (p_xys p) None (p_radii p)
                (height (scaled cam d)) (width (scaled cam d)) in
    (sum_radii (p_radii p) = 0 /\
     0 <= height (restored cam d) /\ 0 <= width (restored cam d) /\
     r = {| r_image := broadcast (backgroundColor m)
                         (height (restored cam d)) (width (restored cam d));
            r_cam := restored cam d; r_model := m1;
            r_calls := [ProjectCall a] |})
    \/
    (sum_radii (p_radii p) <> 0 /\
     exists deg,
       degreesToUse (config m) step = Some deg /\
       let colors := map2 cons (featuresDc m) (featuresRest m) in
       let rargs :=
         {| ra_xys := p_xys p; ra_depths := p_depths p; ra_radii := p_radii p;
            ra_conics := p_conics p; ra_numTilesHit := p_numTilesHit p;
            ra_colors :=
              map (map (fun x => Rmax (x + 0.5) 0))
                (SphericalHarmonics deg (viewDirs_of m (scaled cam d)) colors);
            ra_opacity := map (map sigmoid) (opacities m);
            ra_height := height (scaled cam d);
            ra_width := width (scaled cam d);
            ra_background := backgroundColor m |} in
       r = {| r_image :=
                map (map (map (fun x => Rmin x 1))) (RasterizeGaussians rargs);
              r_cam := restored cam d; r_model := m1;
              r_calls :=
                [ProjectCall a;
                 SphericalHarmonicsCall deg (viewDirs_of m (scaled cam d)) colors;
                 RasterizeCall rargs] |}).
Proof.
  unfold forward.
  destruct (getDownscaleFactor (config m) step) as [d|]; [|discriminate].
  cbn [obind]. fold (scaled cam d).
  destruct (tileBounds_of (scaled cam d)) as [tb|] eqn:Htb; [|discriminate].
  cbn [obind]. intros Hf. exists d, tb.
  split; [reflexivity|]. split; [exact Htb|]. cbv zeta.
  destruct (Z.eqb_spec
    (sum_radii (p_radii (ProjectGaussians (project_args m (scaled cam d) tb)))) 0)
    as [E|E].
  - left. fold (restored cam d) in Hf. unfold repeat_hw in Hf.
    destruct (Z.ltb_spec (height (restored cam d)) 0) as [Hh|Hh];
      [discriminate|].
    destruct (Z.ltb_spec (width (restored cam d)) 0) as [Hw|Hw];
      [discriminate|].
    cbn [orb obind] in Hf. injection Hf as <-. auto.
  - right. split; [assumption|].
    destruct (degreesToUse (config m) step) as [deg|]; [|discriminate].
    cbn [obind] in Hf. injection Hf as <-. exists deg. auto.
Qed.

End ForwardShape.

(** ** Scaling the output resolution *)

Lemma float_to_int_IZR (z : Z) : float_to_int (IZR z) = z.
Proof.
  unfold float_to_int. destruct (Rle_dec 0 (IZR z)) as [_|_].
  - symmetry. apply Int_part_spec. lra.
  - rewrite <- opp_IZR.
    replace (Int_part (IZR (- z))) with (- z); [lia|].
    apply Int_part_spec. lra.
Qed.

Lemma Int_part_nonneg (x : R) : (0 <= x)%R -> 0 <= Int_part x.
Proof.
  intros Hx. destruct (base_Int_part x) as [_ Hhi].
  assert (H : (IZR (-1) < IZR (Int_part x))%R) by lra.
  apply lt_IZR in H. lia.
Qed.

(** The integer part of a quotient by a positive integer is the
    quotient of the integer part. *)
Lemma Int_part_div (x : R) (d : Z) :
  0 < d -> (0 <= x)%R -> Int_part (x * (1 / IZR d)) = Int_part x / d.
Proof.
  intros Hd Hx. symmetry. apply Int_part_spec.
  destruct (base_Int_part x) as [Hlo Hhi].
  set (n := Int_part x) in *.
  pose proof (Z.mul_div_le n d Hd) as H1.
  pose proof (Z.mul_succ_div_gt n d Hd) as H2.
  assert (H3 : n + 1 <= d * (n / d + 1)) by lia.
  apply IZR_le in H1. apply IZR_le in H3.
  rewrite mult_IZR in H1. rewrite plus_IZR, mult_IZR, plus_IZR in H3.
  assert (HdR : (0 < IZR d)%R) by now apply IZR_lt.
  assert (Heq : (x * (1 / IZR d) * IZR d = x)%R) by (field; lra).
  set (q := IZR (n / d)) in *.
  set (y := (x * (1 / IZR d))%R) in *.
  split; nra.
Qed.

Lemma float_to_int_div (x : R) (d : Z) :
  0 < d -> float_to_int (x * (1 / IZR d)) = float_to_int x ÷ d.
Proof.
  intros Hd.
  assert (HdR : (0 < IZR d)%R) by now apply IZR_lt.
  assert (Heq : (x * (1 / IZR d) * IZR d = x)%R) by (field; lra).
  unfold float_to_int.
  destruct (Rle_dec 0 x) as [Hx|Hx];
    destruct (Rle_dec 0 (x * (1 / IZR d))) as [Hy|Hy].
  - rewrite Int_part_div by assumption.
    pose proof (Int_part_nonneg x Hx).
    now rewrite Z.quot_div_nonneg by lia.
  - exfalso. apply Hy. nra.
  - exfalso. apply Hx. nra.
  - replace (- (x * (1 / IZR d)))%R with (- x * (1 / IZR d))%R
      by (field; lra).
    rewrite Int_part_div by (assumption || lra).
    pose proof (Int_part_nonneg (- x) ltac:(lra)).
    rewrite Z.quot_opp_l by lia.
    now rewrite Z.quot_div_nonneg by lia.
Qed.

(** The camera the stages see has the size of the caller's camera
    divided by the downscale factor, rounded toward zero. *)
Lemma scaled_height cam d : 0 < d -> height (scaled cam d) = height cam ÷ d.
Proof.
  intros Hd. unfold height, scaled, scaleOutputResolution.
  cbn [targetHeight outputScale].
  rewrite <- Rmult_assoc. now apply float_to_int_div.
Qed.

Lemma scaled_width cam d : 0 < d -> width (scaled cam d) = width cam ÷ d.
Proof.
  intros Hd. unfold width, scaled, scaleOutputResolution.
  cbn [targetWidth outputScale].
  rewrite <- Rmult_assoc. now apply float_to_int_div.
Qed.

Lemma scaled_intrinsics cam d :
  fx (scaled cam d) = (fx cam * (1 / IZR d))%R /\
  fy (scaled cam d) = (fy cam * (1 / IZR d))%R /\
  cx (scaled cam d) = (cx cam * (1 / IZR d))%R /\
  cy (scaled cam d) = (cy cam * (1 / IZR d))%R.
Proof.
  unfold fx, fy, cx, cy, scaled, scaleOutputResolution.
  cbn [targetFx targetFy targetCx targetCy outputScale].
  repeat split; ring.
Qed.

(** Scaling by the reciprocal of a factor and then by the factor gives
    the camera back. *)
Lemma restored_id (cam : Camera) (d : Z) : d <> 0 -> restored cam d = cam.
Proof.
  intros Hd. assert (HdR : IZR d <> 0%R) by now apply not_0_IZR.
  unfold restored, scaled, scaleOutputResolution. destruct cam.
  cbn [targetFx targetFy targetCx targetCy targetHeight targetWidth
       outputScale camToWorld].
  f_equal. field. exact HdR.
Qed.

Lemma sample_height (h w : Z) : height (sample_camera h w) = h.
Proof.
  unfold height, sample_camera. cbn [targetHeight outputScale].
  rewrite Rmult_1_r. apply float_to_int_IZR.
Qed.

Lemma sample_width (h w : Z) : width (sample_camera h w) = w.
Proof.
  unfold width, sample_camera. cbn [targetWidth outputScale].
  rewrite Rmult_1_r. apply float_to_int_IZR.
Qed.

(** ** Tile counts *)

Lemma tile_count_Some (size block : Z) :
  0 < block -> 0 <= size -> size + block <= Int.max_int ->
  tile_count size block = Some ((size + block - 1) ÷ block).
Proof.
  intros Hb Hs Hmax. unfold tile_count, Int.add, Int.sub, Int.div.
  rewrite checked_Some by (unfold Int.min_int, Int.max_int in *; lia).
  cbn [obind].
  rewrite checked_Some by (unfold Int.min_int, Int.max_int in *; lia).
  cbn [obind].
  destruct (Z.eqb_spec block 0) as [E|_]; [lia|].
  apply checked_Some.
  assert (0 <= (size + block - 1) ÷ block) by (apply Z.quot_pos; lia).
  assert ((size + block - 1) ÷ block <= size + block - 1).
  { rewrite Z.quot_div_nonneg by lia. apply Z.div_le_upper_bound; nia. }
  unfold Int.min_int, Int.max_int in *. lia.
Qed.

Lemma tile_count_inv (size block t : Z) :
  tile_count size block = Some t ->
  t = (size + block - 1) ÷ block /\ block <> 0 /\
  Int.min_int <= size + block <= Int.max_int /\
  Int.min_int <= size + block - 1.
Proof.
  unfold tile_count, Int.add, Int.sub, Int.div.
  destruct (Int.checked (size + block)) as [s|] eqn:E1; [|discriminate].
  apply checked_inv in E1 as [-> Hr1]. cbn [obind].
  destruct (Int.checked (size + block - 1)) as [s|] eqn:E2; [|discriminate].
  apply checked_inv in E2 as [-> Hr2]. cbn [obind].
  destruct (Z.eqb_spec block 0) as [E|E]; [discriminate|].
  intros H. apply checked_inv in H as [-> _]. repeat split; lia.
Qed.

Section Tiles.
Context {P : Pipeline}.

Lemma tileBounds_of_Some (cam : Camera) :
  tileable cam ->
  tileBounds_of cam =
    Some ((width cam + BLOCK_X - 1) ÷ BLOCK_X,
          (height cam + BLOCK_Y - 1) ÷ BLOCK_Y, 1).
Proof.
  intros (Hbx & Hby & Hw0 & Hw & Hh0 & Hh). unfold tileBounds_of.
  now rewrite !tile_count_Some by assumption.
Qed.

Lemma tileBounds_of_inv (cam : Camera) (tb : Z * Z * Z) :
  tileBounds_of cam = Some tb ->
  tb = ((width cam + BLOCK_X - 1) ÷ BLOCK_X,
        (height cam + BLOCK_Y - 1) ÷ BLOCK_Y, 1) /\
  width cam + BLOCK_X <= Int.max_int /\
  height cam + BLOCK_Y <= Int.max_int.
Proof.
  unfold tileBounds_of.
  destruct (tile_count (width cam) BLOCK_X) as [tx|] eqn:Ex; [|discriminate].
  destruct (tile_count (height cam) BLOCK_Y) as [ty|] eqn:Ey; [|discriminate].
  cbn [obind]. intros [= <-].
  apply tile_count_inv in Ex as (-> & _ & Hx & _).
  apply tile_count_inv in Ey as (-> & _ & Hy & _).
  repeat split; lia.
Qed.

Lemma quot_le_self (a d : Z) : 0 <= a -> 0 < d -> 0 <= a ÷ d <= a.
Proof.
  intros Ha Hd. rewrite Z.quot_div_nonneg by lia. split.
  - apply Z.div_pos; lia.
  - apply Z.div_le_upper_bound; nia.
Qed.

(** A camera whose tiles can be counted stays so when scaled down. *)
Lemma tileable_scaled (cam : Camera) (d : Z) :
  0 < d -> tileable cam -> tileable (scaled cam d).
Proof.
  intros Hd (Hbx & Hby & Hw0 & Hw & Hh0 & Hh). unfold tileable.
  rewrite scaled_height, scaled_width by assumption.
  pose proof (quot_le_self (width cam) d Hw0 Hd).
  pose proof (quot_le_self (height cam) d Hh0 Hd).
  repeat split; lia.
Qed.

End Tiles.

Lemma sample_tileable (rad h w : Z) :
  0 <= h <= 4096 -> 0 <= w <= 4096 ->
  tileable (P := constant_pipeline rad) (sample_camera h w).
Proof.
  intros Hh Hw. unfold tileable. rewrite sample_height, sample_width.
  cbn [BLOCK_X BLOCK_Y constant_pipeline]. unfold Int.max_int. lia.
Qed.

(** [forward] returns whenever both of its schedules are defined and
    the tiles of the camera can be counted, and on either exit it leaves
    the camera as it found it. *)
Lemma forward_defined (P : Pipeline) m cam step d deg :
  getDownscaleFactor (config m) step = Some d ->
  degreesToUse (config m) step = Some deg ->
  tileable cam ->
  exists r tb,
    forward m cam step = Some r /\
    tileBounds_of (scaled cam d) = Some tb /\
    r_cam r = cam /\
    radii (r_model r)
      = p_radii (ProjectGaussians (project_args m (scaled cam d) tb)) /\
    (sum_radii (radii (r_model r)) = 0 -> length (r_calls r) = 1%nat) /\
    (sum_radii (radii (r_model r)) <> 0 ->
     r_calls r =
       [ProjectCall (project_args m (scaled cam d) tb);
        SphericalHarmonicsCall deg (viewDirs_of m (scaled cam d))
          (map2 cons (featuresDc m) (featuresRest m));
        RasterizeCall
          {| ra_xys := p_xys (ProjectGaussians (project_args m (scaled cam d) tb));
             ra_depths := p_depths (ProjectGaussians (project_args m (scaled cam d) tb));
             ra_radii := p_radii (ProjectGaussians (project_args m (scaled cam d) tb));
             ra_conics := p_conics (ProjectGaussians (project_args m (scaled cam d) tb));
             ra_numTilesHit :=
               p_numTilesHit (ProjectGaussians (project_args m (scaled cam d) tb));
             ra_colors :=
               map (map (fun x => Rmax (x + 0.5) 0))
                 (SphericalHarmonics deg (viewDirs_of m (scaled cam d))
                    (map2 cons (featuresDc m) (featuresRest m)));
             ra_opacity := map (map sigmoid) (opacities m);
             ra_height := height (scaled cam d);
             ra_width := width (scaled cam d);
             ra_background := backgroundColor m |}]).
Proof.
  intros Hd Hdeg Ht.
  pose proof (getDownscaleFactor_pos _ _ _ Hd) as Hpos.
  pose proof (tileBounds_of_Some _ (tileable_scaled cam d Hpos Ht)) as Htb.
  remember ((width (scaled cam d) + BLOCK_X - 1) ÷ BLOCK_X,
            (height (scaled cam d) + BLOCK_Y - 1) ÷ BLOCK_Y, 1) as tb eqn:Etb.
  clear Etb.
  pose proof (restored_id cam d ltac:(lia)) as Hres.
  destruct Ht as (_ & _ & Hw0 & _ & Hh0 & _).
  destruct (Z.eq_dec
    (sum_radii (p_radii (ProjectGaussians (project_args m (scaled cam d) tb)))) 0)
    as [E|E].
  - eexists. exists tb. split.
    + apply forward_degenerate with (d := d) (tb := tb); try assumption;
        rewrite Hres; assumption.
    + cbn [r_cam r_model r_calls radii set_render_state length].
      split; [exact Htb|]. split; [exact Hres|]. split; [reflexivity|].
      split; [reflexivity|]. intros; contradiction.
  - eexists. exists tb. split.
    + unfold forward. rewrite Hd. cbn [obind]. fold (scaled cam d).
      rewrite Htb. cbn [obind].
      pose proof E as E'. apply Z.eqb_neq in E'. rewrite E', Hdeg.
      cbn [obind]. fold (restored cam d). rewrite Hres. reflexivity.
    + cbn [r_cam r_model r_calls radii set_render_state length].
      split; [exact Htb|]. split; [reflexivity|]. split; [reflexivity|].
      split; [intros; contradiction | reflexivity].
Qed.

(** ** Sample renders *)

Lemma sample_tileBounds (rad h w d : Z) :
  0 < d -> 0 <= h <= 4096 -> 0 <= w <= 4096 ->
  tileBounds_of (P := constant_pipeline rad) (scaled (sample_camera h w) d)
    = Some ((w ÷ d + 16 - 1) ÷ 16, (h ÷ d + 16 - 1) ÷ 16, 1).
Proof.
  intros Hd Hh Hw.
  rewrite tileBounds_of_Some
    by (apply tileable_scaled; [assumption | now apply sample_tileable]).
  rewrite scaled_height, scaled_width by assumption.
  now rewrite sample_height, sample_width.
Qed.

Lemma sample_culled (h w d : Z) (tb : Z * Z * Z) :
  Forall (fun x => x = 0)
    (p_radii (ProjectGaussians (Pipeline := constant_pipeline 0)
       (project_args sample_model
          (scaled (sample_camera h w) d) tb))).
Proof. cbn. repeat constructor. Qed.

(** The sample scene rendered with a visible primitive: the call goes
    through the three stages. *)
Lemma sample_forward_visible (h w step d deg : Z) :
  getDownscaleFactor (config sample_model) step = Some d ->
  degreesToUse (config sample_model) step = Some deg ->
  0 <= h <= 4096 -> 0 <= w <= 4096 ->
  exists r rargs tb,
    forward (P := constant_pipeline 1) sample_model (sample_camera h w) step
      = Some r /\
    radii (r_model r) = [1] /\
    r_calls r =
      [ProjectCall (project_args sample_model
                      (scaled (sample_camera h w) d) tb);
       SphericalHarmonicsCall deg
         (viewDirs_of sample_model (scaled (sample_camera h w) d))
         (map2 cons (featuresDc sample_model) (featuresRest sample_model));
       RasterizeCall rargs] /\
    ra_height rargs = h ÷ d /\ ra_width rargs = w ÷ d /\
    ra_colors rargs =
      map (map (fun x => Rmax (x + 0.5) 0))
        (map (fun _ => [0; 0; 0]%R)
           (viewDirs_of sample_model (scaled (sample_camera h w) d))) /\
    ra_opacity rargs = [[sigmoid 0]] /\
    r_image r =
      map (map (map (fun x => Rmin x 1)))
        (broadcast [0; 0; 0]%R (h ÷ d) (w ÷ d)).
Proof.
  intros Hd Hdeg Hh Hw.
  pose proof (getDownscaleFactor_pos _ _ _ Hd) as Hpos.
  destruct (forward_defined (constant_pipeline 1) sample_model
              (sample_camera h w) step d deg Hd Hdeg
              (sample_tileable 1 h w Hh Hw))
    as (r & tb & Hf & _ & _ & Hrad & _ & Hcalls).
  change (p_radii _) with [1] in Hrad.
  assert (Hsum : sum_radii (radii (r_model r)) <> 0)
    by (rewrite Hrad; cbn; discriminate).
  specialize (Hcalls Hsum).
  destruct (forward_cases (P := constant_pipeline 1) _ _ _ _ Hf)
    as (d' & tb' & Hd' & _ & Hcases).
  assert (d' = d) by congruence. subst d'. cbv zeta in Hcases.
  destruct Hcases as [(E & _)|(_ & deg' & _ & Hr)]; [discriminate E|].
  exists r. eexists. exists tb.
  split; [exact Hf|]. split; [exact Hrad|]. split; [exact Hcalls|].
  cbn [ra_height ra_width ra_colors ra_opacity].
  rewrite scaled_height, scaled_width by assumption.
  rewrite sample_height, sample_width.
  split; [reflexivity|]. split; [reflexivity|]. split; [reflexivity|].
  split; [reflexivity|].
  rewrite Hr. cbn [r_image RasterizeGaussians constant_pipeline
                   ra_height ra_width].
  rewrite scaled_height, scaled_width by assumption.
  now rewrite sample_height, sample_width.
Qed.

(** ** Schedules as [forward] uses them *)

(** C6: for a step [s >= 0] the degree is
    [min (floor (s / shDegreeInterval)) shDegree]; it does not decrease
    as [s] grows, it never exceeds [shDegree], it is the only degree a
    render pass at step [s] can hand to the spherical-harmonics stage,
    and a render pass at step [s] that sees a primitive does call that
    stage with it. *)
Theorem degreesToUse_schedule (c : Config) (s : Z) :
  0 < shDegreeInterval c -> 0 <= s <= Int.max_int ->
  degreesToUse c s = Some (Z.min (s / shDegreeInterval c) (shDegree c)) /\
  Z.min (s / shDegreeInterval c) (shDegree c) <= shDegree c /\
  (forall s', s <= s' <= Int.max_int ->
     exists d', degreesToUse c s' = Some d' /\
                Z.min (s / shDegreeInterval c) (shDegree c) <= d') /\
  (forall (P : Pipeline) m cam r deg vd cs,
     config m = c -> forward m cam s = Some r ->
     In (SphericalHarmonicsCall deg vd cs) (r_calls r) ->
     deg = Z.min (s / shDegreeInterval c) (shDegree c)) /\
  (forall (P : Pipeline) m cam d,
     config m = c -> getDownscaleFactor c s = Some d -> tileable cam ->
     exists r,
       forward m cam s = Some r /\
       (sum_radii (radii (r_model r)) <> 0 ->
        exists vd cs,
          In (SphericalHarmonicsCall
                (Z.min (s / shDegreeInterval c) (shDegree c)) vd cs)
             (r_calls r))).
Proof.
  intros Hi Hs. split; [now apply degreesToUse_eq|].
  split; [lia|]. split; [|split].
  - intros s' Hs'. exists (Z.min (s' / shDegreeInterval c) (shDegree c)).
    split; [apply degreesToUse_eq; lia|].
    assert (s / shDegreeInterval c <= s' / shDegreeInterval c)
      by (apply Z.div_le_mono; lia).
    lia.
  - intros P m cam r deg vd cs Hc Hf Hin. subst c.
    destruct (forward_sh_call _ _ _ _ _ _ _ Hf Hin) as (d & _ & Hdeg & _).
    rewrite degreesToUse_eq in Hdeg by assumption. congruence.
  - intros P m cam d Hc Hd Ht. subst c.
    destruct (forward_defined P m cam s d _ Hd
                (degreesToUse_eq _ _ Hi Hs) Ht)
      as (r & tb & Hf & _ & _ & _ & _ & Hcalls).
    exists r. split; [exact Hf|].
    intros Hsum. rewrite (Hcalls Hsum).
    eexists. eexists. right. left. reflexivity.
Qed.

Lemma degreesToUse_schedule_witness :
  0 < shDegreeInterval sample_config /\ 0 <= 2500 <= Int.max_int /\
  degreesToUse sample_config 2500 = Some 2 /\
  Z.min (2500 / shDegreeInterval sample_config) (shDegree sample_config)
    <= shDegree sample_config /\
  (forall s', 2500 <= s' <= Int.max_int ->
     exists d', degreesToUse sample_config s' = Some d' /\
       Z.min (2500 / shDegreeInterval sample_config) (shDegree sample_config)
         <= d') /\
  exists r vd cs,
    forward (P := constant_pipeline 1) sample_model (sample_camera 4 4) 2500
      = Some r /\
    In (SphericalHarmonicsCall 2 vd cs) (r_calls r) /\
    (forall deg vd' cs',
       In (SphericalHarmonicsCall deg vd' cs') (r_calls r) -> deg = 2).
Proof.
  assert (H1 : 0 < shDegreeInterval sample_config) by (cbn; lia).
  assert (H2 : 0 <= 2500 <= Int.max_int) by (unfold Int.max_int; lia).
  destruct (degreesToUse_schedule sample_config 2500 H1 H2)
    as (E & Hle & Hmono & Honly & Hcall).
  split; [exact H1|]. split; [exact H2|]. split; [exact E|].
  split; [exact Hle|]. split; [exact Hmono|].
  destruct (Hcall (constant_pipeline 1) sample_model (sample_camera 4 4) 1
              eq_refl eq_refl (sample_tileable 1 4 4 ltac:(lia) ltac:(lia)))
    as (r & Hf & Hsh).
  assert (Hrad : sum_radii (radii (r_model r)) <> 0).
  { destruct (forward_model _ _ _ _ _ Hf) as (d & a & _ & (tb & _ & ->) & _ & ->).
    cbn. discriminate. }
  destruct (Hsh Hrad) as (vd & cs & Hin).
  exists r, vd, cs. split; [exact Hf|]. split; [exact Hin|].
  intros deg vd' cs' Hin'.
  exact (Honly (constant_pipeline 1) sample_model (sample_camera 4 4) r
           deg vd' cs' eq_refl Hf Hin').
Defined.

(** C7: for a step [s >= 0] the downscale factor is
    [2 ^ max (numDownscales - s / resolutionSchedule) 0]; a render pass
    at step [s] scales the caller's camera by the reciprocal of that
    factor before it renders: the projection stage, and the rasterizer
    when the pass reaches it, are handed the intrinsics, the height and
    the width of the camera so scaled, and these are the height and
    width the pass records as last rendered. *)
Theorem getDownscaleFactor_schedule (c : Config) (s : Z) :
  0 < resolutionSchedule c -> 0 <= numDownscales c <= 30 ->
  0 <= s <= Int.max_int ->
  getDownscaleFactor c s =
    Some (2 ^ Z.max (numDownscales c - s / resolutionSchedule c) 0) /\
  (forall (P : Pipeline) m cam r,
     config m = c -> forward m cam s = Some r ->
     exists tb,
       hd_error (r_calls r) =
         Some (ProjectCall (project_args m
           (scaleOutputResolution cam
              (1 / IZR (2 ^ Z.max (numDownscales c - s / resolutionSchedule c) 0)))
           tb))) /\
  (forall (P : Pipeline) m cam,
     config m = c -> 0 < shDegreeInterval c -> tileable cam ->
     let cam1 :=
       scaleOutputResolution cam
         (1 / IZR (2 ^ Z.max (numDownscales c - s / resolutionSchedule c) 0)) in
     exists r a,
       forward m cam s = Some r /\
       hd_error (r_calls r) = Some (ProjectCall a) /\
       pa_height a = height cam1 /\ pa_width a = width cam1 /\
       pa_fx a = fx cam1 /\ pa_fy a = fy cam1 /\
       pa_cx a = cx cam1 /\ pa_cy a = cy cam1 /\
       lastHeight (r_model r) = height cam1 /\
       lastWidth (r_model r) = width cam1 /\
       (forall rargs,
          In (RasterizeCall rargs) (r_calls r) ->
          ra_height rargs = height cam1 /\ ra_width rargs = width cam1)).
Proof.
  intros Hr Hn Hs.
  pose proof (getDownscaleFactor_eq c s Hr Hn Hs) as Hd.
  split; [exact Hd|]. split.
  - intros P m cam r Hc Hf. subst c.
    destruct (forward_inv _ _ _ _ Hf) as (d & tb & Hd' & _ & _ & Hcalls).
    rewrite Hd in Hd'. injection Hd' as <-. exists tb. exact Hcalls.
  - intros P m cam Hc Hi Ht. subst c.
    set (D := 2 ^ Z.max (numDownscales (config m)
                         - s / resolutionSchedule (config m)) 0) in *.
    fold (scaled cam D). cbv zeta.
    destruct (forward_defined P m cam s D _ Hd
                (degreesToUse_eq _ _ Hi Hs) Ht)
      as (r & tb & Hf & _).
    destruct (forward_cases _ _ _ _ Hf) as (d & tb' & Hd' & _ & Hcases).
    rewrite Hd in Hd'. injection Hd' as <-. cbv zeta in Hcases.
    exists r. eexists. split; [exact Hf|].
    destruct Hcases as [(_ & _ & _ & ->)|(_ & deg & _ & ->)];
      cbn [r_calls r_model hd_error lastHeight lastWidth set_render_state].
    + split; [reflexivity|].
      cbn [pa_height pa_width pa_fx pa_fy pa_cx pa_cy project_args].
      repeat split.
      all: destruct H as [H|[]]; discriminate H.
    + split; [reflexivity|].
      cbn [pa_height pa_width pa_fx pa_fy pa_cx pa_cy project_args].
      do 8 (split; [reflexivity|]).
      intros rargs [H|[H|[H|[]]]]; try discriminate H.
      injection H as <-. cbn [ra_height ra_width]. split; reflexivity.
Qed.

Lemma getDownscaleFactor_schedule_witness :
  0 < resolutionSchedule sample_config /\
  0 <= numDownscales sample_config <= 30 /\
  0 <= 100 <= Int.max_int /\
  getDownscaleFactor sample_config 100 = Some 2 /\
  exists r a,
    forward (P := constant_pipeline 1) sample_model (sample_camera 8 6) 100
      = Some r /\
    hd_error (r_calls r) = Some (ProjectCall a) /\
    pa_height a = 4 /\ pa_width a = 3 /\
    pa_fx a = fx (scaleOutputResolution (sample_camera 8 6) (1 / IZR 2)) /\
    pa_fy a = fy (scaleOutputResolution (sample_camera 8 6) (1 / IZR 2)) /\
    lastHeight (r_model r) = 4 /\ lastWidth (r_model r) = 3 /\
    (forall rargs,
       In (RasterizeCall rargs) (r_calls r) ->
       ra_height rargs = 4 /\ ra_width rargs = 3) /\
    length (r_calls r) = 3%nat.
Proof.
  assert (H1 : 0 < resolutionSchedule sample_config) by (cbn; lia).
  assert (H2 : 0 <= numDownscales sample_config <= 30) by (cbn; lia).
  assert (H3 : 0 <= 100 <= Int.max_int) by (unfold Int.max_int; lia).
  destruct (getDownscaleFactor_schedule sample_config 100 H1 H2 H3)
    as (E & _ & Hrender).
  split; [exact H1|]. split; [exact H2|]. split; [exact H3|].
  split; [exact E|].
  destruct (Hrender (constant_pipeline 1) sample_model (sample_camera 8 6)
              eq_refl ltac:(cbn; lia)
              (sample_tileable 1 8 6 ltac:(lia) ltac:(lia)))
    as (r & a & Hf & Hhd & Hh & Hw & Hfx & Hfy & _ & _ & Hlh & Hlw & Hras).
  assert (Eh : height (scaleOutputResolution (sample_camera 8 6)
                         (1 / IZR (2 ^ Z.max (numDownscales sample_config
                            - 100 / resolutionSchedule sample_config) 0))) = 4).
  { change (scaleOutputResolution (sample_camera 8 6) _)
      with (scaled (sample_camera 8 6) 2).
    now rewrite scaled_height, sample_height by lia. }
  assert (Ew : width (scaleOutputResolution (sample_camera 8 6)
                        (1 / IZR (2 ^ Z.max (numDownscales sample_config
                           - 100 / resolutionSchedule sample_config) 0))) = 3).
  { change (scaleOutputResolution (sample_camera 8 6) _)
      with (scaled (sample_camera 8 6) 2).
    now rewrite scaled_width, sample_width by lia. }
  rewrite Eh in Hh, Hlh, Hras. rewrite Ew in Hw, Hlw, Hras.
  exists r, a. split; [exact Hf|]. split; [exact Hhd|].
  split; [exact Hh|]. split; [exact Hw|]. split; [exact Hfx|].
  split; [exact Hfy|]. split; [exact Hlh|]. split; [exact Hlw|].
  split; [exact Hras|].
  destruct (sample_forward_visible 8 6 100 2 0 eq_refl eq_refl
              ltac:(lia) ltac:(lia))
    as (r' & rargs & tb & Hf' & _ & Hcalls & _).
  rewrite Hf in Hf'. injection Hf' as <-. now rewrite Hcalls.
Defined.

(** ** The camera around a render pass *)

(** C1: when every projected radius is zero, [forward] returns the
    background colour repeated over the height and width of the caller's
    camera, goes through the projection stage only, and leaves the
    camera, its height and width included, as it found it. *)
Theorem forward_all_culled (P : Pipeline) (m : Model) (cam : Camera)
    (step d : Z) (tb : Z * Z * Z) :
  getDownscaleFactor (config m) step = Some d ->
  tileBounds_of (scaled cam d) = Some tb ->
  0 <= height cam -> 0 <= width cam ->
  Forall (fun x => x = 0)
    (p_radii (ProjectGaussians (project_args m (scaled cam d) tb))) ->
  exists r,
    forward m cam step = Some r /\
    r_image r = broadcast (backgroundColor m) (height cam) (width cam) /\
    r_calls r = [ProjectCall (project_args m (scaled cam d) tb)] /\
    r_cam r = cam /\
    height (r_cam r) = height cam /\ width (r_cam r) = width cam.
Proof.
  intros Hd Htb Hh0 Hw0 Hz.
  pose proof (getDownscaleFactor_pos _ _ _ Hd) as Hpos.
  pose proof (restored_id cam d ltac:(lia)) as Hres.
  eexists. split.
  - apply forward_degenerate with (d := d) (tb := tb);
      [exact Hd | exact Htb | now apply sum_radii_zero | |];
      now rewrite Hres.
  - cbn [r_image r_calls r_cam]. rewrite Hres. auto.
Qed.

Lemma forward_all_culled_witness :
  getDownscaleFactor (config sample_model) 0 = Some 2 /\
  tileBounds_of (P := constant_pipeline 0) (scaled (sample_camera 5 5) 2)
    = Some (1, 1, 1) /\
  0 <= height (sample_camera 5 5) /\ 0 <= width (sample_camera 5 5) /\
  exists r,
    forward (P := constant_pipeline 0) sample_model (sample_camera 5 5) 0
      = Some r /\
    r_image r =
      broadcast (backgroundColor sample_model)
        (height (sample_camera 5 5)) (width (sample_camera 5 5)) /\
    r_calls r =
      [ProjectCall (project_args sample_model
                      (scaled (sample_camera 5 5) 2) (1, 1, 1))] /\
    r_cam r = sample_camera 5 5 /\
    height (r_cam r) = height (sample_camera 5 5) /\
    width (r_cam r) = width (sample_camera 5 5).
Proof.
  assert (Htb : tileBounds_of (P := constant_pipeline 0)
                  (scaled (sample_camera 5 5) 2) = Some (1, 1, 1))
    by (now rewrite sample_tileBounds by lia).
  assert (Hh : 0 <= height (sample_camera 5 5))
    by (rewrite sample_height; lia).
  assert (Hw : 0 <= width (sample_camera 5 5))
    by (rewrite sample_width; lia).
  split; [reflexivity|]. split; [exact Htb|]. split; [exact Hh|].
  split; [exact Hw|].
  apply (forward_all_culled (constant_pipeline 0) sample_model
           (sample_camera 5 5) 0 2 (1, 1, 1));
    [reflexivity | exact Htb | exact Hh | exact Hw | apply sample_culled].
Defined.

(** C2: on either exit of [forward] the camera has been scaled by the
    reciprocal of the downscale factor, so that the projection stage saw
    its intrinsics and its size divided by the factor, and then by the
    factor itself: after the call the camera, with its intrinsics, its
    height and its width, is the camera of before the call. *)
Theorem forward_camera_round_trip (P : Pipeline) (m : Model) (cam : Camera)
    (step : Z) (r : Rendered) :
  forward m cam step = Some r ->
  exists d a,
    getDownscaleFactor (config m) step = Some d /\
    hd_error (r_calls r) = Some (ProjectCall a) /\
    pa_height a = height cam ÷ d /\ pa_width a = width cam ÷ d /\
    pa_fx a = (fx cam * (1 / IZR d))%R /\
    pa_fy a = (fy cam * (1 / IZR d))%R /\
    pa_cx a = (cx cam * (1 / IZR d))%R /\
    pa_cy a = (cy cam * (1 / IZR d))%R /\
    r_cam r =
      scaleOutputResolution (scaleOutputResolution cam (1 / IZR d))
        (1 / (1 / IZR d)) /\
    r_cam r = cam /\
    fx (r_cam r) = fx cam /\ fy (r_cam r) = fy cam /\
    cx (r_cam r) = cx cam /\ cy (r_cam r) = cy cam /\
    height (r_cam r) = height cam /\ width (r_cam r) = width cam.
Proof.
  intros Hf.
  destruct (forward_inv _ _ _ _ Hf) as (d & tb & Hd & _ & Hcam & Hcalls).
  pose proof (getDownscaleFactor_pos _ _ _ Hd) as Hpos.
  pose proof (restored_id cam d ltac:(lia)) as Hres.
  destruct (scaled_intrinsics cam d) as (Hfx & Hfy & Hcx & Hcy).
  exists d. eexists. split; [exact Hd|]. split; [exact Hcalls|].
  cbn [pa_height pa_width pa_fx pa_fy pa_cx pa_cy project_args].
  rewrite scaled_height, scaled_width by assumption.
  rewrite Hcam, Hres. repeat split; try assumption.
  symmetry. exact Hres.
Qed.

Lemma forward_camera_round_trip_witness :
  exists r0 r1,
    forward (P := constant_pipeline 0) sample_model (sample_camera 5 5) 0
      = Some r0 /\
    forward (P := constant_pipeline 1) sample_model (sample_camera 5 5) 0
      = Some r1 /\
    length (r_calls r0) = 1%nat /\ length (r_calls r1) = 3%nat /\
    (exists a,
       hd_error (r_calls r0) = Some (ProjectCall a) /\
       pa_height a = 2 /\ pa_width a = 2) /\
    (exists a,
       hd_error (r_calls r1) = Some (ProjectCall a) /\
       pa_height a = 2 /\ pa_width a = 2) /\
    r_cam r0 = sample_camera 5 5 /\ r_cam r1 = sample_camera 5 5 /\
    height (r_cam r0) = 5 /\ width (r_cam r0) = 5 /\
    height (r_cam r1) = 5 /\ width (r_cam r1) = 5.
Proof.
  assert (Ht : forall rad, tileable (P := constant_pipeline rad)
                             (sample_camera 5 5))
    by (intros rad; apply sample_tileable; lia).
  destruct (forward_defined (constant_pipeline 0) sample_model
              (sample_camera 5 5) 0 2 0 eq_refl eq_refl (Ht 0))
    as (r0 & tb0 & H0 & _ & _ & _ & L0 & _).
  destruct (forward_defined (constant_pipeline 1) sample_model
              (sample_camera 5 5) 0 2 0 eq_refl eq_refl (Ht 1))
    as (r1 & tb1 & H1 & _ & _ & R1 & _ & L1).
  destruct (forward_camera_round_trip (constant_pipeline 0) sample_model
              (sample_camera 5 5) 0 r0 H0)
    as (d0 & a0 & D0 & C0 & Hh0 & Hw0 & _ & _ & _ & _ & _ & E0 & _).
  destruct (forward_camera_round_trip (constant_pipeline 1) sample_model
              (sample_camera 5 5) 0 r1 H1)
    as (d1 & a1 & D1 & C1 & Hh1 & Hw1 & _ & _ & _ & _ & _ & E1 & _).
  injection D0 as <-. injection D1 as <-.
  rewrite sample_height in Hh0, Hh1. rewrite sample_width in Hw0, Hw1.
  exists r0, r1.
  split; [exact H0|]. split; [exact H1|].
  split.
  { apply L0. destruct (forward_model _ _ _ _ _ H0)
      as (d & a & _ & (tb & _ & ->) & _ & ->). reflexivity. }
  split.
  { rewrite L1; [reflexivity|]. rewrite R1. cbn. discriminate. }
  split; [exists a0; auto|]. split; [exists a1; auto|].
  rewrite E0, E1, sample_height, sample_width. repeat split.
Defined.

(** C9: on the degenerate exit the camera is scaled back before the
    shape of the background image is read: the image has the height and
    the width of the caller's camera, to which the camera has been
    restored, while the projection stage saw them divided by the
    downscale factor, which makes them smaller whenever the factor is
    above 1. *)
Theorem forward_background_shape (P : Pipeline) (m : Model) (cam : Camera)
    (step d : Z) (tb : Z * Z * Z) :
  getDownscaleFactor (config m) step = Some d ->
  tileBounds_of (scaled cam d) = Some tb ->
  0 <= height cam -> 0 <= width cam ->
  sum_radii (p_radii (ProjectGaussians (project_args m (scaled cam d) tb))) = 0 ->
  exists r a,
    forward m cam step = Some r /\
    r_calls r = [ProjectCall a] /\
    pa_height a = height cam ÷ d /\ pa_width a = width cam ÷ d /\
    r_cam r = scaleOutputResolution (scaled cam d) (1 / (1 / IZR d)) /\
    r_image r =
      broadcast (backgroundColor m) (height (r_cam r)) (width (r_cam r)) /\
    height (r_cam r) = height cam /\ width (r_cam r) = width cam /\
    length (r_image r) = Z.to_nat (height cam) /\
    Forall (fun row => length row = Z.to_nat (width cam)) (r_image r) /\
    (1 < d -> 0 < height cam -> pa_height a < height cam) /\
    (1 < d -> 0 < width cam -> pa_width a < width cam).
Proof.
  intros Hd Htb Hh0 Hw0 Hsum.
  pose proof (getDownscaleFactor_pos _ _ _ Hd) as Hpos.
  pose proof (restored_id cam d ltac:(lia)) as Hres.
  eexists. eexists.
  split; [apply forward_degenerate with (d := d) (tb := tb);
          try assumption; now rewrite Hres|].
  cbn [r_calls r_cam r_image]. split; [reflexivity|].
  cbn [pa_height pa_width project_args].
  split; [now apply scaled_height|]. split; [now apply scaled_width|].
  split; [reflexivity|]. split; [reflexivity|]. rewrite Hres.
  split; [reflexivity|]. split; [reflexivity|].
  unfold broadcast. split; [apply repeat_length|]. split.
  - apply Forall_forall. intros row Hin. apply repeat_spec in Hin.
    subst row. apply repeat_length.
  - rewrite scaled_height, scaled_width by assumption.
    split; intros; now apply Z.quot_lt.
Qed.

Lemma forward_background_shape_witness :
  getDownscaleFactor (config sample_model) 0 = Some 2 /\
  tileBounds_of (P := constant_pipeline 0) (scaled (sample_camera 5 5) 2)
    = Some (1, 1, 1) /\
  0 <= height (sample_camera 5 5) /\ 0 <= width (sample_camera 5 5) /\
  sum_radii (p_radii (ProjectGaussians (Pipeline := constant_pipeline 0)
    (project_args sample_model
       (scaled (sample_camera 5 5) 2) (1, 1, 1)))) = 0 /\
  exists r a,
    forward (P := constant_pipeline 0) sample_model (sample_camera 5 5) 0
      = Some r /\
    r_calls r = [ProjectCall a] /\
    pa_height a = 2 /\ pa_width a = 2 /\
    r_image r = broadcast (backgroundColor sample_model) 5 5 /\
    length (r_image r) = 5%nat /\
    Forall (fun row => length row = 5%nat) (r_image r).
Proof.
  assert (Htb : tileBounds_of (P := constant_pipeline 0)
                  (scaled (sample_camera 5 5) 2) = Some (1, 1, 1))
    by (now rewrite sample_tileBounds by lia).
  assert (Hh : 0 <= height (sample_camera 5 5))
    by (rewrite sample_height; lia).
  assert (Hw : 0 <= width (sample_camera 5 5))
    by (rewrite sample_width; lia).
  split; [reflexivity|]. split; [exact Htb|]. split; [exact Hh|].
  split; [exact Hw|]. split; [reflexivity|].
  destruct (forward_background_shape (constant_pipeline 0) sample_model
              (sample_camera 5 5) 0 2 (1, 1, 1) eq_refl Htb Hh Hw eq_refl)
    as (r & a & Hf & Hcalls & Hph & Hpw & _ & Himg & Hrh & Hrw & Hlen & Hrows
        & _).
  rewrite sample_height in Hph, Hlen. rewrite sample_width in Hpw, Hrows.
  rewrite Hrh, Hrw, sample_height, sample_width in Himg.
  exists r, a. repeat split; assumption.
Defined.

(** ** Masked reads and writes *)

Lemma select_length {A : Type} (t : list A) (m : list bool) :
  length t = length m -> length (select t m) = count_true m.
Proof.
  revert m. induction t as [|x t IH]; intros [|b m] Hlen;
    try discriminate; [reflexivity|].
  injection Hlen as Hlen. unfold count_true in *. cbn.
  destruct b; cbn; now rewrite IH.
Qed.

Lemma map2_length_same {A B C : Type} (f : A -> B -> C) a b :
  length a = length b -> length (map2 f a b) = length a.
Proof.
  revert b. induction a as [|x a IH]; intros [|y b] H;
    try discriminate; [reflexivity|].
  cbn. injection H as H. now rewrite IH.
Qed.

Lemma scatter_length {A : Type} (t : list A) m v :
  length (scatter t m v) = length t.
Proof.
  revert m v. induction t as [|x t IH]; intros [|b m] v;
    try reflexivity.
  cbn. destruct b; [destruct v|]; cbn; now rewrite IH.
Qed.

(** Writing back, under a mask, a combination of what was read under
    the same mask updates the selected entries in place. *)
Lemma scatter_select_nth {A B : Type} (f : A -> B -> A)
    (t : list A) (u : list B) (m : list bool) (i : nat) (d : A) (e : B) :
  length t = length m -> length u = length m ->
  nth i (scatter t m (map2 f (select t m) (select u m))) d =
    if nth i m false then f (nth i t d) (nth i u e) else nth i t d.
Proof.
  revert u m i. induction t as [|x t IH]; intros [|y u] [|b m] i Ht Hu;
    try discriminate.
  - destruct i; reflexivity.
  - injection Ht as Ht. injection Hu as Hu.
    destruct b; destruct i; cbn; try reflexivity; now apply IH.
Qed.

Lemma index_Some {A : Type} (t : list A) m :
  length t = length m -> index t m = Some (select t m).
Proof.
  intros H. unfold index. now rewrite H, Nat.eqb_refl.
Qed.

Lemma index_put_select {A B : Type} (f : A -> B -> A) (t : list A)
    (u : list B) m :
  length t = length m -> length u = length m ->
  index_put_ t m (map2 f (select t m) (select u m)) =
    Some (scatter t m (map2 f (select t m) (select u m))).
Proof.
  intros Ht Hu. unfold index_put_.
  rewrite Ht, Nat.eqb_refl.
  rewrite map2_length_same by (now rewrite !select_length).
  now rewrite select_length, Nat.eqb_refl.
Qed.

Lemma map_as_map2 {A : Type} (g : A -> A) (l : list A) :
  map g l = map2 (fun x _ => g x) l l.
Proof. induction l as [|x l IH]; cbn; [reflexivity | now rewrite IH]. Qed.

Lemma map2_swap {A B C : Type} (f : A -> B -> C) a b :
  map2 f a b = map2 (fun y x => f x y) b a.
Proof.
  revert b. induction a as [|x a IH]; intros [|y b]; cbn;
    try reflexivity. now rewrite IH.
Qed.

Lemma map2_map_r {A B C D : Type} (f : A -> C -> D) (g : B -> C) a b :
  map2 f a (map g b) = map2 (fun x y => f x (g y)) a b.
Proof.
  revert b. induction a as [|x a IH]; intros [|y b]; cbn;
    try reflexivity. now rewrite IH.
Qed.

Lemma visibleMask_nth m i :
  nth i (visibleMask m) false = (0 <? nth i (radii m) 0).
Proof.
  unfold visibleMask.
  change false with ((fun r => 0 <? r) 0). apply map_nth.
Qed.

Lemma visibleMask_length m : length (visibleMask m) = length (radii m).
Proof. unfold visibleMask. apply length_map. Qed.

Lemma numel_zero {A : Type} (t : list A) : (numel t =? 0) = true <-> t = [].
Proof.
  unfold numel. destruct t; cbn; split; intros H; try reflexivity;
    discriminate.
Qed.

(** ** One statistics pass, entry by entry *)

Lemma update_gradients_first m grads :
  xysGradNorm m = [] ->
  update_gradients m grads = Some (grads, ones_like grads).
Proof.
  intros H. unfold update_gradients. now rewrite H.
Qed.

Lemma update_gradients_next m grads :
  xysGradNorm m <> [] ->
  length (xysGradNorm m) = length (radii m) ->
  length (visCounts m) = length (radii m) ->
  length grads = length (radii m) ->
  exists norm counts,
    update_gradients m grads = Some (norm, counts) /\
    length norm = length (radii m) /\ length counts = length (radii m) /\
    forall i,
      nth i norm 0%R =
        (if 0 <? nth i (radii m) 0
         then (nth i grads 0 + nth i (xysGradNorm m) 0)%R
         else nth i (xysGradNorm m) 0%R) /\
      nth i counts 0%R =
        (if 0 <? nth i (radii m) 0
         then (nth i (visCounts m) 0 + 1)%R
         else nth i (visCounts m) 0%R).
Proof.
  intros Hne Hn Hc Hg. unfold update_gradients.
  destruct (numel (xysGradNorm m) =? 0) eqn:E;
    [apply numel_zero in E; contradiction|].
  pose proof (visibleMask_length m) as Hm.
  rewrite !index_Some by congruence. cbn [obind].
  rewrite map_as_map2.
  rewrite index_put_select by congruence. cbn [obind].
  rewrite (map2_swap Rplus).
  rewrite index_put_select by congruence. cbn [obind].
  eexists. eexists. split; [reflexivity|].
  rewrite !scatter_length. repeat split; try assumption.
  - rewrite (scatter_select_nth _ _ _ _ _ _ 0%R) by congruence.
    now rewrite visibleMask_nth.
  - rewrite (scatter_select_nth _ _ _ _ _ _ 0%R) by congruence.
    now rewrite visibleMask_nth.
Qed.

(** The order on sizes and [size_max]. *)
Lemma size_le_refl (a : Size) : size_le a a.
Proof. destruct a; cbn; [lra | exact I]. Qed.

Lemma size_le_trans (a b c : Size) : size_le a b -> size_le b c -> size_le a c.
Proof. destruct a, b, c; cbn; try tauto. lra. Qed.

Lemma size_max_l (a b : Size) : size_le a (size_max a b).
Proof. destruct a, b; cbn; try exact I. apply Rmax_l. Qed.

Lemma size_max_lub (a b c : Size) :
  size_le a c -> size_le b c -> size_le (size_max a b) c.
Proof. destruct a, b, c; cbn; try tauto. apply Rmax_lub. Qed.

Lemma div_le_one (a b : R) : (0 < a <= b)%R -> (a / b <= 1)%R.
Proof.
  intros [Ha Hb]. unfold Rdiv.
  assert (Hi : (0 < / b)%R) by (apply Rinv_0_lt_compat; lra).
  assert (E : (b * / b = 1)%R) by (field; lra).
  nra.
Qed.

(** A visible radius that fits the larger side of the image has a
    normalized size of at most 1, the side being positive then. *)
Lemma normalized_le_one (r side : Z) :
  0 < r <= side -> size_le (normalized r side) (Finite 1).
Proof.
  intros [Hr Hs]. unfold normalized.
  destruct (Z.eqb_spec side 0) as [E|_]; [lia|]. cbn.
  apply IZR_lt in Hr. apply IZR_le in Hs. apply div_le_one. lra.
Qed.

Lemma zeros_like_nth {A : Type} (t : list A) i :
  nth i (zeros_like t) (Finite 0) = Finite 0.
Proof.
  unfold zeros_like. revert i.
  induction t as [|x t IH]; intros [|i]; cbn; auto.
Qed.

Lemma update_max2DSize_nth m :
  max2DSize m = [] \/ length (max2DSize m) = length (radii m) ->
  exists size,
    update_max2DSize m = Some size /\
    length size = length (radii m) /\
    forall i,
      nth i size (Finite 0) =
        if 0 <? nth i (radii m) 0
        then size_max (nth i (max2DSize m) (Finite 0))
                      (normalized (nth i (radii m) 0)
                         (Z.max (lastHeight m) (lastWidth m)))
        else nth i (max2DSize m) (Finite 0).
Proof.
  intros Hshape. unfold update_max2DSize.
  pose proof (visibleMask_length m) as Hm.
  set (size0 := if numel (max2DSize m) =? 0 then zeros_like (radii m)
                else max2DSize m).
  assert (Hlen : length size0 = length (radii m)).
  { subst size0. destruct (numel (max2DSize m) =? 0) eqn:E.
    - unfold zeros_like. apply length_map.
    - destruct Hshape as [H|H]; [|exact H].
      apply numel_zero in H. congruence. }
  assert (Hnth : forall i,
            nth i size0 (Finite 0) = nth i (max2DSize m) (Finite 0)).
  { intros i. subst size0. destruct (numel (max2DSize m) =? 0) eqn:E;
      [|reflexivity].
    apply numel_zero in E. rewrite E, zeros_like_nth. now destruct i. }
  cbv zeta. rewrite !index_Some by congruence. cbn [obind].
  rewrite map2_map_r.
  rewrite index_put_select by congruence.
  eexists. split; [reflexivity|].
  rewrite scatter_length. split; [assumption|].
  intros i.
  rewrite (scatter_select_nth _ _ _ _ _ _ 0) by congruence.
  now rewrite visibleMask_nth, Hnth.
Qed.

Lemma ones_like_nth {A : Type} (t : list A) i :
  (i < length t)%nat -> nth i (ones_like t) 0%R = 1%R.
Proof.
  unfold ones_like. revert i.
  induction t as [|x t IH]; intros [|i] H; cbn in *; try lia; auto.
  apply IH. lia.
Qed.

Lemma pass_first (m : Model) (o : Observation) (n : nat) :
  fresh m -> shaped n o ->
  exists m',
    update_statistics (observe m o) = Some m' /\
    initialised n m' /\
    forall i, (i < n)%nat ->
      nth i (xysGradNorm m') 0%R = magnitude o i /\
      nth i (visCounts m') 0%R = 1%R /\
      nth i (max2DSize m') (Finite 0) =
        if visible o i then size_max (Finite 0) (size_in o i) else Finite 0.
Proof.
  intros (Hg & Hc & Hs) (Hr & Ho). unfold update_statistics.
  cbn [observe xys_grad set_render_state obind].
  rewrite update_gradients_first by exact Hg. cbn [obind fst snd].
  destruct (update_max2DSize_nth (observe m o)) as (size & Hsz & Hlen & Hnth).
  { left. exact Hs. }
  rewrite Hsz. cbn [obind]. eexists. split; [reflexivity|].
  unfold initialised. cbn [xysGradNorm visCounts max2DSize set_statistics].
  cbn [observe radii set_render_state] in Hlen.
  unfold ones_like, vector_norm. rewrite !length_map.
  repeat split; try congruence.
  - fold (ones_like (vector_norm (o_grad o))). apply ones_like_nth.
    unfold vector_norm. rewrite length_map. congruence.
  - rewrite Hnth. cbn [observe radii lastHeight lastWidth max2DSize
                       set_render_state].
    rewrite Hs. unfold visible, size_in. now destruct i.
Qed.

Lemma pass_next (m : Model) (o : Observation) (n : nat) :
  (0 < n)%nat -> initialised n m -> shaped n o ->
  exists m',
    update_statistics (observe m o) = Some m' /\
    initialised n m' /\
    forall i,
      nth i (xysGradNorm m') 0%R =
        (if visible o i then (magnitude o i + nth i (xysGradNorm m) 0)%R
         else nth i (xysGradNorm m) 0%R) /\
      nth i (visCounts m') 0%R =
        (if visible o i then (nth i (visCounts m) 0 + 1)%R
         else nth i (visCounts m) 0%R) /\
      nth i (max2DSize m') (Finite 0) =
        (if visible o i
         then size_max (nth i (max2DSize m) (Finite 0)) (size_in o i)
         else nth i (max2DSize m) (Finite 0)).
Proof.
  intros Hn (Hg & Hc & Hs) (Hr & Ho). unfold update_statistics.
  cbn [observe xys_grad set_render_state obind].
  destruct (update_gradients_next (observe m o) (vector_norm (o_grad o)))
    as (norm & counts & Hup & Hln & Hlc & Hnth);
    cbn [observe xysGradNorm visCounts radii set_render_state];
    try congruence.
  { intros E. rewrite E in Hg. cbn in Hg. lia. }
  { unfold vector_norm. rewrite length_map. congruence. }
  destruct (update_max2DSize_nth (observe m o)) as (size & Hsz & Hlen & Hmax).
  { right. cbn [observe max2DSize radii set_render_state]. congruence. }
  fold (observe m o). rewrite Hup. cbn [obind fst snd].
  rewrite Hsz. cbn [obind]. eexists. split; [reflexivity|].
  unfold initialised. cbn [xysGradNorm visCounts max2DSize set_statistics].
  cbn [observe radii set_render_state] in Hln, Hlc, Hlen.
  repeat split; try congruence.
  - destruct (Hnth i) as [H _]. exact H.
  - destruct (Hnth i) as [_ H]. exact H.
  - apply Hmax.
Qed.

(** Passes after the first: what they add to the statistics of
    primitive [i]. *)
Lemma run_next (n : nat) (os : list Observation) :
  (0 < n)%nat -> Forall (shaped n) os ->
  forall m, initialised n m ->
  exists m',
    run m os = Some m' /\ initialised n m' /\
    forall i,
      nth i (xysGradNorm m') 0%R
        = (nth i (xysGradNorm m) 0 + visible_sum os i)%R /\
      nth i (visCounts m') 0%R
        = (nth i (visCounts m) 0 + visible_count os i)%R /\
      size_le (nth i (max2DSize m) (Finite 0))
              (nth i (max2DSize m') (Finite 0)) /\
      (size_le (nth i (max2DSize m) (Finite 0)) (Finite 1) ->
       Forall (fun o => nth i (o_radii o) 0 <= Z.max (o_height o) (o_width o)) os ->
       size_le (nth i (max2DSize m') (Finite 0)) (Finite 1)).
Proof.
  intros Hn Hos. induction Hos as [|o os Ho _ IH]; intros m Hm.
  - exists m. cbn [run]. split; [reflexivity|]. split; [assumption|].
    intros i. cbn [visible_sum visible_count].
    split; [lra|]. split; [lra|]. split; [apply size_le_refl | auto].
  - destruct (pass_next m o n Hn Hm Ho) as (m1 & Hup & Hm1 & Hnth).
    destruct (IH m1 Hm1) as (m' & Hrun & Hm' & Hrest).
    exists m'. cbn [run]. rewrite Hup. cbn [obind].
    split; [assumption|]. split; [assumption|].
    intros i. destruct (Hnth i) as (Hg & Hc & Hs).
    destruct (Hrest i) as (Hg' & Hc' & Hmono & Hbound).
    rewrite Hg', Hc', Hg, Hc. cbn [visible_sum visible_count].
    assert (Hstep : size_le (nth i (max2DSize m) (Finite 0))
                            (nth i (max2DSize m1) (Finite 0))).
    { rewrite Hs. destruct (visible o i);
        [apply size_max_l | apply size_le_refl]. }
    repeat split.
    + destruct (visible o i); lra.
    + destruct (visible o i); lra.
    + eapply size_le_trans; eassumption.
    + intros H1 Hall. inversion Hall as [|? ? Hle Hall']; subst.
      apply Hbound; [|assumption].
      rewrite Hs. destruct (visible o i) eqn:Hv; [|assumption].
      apply size_max_lub; [assumption|].
      unfold visible in Hv. apply Z.ltb_lt in Hv. unfold size_in.
      apply normalized_le_one. lia.
Qed.

(** A run that starts with uninitialized statistics. *)
Lemma run_fresh (n : nat) (m : Model) (o0 : Observation)
    (os : list Observation) :
  (0 < n)%nat -> fresh m -> Forall (shaped n) (o0 :: os) ->
  exists m',
    run m (o0 :: os) = Some m' /\ initialised n m' /\
    forall i, (i < n)%nat ->
      nth i (xysGradNorm m') 0%R = (magnitude o0 i + visible_sum os i)%R /\
      nth i (visCounts m') 0%R = (1 + visible_count os i)%R /\
      size_le (Finite 0) (nth i (max2DSize m') (Finite 0)) /\
      (Forall (fun o => nth i (o_radii o) 0 <= Z.max (o_height o) (o_width o))
         (o0 :: os) ->
       size_le (nth i (max2DSize m') (Finite 0)) (Finite 1)).
Proof.
  intros Hn Hm Hall. inversion Hall as [|? ? Ho0 Hos]; subst.
  destruct (pass_first m o0 n Hm Ho0) as (m1 & Hup & Hm1 & Hfirst).
  destruct (run_next n os Hn Hos m1 Hm1) as (m' & Hrun & Hm' & Hrest).
  exists m'. cbn [run]. rewrite Hup. cbn [obind].
  split; [assumption|]. split; [assumption|].
  intros i Hi. destruct (Hfirst i Hi) as (Hg & Hc & Hs).
  destruct (Hrest i) as (Hg' & Hc' & Hmono & Hbound).
  rewrite Hg', Hc', Hg, Hc. split; [reflexivity|]. split; [reflexivity|].
  split.
  - eapply size_le_trans; [|exact Hmono].
    rewrite Hs. destruct (visible o0 i);
      [apply size_max_l | apply size_le_refl].
  - intros Hle. inversion Hle as [|? ? Hle0 Hle']; subst.
    apply Hbound; [|assumption].
    rewrite Hs. destruct (visible o0 i) eqn:Hv; [|cbn; lra].
    apply size_max_lub; [cbn; lra|].
    unfold visible in Hv. apply Z.ltb_lt in Hv. unfold size_in.
    apply normalized_le_one. lia.
Qed.

Lemma visible_count_nonneg os i : (0 <= visible_count os i)%R.
Proof.
  induction os as [|o os IH]; cbn; [lra|].
  destruct (visible o i); lra.
Qed.

Lemma never_visible os i :
  Forall (fun o => visible o i = false) os ->
  visible_sum os i = 0%R /\ visible_count os i = 0%R.
Proof.
  induction 1 as [|o os Ho _ IH]; cbn; [auto|]. now rewrite Ho.
Qed.

(** ** [afterTrain] *)

(** C3, as amended: a call of [afterTrain] with [step < stopSplitAt]
    never returns and changes nothing but the statistics.  When the
    statistics update goes through, as it does for the tensors a render
    pass and a backward pass leave, the call prints [max2DSize] and
    exits with status 1; when it does not (the projected coordinates
    have no gradient, or the statistics were set up for another number
    of primitives) the call raises before anything is printed.  A call
    returns, leaving the model as it was, only when
    [step >= stopSplitAt]. *)
Theorem afterTrain_exits (m : Model) (step : Z) :
  step < stopSplitAt (config m) ->
  (forall m', afterTrain m step <> Returned m') /\
  (forall m', update_statistics m = Some m' ->
     afterTrain m step = Exited 1 (max2DSize m') m') /\
  (update_statistics m = None -> afterTrain m step = Raised) /\
  (xys_grad m = None -> afterTrain m step = Raised) /\
  (forall m0 o n,
     m = observe m0 o -> shaped n o ->
     fresh m0 \/ ((0 < n)%nat /\ initialised n m0) ->
     exists m',
       update_statistics m = Some m' /\
       afterTrain m step = Exited 1 (max2DSize m') m' /\
       config m' = config m /\ means m' = means m /\
       scales m' = scales m /\ quats m' = quats m /\
       featuresDc m' = featuresDc m /\ featuresRest m' = featuresRest m /\
       opacities m' = opacities m) /\
  (forall step' m',
     afterTrain m step' = Returned m' ->
     stopSplitAt (config m) <= step' /\ m' = m).
Proof.
  intros Hlt. apply Z.ltb_lt in Hlt.
  assert (Hexit : forall m', update_statistics m = Some m' ->
            afterTrain m step = Exited 1 (max2DSize m') m').
  { intros m' H. unfold afterTrain. now rewrite Hlt, H. }
  assert (Hraise : update_statistics m = None -> afterTrain m step = Raised).
  { intros H. unfold afterTrain. now rewrite Hlt, H. }
  assert (Hkeep : forall m', update_statistics m = Some m' ->
            config m' = config m /\ means m' = means m /\
            scales m' = scales m /\ quats m' = quats m /\
            featuresDc m' = featuresDc m /\ featuresRest m' = featuresRest m /\
            opacities m' = opacities m).
  { intros m'. unfold update_statistics.
    destruct (xys_grad m) as [g|]; [cbn [obind] | discriminate].
    destruct (update_gradients m (vector_norm g)) as [nc|];
      [cbn [obind] | discriminate].
    destruct (update_max2DSize m) as [size|]; [cbn [obind] | discriminate].
    intros [= <-]. repeat split. }
  split; [|split; [exact Hexit|split; [exact Hraise|split; [|split]]]].
  - intros m'. unfold afterTrain. rewrite Hlt.
    destruct (update_statistics m); discriminate.
  - intros Hg. apply Hraise. unfold update_statistics. now rewrite Hg.
  - intros m0 o n -> Ho [Hf|[Hn Hi]].
    + destruct (pass_first m0 o n Hf Ho) as (m' & Hup & _).
      exists m'. split; [exact Hup|]. split; [now apply Hexit|].
      now apply Hkeep.
    + destruct (pass_next m0 o n Hn Hi Ho) as (m' & Hup & _).
      exists m'. split; [exact Hup|]. split; [now apply Hexit|].
      now apply Hkeep.
  - intros step' m'. unfold afterTrain.
    destruct (Z.ltb_spec step' (stopSplitAt (config m))) as [Hs|Hs].
    + destruct (update_statistics m); discriminate.
    + destruct (Int.rem step' (refineEvery (config m))) as [r|];
        [|discriminate].
      destruct ((r =? 0) && (warmupLength (config m) <? step'))%bool.
      * destruct (doDensification (config m) step'); [|discriminate].
        intros [= <-]. auto.
      * intros [= <-]. auto.
Qed.

Lemma afterTrain_exits_witness :
  0 < stopSplitAt (config (observe sample_model visible_step)) /\
  (forall m', afterTrain (observe sample_model visible_step) 0 <> Returned m') /\
  (exists m',
     update_statistics (observe sample_model visible_step) = Some m' /\
     afterTrain (observe sample_model visible_step) 0
       = Exited 1 (max2DSize m') m').
Proof.
  assert (H : 0 < stopSplitAt (config (observe sample_model visible_step)))
    by (cbn; lia).
  destruct (afterTrain_exits (observe sample_model visible_step) 0 H)
    as (H1 & _ & _ & _ & H3 & _).
  split; [exact H|]. split; [exact H1|].
  destruct (H3 sample_model visible_step 1%nat eq_refl)
    as (m' & Hup & Hex & _).
  - split; reflexivity.
  - left. repeat split.
  - exists m'. split; [exact Hup | exact Hex].
Defined.

(** C3 fails as stated: below [stopSplitAt], on a model whose projected
    coordinates carry no gradient (no backward pass has run), the call
    raises; it neither prints nor exits. *)
Lemma afterTrain_raises_before_exit :
  0 < stopSplitAt (config sample_model) /\
  xys_grad sample_model = None /\
  afterTrain sample_model 0 = Raised /\
  (forall code printed m',
     afterTrain sample_model 0 <> Exited code printed m').
Proof.
  assert (E : afterTrain sample_model 0 = Raised) by reflexivity.
  split; [cbn; lia|]. split; [reflexivity|]. split; [exact E|].
  intros code printed m'. rewrite E. discriminate.
Qed.

(** ** Running gradient mean *)

(** C4, as amended: starting from uninitialized statistics, after the
    initializing pass [o0] and any later passes [os] the accumulator of
    primitive [i] holds the magnitude of [o0] plus the magnitudes of the
    later passes in which [i] was visible, and its count is one plus the
    number of those passes.  Their quotient is the mean over the passes
    in which [i] was visible whenever [i] was visible in [o0]; a
    primitive never visible after [o0] keeps the count 1 and the
    accumulator of the initialization. *)
Theorem gradient_running_mean (n : nat) (m : Model) (o0 : Observation)
    (os : list Observation) (i : nat) :
  (i < n)%nat -> fresh m -> Forall (shaped n) (o0 :: os) ->
  exists m',
    run m (o0 :: os) = Some m' /\
    nth i (xysGradNorm m') 0%R = (magnitude o0 i + visible_sum os i)%R /\
    nth i (visCounts m') 0%R = (1 + visible_count os i)%R /\
    (visible o0 i = true ->
     (nth i (xysGradNorm m') 0 / nth i (visCounts m') 0)%R =
     (visible_sum (o0 :: os) i / visible_count (o0 :: os) i)%R) /\
    (Forall (fun o => visible o i = false) os ->
     nth i (visCounts m') 0%R = 1%R /\
     nth i (xysGradNorm m') 0%R = magnitude o0 i).
Proof.
  intros Hi Hm Hall.
  destruct (run_fresh n m o0 os ltac:(lia) Hm Hall) as (m' & Hrun & _ & Hnth).
  destruct (Hnth i Hi) as (Hg & Hc & _).
  exists m'. split; [assumption|]. rewrite Hg, Hc.
  split; [reflexivity|]. split; [reflexivity|]. split.
  - intros Hv. cbn [visible_sum visible_count]. now rewrite Hv.
  - intros Hnever. destruct (never_visible os i Hnever) as [-> ->].
    split; lra.
Qed.

Lemma sample_magnitude_culled : magnitude culled_step 0 = 0%R.
Proof.
  unfold magnitude, culled_step, vector_norm, row_norm. cbn.
  replace (0 * 0 + (0 * 0 + 0))%R with 0%R by ring. apply sqrt_0.
Qed.

Lemma sample_magnitude_visible : magnitude visible_step 0 = 4%R.
Proof.
  unfold magnitude, visible_step, vector_norm, row_norm. cbn.
  replace (4 * 4 + (0 * 0 + 0))%R with (4 * 4)%R by ring.
  apply sqrt_square. lra.
Qed.

Lemma gradient_running_mean_witness :
  (0 < 1)%nat /\ fresh sample_model /\
  Forall (shaped 1) [visible_step; culled_step; visible_step] /\
  exists m',
    run sample_model [visible_step; culled_step; visible_step] = Some m' /\
    nth 0 (xysGradNorm m') 0%R
      = (magnitude visible_step 0
         + visible_sum [culled_step; visible_step] 0)%R /\
    nth 0 (visCounts m') 0%R
      = (1 + visible_count [culled_step; visible_step] 0)%R /\
    (visible visible_step 0 = true ->
     (nth 0 (xysGradNorm m') 0 / nth 0 (visCounts m') 0)%R =
     (visible_sum [visible_step; culled_step; visible_step] 0
      / visible_count [visible_step; culled_step; visible_step] 0)%R) /\
    (Forall (fun o => visible o 0 = false) [culled_step; visible_step] ->
     nth 0 (visCounts m') 0%R = 1%R /\
     nth 0 (xysGradNorm m') 0%R = magnitude visible_step 0).
Proof.
  assert (Hf : fresh sample_model) by (repeat split).
  assert (Hs : Forall (shaped 1) [visible_step; culled_step; visible_step])
    by (repeat constructor).
  split; [lia|]. split; [exact Hf|]. split; [exact Hs|].
  apply (gradient_running_mean 1 sample_model visible_step
           [culled_step; visible_step] 0); [lia | exact Hf | exact Hs].
Defined.

(** C4 fails as stated: a primitive culled in the initializing pass and
    visible, with gradient magnitude 4, in the next one ends with the
    accumulator 4 and the count 2, hence the quotient 2, while the mean
    over the passes in which it was visible is 4. *)
Lemma gradient_running_mean_late_visibility :
  exists m',
    run sample_model [culled_step; visible_step] = Some m' /\
    (nth 0 (xysGradNorm m') 0 / nth 0 (visCounts m') 0)%R = 2%R /\
    (visible_sum [culled_step; visible_step] 0
     / visible_count [culled_step; visible_step] 0)%R = 4%R /\
    (nth 0 (xysGradNorm m') 0 / nth 0 (visCounts m') 0)%R <>
    (visible_sum [culled_step; visible_step] 0
     / visible_count [culled_step; visible_step] 0)%R.
Proof.
  destruct (run_fresh 1 sample_model culled_step [visible_step])
    as (m' & Hrun & _ & Hnth);
    [lia | repeat split | repeat constructor |].
  destruct (Hnth 0%nat ltac:(lia)) as (Hg & Hc & _).
  exists m'. split; [assumption|].
  rewrite Hg, Hc. cbn [visible_sum visible_count].
  change (visible culled_step 0) with false.
  change (visible visible_step 0) with true. cbv iota.
  rewrite sample_magnitude_culled, sample_magnitude_visible.
  repeat split; try lra.
Qed.

(** ** Largest projected size *)

(** C8: along a run of statistics passes the entry of [max2DSize] for
    primitive [i] never decreases from one pass to the next, and it is
    at most 1 when every radius observed for [i] is at most the larger
    side of the image rendered in that pass. *)
Theorem max2DSize_monotone_bounded (n : nat) (m : Model)
    (o0 : Observation) (os : list Observation) (i : nat) :
  (i < n)%nat -> fresh m -> Forall (shaped n) (o0 :: os) ->
  exists m',
    run m (o0 :: os) = Some m' /\
    size_le (Finite 0) (nth i (max2DSize m') (Finite 0)) /\
    (Forall (fun o => nth i (o_radii o) 0 <= Z.max (o_height o) (o_width o))
       (o0 :: os) ->
     size_le (nth i (max2DSize m') (Finite 0)) (Finite 1)) /\
    (forall o, shaped n o ->
       exists m'',
         update_statistics (observe m' o) = Some m'' /\
         run m ((o0 :: os) ++ [o]) = Some m'' /\
         nth i (max2DSize m'') (Finite 0) =
           (if visible o i
            then size_max (nth i (max2DSize m') (Finite 0)) (size_in o i)
            else nth i (max2DSize m') (Finite 0)) /\
         size_le (nth i (max2DSize m') (Finite 0))
                 (nth i (max2DSize m'') (Finite 0))).
Proof.
  intros Hi Hm Hall.
  destruct (run_fresh n m o0 os ltac:(lia) Hm Hall)
    as (m' & Hrun & Hinit & Hnth).
  destruct (Hnth i Hi) as (_ & _ & Hzero & Hbound).
  exists m'. split; [assumption|]. split; [assumption|].
  split; [assumption|].
  - intros o Ho.
    destruct (pass_next m' o n ltac:(lia) Hinit Ho) as (m'' & Hup & _ & Hstep).
    exists m''. split; [assumption|].
    destruct (Hstep i) as (_ & _ & Hs).
    assert (Happ : forall l a, run a l = Some m' ->
              run a (l ++ [o]) = Some m'').
    { induction l as [|x l IH]; intros a Ha; cbn [run app] in *.
      - injection Ha as ->. now rewrite Hup.
      - destruct (update_statistics (observe a x)); [|discriminate].
        cbn [obind] in *. now apply IH. }
    split; [now apply Happ|]. split; [assumption|].
    rewrite Hs. destruct (visible o i);
      [apply size_max_l | apply size_le_refl].
Qed.

Lemma max2DSize_monotone_bounded_witness :
  (0 < 1)%nat /\ fresh sample_model /\
  Forall (shaped 1) [culled_step; visible_step] /\
  exists m',
    run sample_model [culled_step; visible_step] = Some m' /\
    size_le (Finite 0) (nth 0 (max2DSize m') (Finite 0)) /\
    (Forall (fun o => nth 0 (o_radii o) 0 <= Z.max (o_height o) (o_width o))
       [culled_step; visible_step] ->
     size_le (nth 0 (max2DSize m') (Finite 0)) (Finite 1)) /\
    (forall o, shaped 1 o ->
       exists m'',
         update_statistics (observe m' o) = Some m'' /\
         run sample_model ([culled_step; visible_step] ++ [o]) = Some m'' /\
         nth 0 (max2DSize m'') (Finite 0) =
           (if visible o 0
            then size_max (nth 0 (max2DSize m') (Finite 0)) (size_in o 0)
            else nth 0 (max2DSize m') (Finite 0)) /\
         size_le (nth 0 (max2DSize m') (Finite 0))
                 (nth 0 (max2DSize m'') (Finite 0))).
Proof.
  assert (Hf : fresh sample_model) by (repeat split).
  assert (Hs : Forall (shaped 1) [culled_step; visible_step])
    by (repeat constructor).
  split; [lia|]. split; [exact Hf|]. split; [exact Hs|].
  apply (max2DSize_monotone_bounded 1 sample_model culled_step
           [visible_step] 0); [lia | exact Hf | exact Hs].
Defined.

(** ** View directions *)

Section ViewDirections.
Local Open Scope R_scope.

Lemma row_norm_unit (dx dy dz : R) :
  (dx, dy, dz) <> (0, 0, 0) ->
  let nrm := row_norm [dx; dy; dz] in
  0 < nrm /\ row_norm [dx / nrm; dy / nrm; dz / nrm] = 1.
Proof.
  intros Hne nrm.
  assert (Hsq : 0 < dx * dx + (dy * dy + (dz * dz + 0))).
  { destruct (Req_dec dx 0) as [Ex|Ex];
      [destruct (Req_dec dy 0) as [Ey|Ey];
        [destruct (Req_dec dz 0) as [Ez|Ez]|]|].
    - subst. contradiction.
    - nra.
    - nra.
    - nra. }
  assert (Hpos : 0 < nrm) by (apply sqrt_lt_R0; exact Hsq).
  split; [exact Hpos|].
  assert (Hn2 : nrm * nrm = dx * dx + (dy * dy + (dz * dz + 0)))
    by (apply sqrt_sqrt; lra).
  unfold row_norm at 1. cbn [fold_right].
  replace (dx / nrm * (dx / nrm) + (dy / nrm * (dy / nrm)
           + (dz / nrm * (dz / nrm) + 0)))
    with ((dx * dx + (dy * dy + (dz * dz + 0))) / (nrm * nrm))
    by (field; lra).
  rewrite <- Hn2. replace (nrm * nrm / (nrm * nrm)) with 1 by (field; lra).
  apply sqrt_1.
Qed.

(** Row [i] of the view directions: the mean minus the translation
    column of the pose, divided by its length. *)
Lemma viewDirs_of_row (m : Model) (cam : Camera) (i : nat)
    (x y z tx ty tz : R) (r0 r1 r2 : list R) (rest : list (list R)) :
  camToWorld cam = (r0 ++ [tx]) :: (r1 ++ [ty]) :: (r2 ++ [tz]) :: rest ->
  length r0 = 3%nat -> length r1 = 3%nat -> length r2 = 3%nat ->
  nth_error (means m) i = Some [x; y; z] ->
  let nrm := row_norm [x - tx; y - ty; z - tz] in
  nth_error (viewDirs_of m cam) i =
    Some [(x - tx) / nrm; (y - ty) / nrm; (z - tz) / nrm].
Proof.
  intros Hcam H0 H1 H2 Hmean nrm.
  destruct r0 as [|a0 [|a1 [|a2 [|? ?]]]]; try discriminate.
  destruct r1 as [|b0 [|b1 [|b2 [|? ?]]]]; try discriminate.
  destruct r2 as [|c0 [|c1 [|c2 [|? ?]]]]; try discriminate.
  unfold viewDirs_of, translation_of. rewrite Hcam.
  cbn [app firstn skipn map transpose map2].
  unfold sub_broadcast, normalize_rows.
  rewrite !nth_error_map, Hmean. reflexivity.
Qed.

End ViewDirections.

(** C5, as amended: the view direction [forward] hands to the
    spherical-harmonics stage for a primitive is its mean minus the
    camera position, divided by the length of that difference: the unit
    vector from the camera position to the mean. *)
Theorem forward_viewDirs (P : Pipeline) (m : Model) (cam : Camera)
    (step : Z) (r : Rendered) (deg : Z) (vd : matrix) (cs : list matrix)
    (i : nat) (x y z tx ty tz : R) (r0 r1 r2 : list R)
    (rest : list (list R)) :
  camToWorld cam = (r0 ++ [tx]) :: (r1 ++ [ty]) :: (r2 ++ [tz]) :: rest ->
  length r0 = 3%nat -> length r1 = 3%nat -> length r2 = 3%nat ->
  nth_error (means m) i = Some [x; y; z] ->
  (x - tx, y - ty, z - tz)%R <> (0, 0, 0)%R ->
  forward m cam step = Some r ->
  In (SphericalHarmonicsCall deg vd cs) (r_calls r) ->
  let nrm := row_norm [x - tx; y - ty; z - tz]%R in
  vd = viewDirs_of m cam /\
  (0 < nrm)%R /\
  nth_error vd i =
    Some [(x - tx) / nrm; (y - ty) / nrm; (z - tz) / nrm]%R /\
  row_norm [(x - tx) / nrm; (y - ty) / nrm; (z - tz) / nrm]%R = 1%R.
Proof.
  intros Hcam H0 H1 H2 Hmean Hne Hf Hin nrm.
  assert (Hvd : vd = viewDirs_of m cam).
  { destruct (forward_sh_call _ _ _ _ _ _ _ Hf Hin) as (d & _ & _ & ->).
    reflexivity. }
  destruct (row_norm_unit _ _ _ Hne) as [Hpos Hunit].
  split; [exact Hvd|]. split; [exact Hpos|]. split; [|exact Hunit].
  rewrite Hvd.
  apply viewDirs_of_row with (r0 := r0) (r1 := r1) (r2 := r2) (rest := rest);
    assumption.
Qed.

Lemma sample_row_norm : row_norm [0 - 0; 0 - 0; 1 - 0]%R = 1%R.
Proof.
  unfold row_norm. cbn [fold_right].
  replace ((0 - 0) * (0 - 0) + ((0 - 0) * (0 - 0) + ((1 - 0) * (1 - 0) + 0)))%R
    with 1%R by ring.
  apply sqrt_1.
Qed.

Lemma sample_row_norm_opposite : row_norm [0 - 0; 0 - 0; 0 - 1]%R = 1%R.
Proof.
  unfold row_norm. cbn [fold_right].
  replace ((0 - 0) * (0 - 0) + ((0 - 0) * (0 - 0) + ((0 - 1) * (0 - 1) + 0)))%R
    with 1%R by ring.
  apply sqrt_1.
Qed.

Lemma sample_viewDirs (h w d : Z) :
  viewDirs_of sample_model (scaled (sample_camera h w) d) = [[0; 0; 1]]%R.
Proof.
  unfold viewDirs_of, translation_of, sub_broadcast, normalize_rows.
  cbn [scaled scaleOutputResolution camToWorld sample_camera identity_pose
       sample_model means firstn skipn map transpose map2].
  rewrite sample_row_norm. repeat f_equal; field.
Qed.

Lemma sample_viewDirs_claimed (h w : Z) :
  viewDirs_claimed sample_model (sample_camera h w) = [[0; 0; -1]]%R.
Proof.
  unfold viewDirs_claimed, cameraPosition, translation_of, normalize_rows.
  cbn [camToWorld sample_camera identity_pose sample_model means
       firstn skipn map concat app map2].
  rewrite sample_row_norm_opposite. repeat f_equal; field.
Qed.

Lemma forward_viewDirs_witness :
  exists r vd cs,
    camToWorld (sample_camera 4 4)
      = (([1; 0; 0] ++ [0]) :: ([0; 1; 0] ++ [0]) :: ([0; 0; 1] ++ [0])
          :: [[0; 0; 0; 1]])%R /\
    nth_error (means sample_model) 0 = Some [0; 0; 1]%R /\
    (0 - 0, 0 - 0, 1 - 0)%R <> (0, 0, 0)%R /\
    forward (P := constant_pipeline 1) sample_model (sample_camera 4 4) 0
      = Some r /\
    In (SphericalHarmonicsCall 0 vd cs) (r_calls r) /\
    vd = viewDirs_of sample_model (sample_camera 4 4) /\
    (0 < row_norm [0 - 0; 0 - 0; 1 - 0])%R /\
    nth_error vd 0 =
      Some [(0 - 0) / row_norm [0 - 0; 0 - 0; 1 - 0];
            (0 - 0) / row_norm [0 - 0; 0 - 0; 1 - 0];
            (1 - 0) / row_norm [0 - 0; 0 - 0; 1 - 0]]%R /\
    row_norm [(0 - 0) / row_norm [0 - 0; 0 - 0; 1 - 0];
              (0 - 0) / row_norm [0 - 0; 0 - 0; 1 - 0];
              (1 - 0) / row_norm [0 - 0; 0 - 0; 1 - 0]]%R = 1%R.
Proof.
  destruct (sample_forward_visible 4 4 0 2 0 eq_refl eq_refl
              ltac:(lia) ltac:(lia))
    as (r & rargs & tb & Hf & _ & Hcalls & _).
  exists r. eexists. eexists.
  assert (Hne : (0 - 0, 0 - 0, 1 - 0)%R <> (0, 0, 0)%R).
  { intros H. injection H as _ _ H. lra. }
  assert (Hin : In (SphericalHarmonicsCall 0
                      (viewDirs_of sample_model (scaled (sample_camera 4 4) 2))
                      (map2 cons (featuresDc sample_model)
                         (featuresRest sample_model)))
                   (r_calls r)).
  { rewrite Hcalls. right. left. reflexivity. }
  split; [reflexivity|]. split; [reflexivity|]. split; [exact Hne|].
  split; [exact Hf|]. split; [exact Hin|].
  exact (forward_viewDirs (constant_pipeline 1) sample_model
           (sample_camera 4 4) 0 r 0 _ _ 0%nat 0%R 0%R 1%R 0%R 0%R 0%R
           [1; 0; 0]%R [0; 1; 0]%R [0; 0; 1]%R [[0; 0; 0; 1]]%R
           eq_refl eq_refl eq_refl eq_refl eq_refl Hne Hf Hin).
Defined.

(** C5 fails as stated: with the camera at the origin and the mean at
    (0, 0, 1) the stage receives (0, 0, 1), the direction from the
    camera to the mean, whereas the camera position minus the mean,
    normalized, is (0, 0, -1). *)
Lemma forward_viewDirs_opposite :
  exists r vd cs,
    forward (P := constant_pipeline 1) sample_model (sample_camera 4 4) 0
      = Some r /\
    In (SphericalHarmonicsCall 0 vd cs) (r_calls r) /\
    vd = [[0; 0; 1]]%R /\
    viewDirs_claimed sample_model (sample_camera 4 4) = [[0; 0; -1]]%R /\
    vd <> viewDirs_claimed sample_model (sample_camera 4 4).
Proof.
  destruct (sample_forward_visible 4 4 0 2 0 eq_refl eq_refl
              ltac:(lia) ltac:(lia))
    as (r & rargs & tb & Hf & _ & Hcalls & _).
  exists r. eexists. eexists.
  split; [exact Hf|]. split; [rewrite Hcalls; right; left; reflexivity|].
  split; [apply sample_viewDirs|]. split; [apply sample_viewDirs_claimed|].
  rewrite sample_viewDirs, sample_viewDirs_claimed.
  intros H. injection H as H. lra.
Qed.

(** ** Projection matrix *)

Section Projection.
Local Open Scope R_scope.

Lemma clip_planes : zNear = 0.001 /\ zFar = 1000 /\
  0 < zNear /\ 0 < zFar /\ zNear < zFar.
Proof. unfold zNear, zFar. repeat split; lra. Qed.

Lemma frustum_width (near fov : R) :
  0 < near -> 0 < fov < PI ->
  0 < frustum_r near fov - frustum_l near fov.
Proof.
  intros Hn [H0 Hpi]. unfold frustum_l, frustum_r.
  assert (0 < tan (0.5 * fov)) by (apply tan_gt_0; lra).
  nra.
Qed.

Lemma frustum_height (near fov : R) :
  0 < near -> 0 < fov < PI ->
  0 < frustum_t near fov - frustum_b near fov.
Proof.
  intros Hn [H0 Hpi]. unfold frustum_b, frustum_t.
  assert (0 < tan (0.5 * fov)) by (apply tan_gt_0; lra).
  nra.
Qed.

(** A camera with positive size and focal lengths has both fields of
    view strictly between 0 and pi. *)
Lemma fov_range (cam : Camera) :
  (0 < width cam)%Z -> (0 < height cam)%Z -> 0 < fx cam -> 0 < fy cam ->
  0 < fovX cam < PI /\ 0 < fovY cam < PI.
Proof.
  intros Hw Hh Hfx Hfy. apply IZR_lt in Hw. apply IZR_lt in Hh.
  assert (Hpos : forall a b, 0 < a -> 0 < b -> 0 < 2 * atan (a / (2 * b)) < PI).
  { intros a b Ha Hb.
    assert (Hq : 0 < a / (2 * b)) by (apply Rdiv_lt_0_compat; lra).
    pose proof (atan_increasing _ _ Hq) as Hinc. rewrite atan_0 in Hinc.
    pose proof (atan_bound (a / (2 * b))) as [_ Hub]. lra. }
  unfold fovX, fovY. split; apply Hpos; assumption.
Qed.

End Projection.

(** C10: every render pass builds its projection matrix from the clip
    planes 0.001 and 1000, which are positive and in increasing order,
    and for fields of view strictly between 0 and pi the divisors
    [r - l], [t - b] and [zFar - zNear] of [projectionMatrix] at those
    planes are not zero. *)
Theorem forward_projection_divisors (P : Pipeline) (m : Model)
    (cam : Camera) (step : Z) (r : Rendered) (fov_x fov_y : R) :
  forward m cam step = Some r ->
  (0 < fov_x < PI)%R -> (0 < fov_y < PI)%R ->
  (exists d a,
     getDownscaleFactor (config m) step = Some d /\
     hd_error (r_calls r) = Some (ProjectCall a) /\
     pa_projMat a =
       matmul (projectionMatrix 0.001 1000
                 (fovX (scaled cam d)) (fovY (scaled cam d)))
              (viewMat_of (scaled cam d))) /\
  (0 < 0.001)%R /\ (0 < 1000)%R /\ (0.001 < 1000)%R /\
  (frustum_r 0.001 fov_x - frustum_l 0.001 fov_x <> 0)%R /\
  (frustum_t 0.001 fov_y - frustum_b 0.001 fov_y <> 0)%R /\
  (1000 - 0.001 <> 0)%R.
Proof.
  intros Hf Hx Hy. split.
  - destruct (forward_inv _ _ _ _ Hf) as (d & tb & Hd & _ & _ & Hcalls).
    exists d. eexists. split; [exact Hd|]. split; [exact Hcalls|].
    reflexivity.
  - pose proof (frustum_width 0.001 fov_x ltac:(lra) Hx).
    pose proof (frustum_height 0.001 fov_y ltac:(lra) Hy).
    repeat split; lra.
Qed.

Lemma forward_projection_divisors_witness :
  exists r,
    forward (P := constant_pipeline 0) sample_model (sample_camera 4 4) 0
      = Some r /\
    (0 < 1 < PI)%R /\
    (exists d a,
       getDownscaleFactor (config sample_model) 0 = Some d /\
       hd_error (r_calls r) = Some (ProjectCall a) /\
       pa_projMat a =
         matmul (projectionMatrix 0.001 1000
                   (fovX (scaled (sample_camera 4 4) d))
                   (fovY (scaled (sample_camera 4 4) d)))
                (viewMat_of (scaled (sample_camera 4 4) d))) /\
    (0 < 0.001)%R /\ (0 < 1000)%R /\ (0.001 < 1000)%R /\
    (frustum_r 0.001 1 - frustum_l 0.001 1 <> 0)%R /\
    (frustum_t 0.001 1 - frustum_b 0.001 1 <> 0)%R /\
    (1000 - 0.001 <> 0)%R.
Proof.
  destruct (forward_defined (constant_pipeline 0) sample_model
              (sample_camera 4 4) 0 2 0 eq_refl eq_refl
              (sample_tileable 0 4 4 ltac:(lia) ltac:(lia)))
    as (r & tb & Hf & _).
  assert (Hpi : (0 < 1 < PI)%R) by (pose proof PI2_1; lra).
  exists r. split; [exact Hf|]. split; [exact Hpi|].
  exact (forward_projection_divisors (constant_pipeline 0) sample_model
           (sample_camera 4 4) 0 r 1%R 1%R Hf Hpi Hpi).
Defined.

(** * Further properties of the schedules *)

Lemma pow2_divide (a b : Z) : 0 <= a <= b -> (2 ^ a | 2 ^ b).
Proof.
  intros H. exists (2 ^ (b - a)).
  rewrite <- Z.pow_add_r by lia. f_equal. lia.
Qed.

(** The resolution schedule runs from coarse to fine: as the step grows
    the downscale factor never grows, each later factor divides each
    earlier one, every factor lies between 1 and [2 ^ numDownscales], and
    the factor is 1 from step [numDownscales * resolutionSchedule] on. *)
Theorem getDownscaleFactor_coarse_to_fine (c : Config) (s s' : Z) :
  0 < resolutionSchedule c -> 0 <= numDownscales c <= 30 ->
  0 <= s <= s' -> s' <= Int.max_int ->
  exists d d',
    getDownscaleFactor c s = Some d /\
    getDownscaleFactor c s' = Some d' /\
    1 <= d' <= d /\ d <= 2 ^ numDownscales c /\ (d' | d) /\
    (numDownscales c * resolutionSchedule c <= s' -> d' = 1).
Proof.
  intros Hr Hn Hs Hmax.
  rewrite !getDownscaleFactor_eq by lia.
  set (q := s / resolutionSchedule c).
  set (q' := s' / resolutionSchedule c).
  assert (Hq : 0 <= q) by (apply Z.div_pos; lia).
  assert (Hqq : q <= q') by (apply Z.div_le_mono; lia).
  set (e := Z.max (numDownscales c - q) 0).
  set (e' := Z.max (numDownscales c - q') 0).
  assert (He : 0 <= e' <= e) by (subst e e'; lia).
  assert (Hen : e <= numDownscales c) by (subst e; lia).
  eexists. eexists. split; [reflexivity|]. split; [reflexivity|].
  assert (0 < 2 ^ e') by (apply Z.pow_pos_nonneg; lia).
  assert (2 ^ e' <= 2 ^ e) by (apply Z.pow_le_mono_r; lia).
  assert (2 ^ e <= 2 ^ numDownscales c) by (apply Z.pow_le_mono_r; lia).
  repeat split; try lia.
  - now apply pow2_divide.
  - intros Hfull.
    assert (numDownscales c <= q').
    { subst q'. apply Z.div_le_lower_bound; lia. }
    replace e' with 0 by (subst e'; lia). reflexivity.
Qed.

Lemma getDownscaleFactor_coarse_to_fine_witness :
  0 < resolutionSchedule sample_config /\
  0 <= numDownscales sample_config <= 30 /\
  0 <= 100 <= 250 /\ 250 <= Int.max_int /\
  exists d d',
    getDownscaleFactor sample_config 100 = Some d /\
    getDownscaleFactor sample_config 250 = Some d' /\
    1 <= d' <= d /\ d <= 2 ^ numDownscales sample_config /\ (d' | d) /\
    (numDownscales sample_config * resolutionSchedule sample_config <= 250 ->
     d' = 1).
Proof.
  assert (H1 : 0 < resolutionSchedule sample_config) by (cbn; lia).
  assert (H2 : 0 <= numDownscales sample_config <= 30) by (cbn; lia).
  assert (H3 : 0 <= 100 <= 250) by lia.
  assert (H4 : 250 <= Int.max_int) by (unfold Int.max_int; lia).
  split; [exact H1|]. split; [exact H2|]. split; [exact H3|].
  split; [exact H4|].
  exact (getDownscaleFactor_coarse_to_fine sample_config 100 250 H1 H2 H3 H4).
Defined.

(** The colour schedule starts at degree 0 and saturates: the degree is
    0 during the first [shDegreeInterval] steps and [shDegree] from step
    [shDegree * shDegreeInterval] on. *)
Theorem degreesToUse_saturates (c : Config) (s : Z) :
  0 < shDegreeInterval c -> 0 <= shDegree c -> 0 <= s <= Int.max_int ->
  (s < shDegreeInterval c -> degreesToUse c s = Some 0) /\
  (shDegree c * shDegreeInterval c <= s -> degreesToUse c s = Some (shDegree c)).
Proof.
  intros Hi Hd Hs. rewrite degreesToUse_eq by assumption. split.
  - intros Hlt. rewrite Z.div_small by lia. f_equal. lia.
  - intros Hfull.
    assert (shDegree c <= s / shDegreeInterval c)
      by (apply Z.div_le_lower_bound; lia).
    f_equal. lia.
Qed.

Lemma degreesToUse_saturates_witness :
  0 < shDegreeInterval sample_config /\ 0 <= shDegree sample_config /\
  0 <= 3000 <= Int.max_int /\
  (3000 < shDegreeInterval sample_config ->
   degreesToUse sample_config 3000 = Some 0) /\
  (shDegree sample_config * shDegreeInterval sample_config <= 3000 ->
   degreesToUse sample_config 3000 = Some (shDegree sample_config)).
Proof.
  assert (H1 : 0 < shDegreeInterval sample_config) by (cbn; lia).
  assert (H2 : 0 <= shDegree sample_config) by (cbn; lia).
  assert (H3 : 0 <= 3000 <= Int.max_int) by (unfold Int.max_int; lia).
  split; [exact H1|]. split; [exact H2|]. split; [exact H3|].
  exact (degreesToUse_saturates sample_config 3000 H1 H2 H3).
Defined.

(** * Further properties of [afterTrain] *)

(** A quotient of [int]s is defined unless the divisor is 0 or the
    operands are [INT_MIN] and [-1]; so is the remainder. *)
Lemma div_in_range (a b : Z) :
  Int.min_int <= a <= Int.max_int -> b <> 0 ->
  Int.min_int < a \/ b <> -1 ->
  Int.div a b = Some (a ÷ b).
Proof.
  intros Ha Hb Hx. unfold Int.div.
  destruct (Z.eqb_spec b 0) as [E|_]; [contradiction|].
  apply checked_Some. unfold Int.min_int, Int.max_int in *.
  destruct (Z.eq_dec b 1) as [->|H1]; [rewrite Z.quot_1_r; lia|].
  destruct (Z.eq_dec b (-1)) as [->|H2].
  - change (-1) with (- (1)). rewrite Z.quot_opp_r, Z.quot_1_r by lia. lia.
  - pose proof (Z.quot_abs a b Hb) as Habs.
    pose proof (Z.mul_quot_le (Z.abs a) (Z.abs b) ltac:(lia) ltac:(lia)) as Hle.
    rewrite Habs in Hle.
    assert (2 <= Z.abs b) by lia.
    assert (0 <= Z.abs (a ÷ b)) by lia.
    assert (2 * Z.abs (a ÷ b) <= Z.abs a) by nia.
    lia.
Qed.

Lemma rem_in_range (a b : Z) :
  Int.min_int <= a <= Int.max_int -> b <> 0 ->
  Int.min_int < a \/ b <> -1 ->
  Int.rem a b = Some (Z.rem a b).
Proof.
  intros Ha Hb Hx. unfold Int.rem. now rewrite div_in_range.
Qed.

(** From [stopSplitAt] on, [afterTrain] is a no-op: as long as the
    remainder of [step] by [refineEvery] is defined ([refineEvery] is
    not 0, and not -1 when [step] is [INT_MIN]) it returns and leaves
    the model as it found it, and the densification gate it computes on
    the refinement cadence is closed.  Where that remainder is not
    defined, neither is the call. *)
Theorem afterTrain_frozen (m : Model) (step : Z) :
  stopSplitAt (config m) <= step ->
  Int.min_int <= step <= Int.max_int ->
  refineEvery (config m) <> 0 ->
  Int.min_int < step \/ refineEvery (config m) <> -1 ->
  Int.min_int <= resetAlphaEvery (config m) * refineEvery (config m)
    <= Int.max_int ->
  afterTrain m step = Returned m /\
  doDensification (config m) step = Some false /\
  (forall m0 s0,
     stopSplitAt (config m0) <= s0 ->
     refineEvery (config m0) = 0 \/
     (s0 = Int.min_int /\ refineEvery (config m0) = -1) ->
     afterTrain m0 s0 = Undefined).
Proof.
  intros Hstop Hstep Hre Hmin Hmul.
  assert (Hgate : doDensification (config m) step = Some false).
  { unfold doDensification, Int.mul. rewrite checked_Some by assumption.
    cbn [obind]. apply Z.ltb_ge in Hstop. now rewrite Hstop. }
  split; [|split; [exact Hgate|]].
  - unfold afterTrain. pose proof Hstop as Hs. apply Z.ltb_ge in Hs.
    rewrite Hs, rem_in_range by assumption. rewrite Hgate.
    now destruct ((Z.rem step (refineEvery (config m)) =? 0)
                  && (warmupLength (config m) <? step))%bool.
  - intros m0 s0 Hs0 Hbad. unfold afterTrain.
    apply Z.ltb_ge in Hs0. rewrite Hs0.
    destruct Hbad as [->|[-> ->]]; [|reflexivity].
    unfold Int.rem, Int.div. reflexivity.
Qed.

Lemma afterTrain_frozen_witness :
  stopSplitAt (config sample_model) <= 15000 /\
  Int.min_int <= 15000 <= Int.max_int /\
  refineEvery (config sample_model) <> 0 /\
  (Int.min_int < 15000 \/ refineEvery (config sample_model) <> -1) /\
  Int.min_int
    <= resetAlphaEvery (config sample_model) * refineEvery (config sample_model)
    <= Int.max_int /\
  afterTrain sample_model 15000 = Returned sample_model /\
  doDensification (config sample_model) 15000 = Some false /\
  (forall m0 s0,
     stopSplitAt (config m0) <= s0 ->
     refineEvery (config m0) = 0 \/
     (s0 = Int.min_int /\ refineEvery (config m0) = -1) ->
     afterTrain m0 s0 = Undefined).
Proof.
  assert (H1 : stopSplitAt (config sample_model) <= 15000) by (cbn; lia).
  assert (H2 : Int.min_int <= 15000 <= Int.max_int)
    by (unfold Int.min_int, Int.max_int; lia).
  assert (H3 : refineEvery (config sample_model) <> 0) by (cbn; lia).
  assert (H5 : Int.min_int < 15000 \/ refineEvery (config sample_model) <> -1)
    by (left; unfold Int.min_int; lia).
  assert (H4 : Int.min_int
                 <= resetAlphaEvery (config sample_model)
                    * refineEvery (config sample_model)
                 <= Int.max_int)
    by (unfold Int.min_int, Int.max_int; cbn; lia).
  split; [exact H1|]. split; [exact H2|]. split; [exact H3|].
  split; [exact H5|]. split; [exact H4|].
  exact (afterTrain_frozen sample_model 15000 H1 H2 H3 H5 H4).
Defined.

(** [afterTrain] needs the backward pass: called below [stopSplitAt] on
    the model as [forward] leaves it, whose projected coordinates have
    no gradient yet, it raises and neither exits nor returns. *)
Theorem afterTrain_needs_backward (P : Pipeline) (m : Model) (cam : Camera)
    (s step : Z) (r : Rendered) :
  forward m cam s = Some r ->
  step < stopSplitAt (config m) ->
  xys_grad (r_model r) = None /\ afterTrain (r_model r) step = Raised.
Proof.
  intros Hf Hlt.
  destruct (forward_model _ _ _ _ _ Hf) as (d & a & _ & _ & _ & Hm).
  rewrite Hm. split; [reflexivity|].
  unfold afterTrain. cbn [config set_render_state].
  apply Z.ltb_lt in Hlt. rewrite Hlt. reflexivity.
Qed.

Lemma afterTrain_needs_backward_witness :
  exists r,
    forward (P := constant_pipeline 1) sample_model (sample_camera 4 4) 0
      = Some r /\
    0 < stopSplitAt (config sample_model) /\
    xys_grad (r_model r) = None /\ afterTrain (r_model r) 0 = Raised.
Proof.
  destruct (forward_defined (constant_pipeline 1) sample_model
              (sample_camera 4 4) 0 2 0 eq_refl eq_refl
              (sample_tileable 1 4 4 ltac:(lia) ltac:(lia)))
    as (r & tb & Hf & _).
  assert (Hlt : 0 < stopSplitAt (config sample_model)) by (cbn; lia).
  exists r. split; [exact Hf|]. split; [exact Hlt|].
  exact (afterTrain_needs_backward (constant_pipeline 1) sample_model
           (sample_camera 4 4) 0 0 r Hf Hlt).
Defined.

(** The statistics are tied to the number of primitives they were set up
    for: once they hold [n > 0] entries, a pass over projected radii of
    another length raises instead of updating anything. *)
Theorem afterTrain_count_change (n : nat) (m : Model) (o : Observation)
    (step : Z) :
  (0 < n)%nat -> initialised n m -> length (o_radii o) <> n ->
  step < stopSplitAt (config m) ->
  update_statistics (observe m o) = None /\
  afterTrain (observe m o) step = Raised.
Proof.
  intros Hn (Hg & Hc & _) Hlen Hlt.
  assert (Hup : update_statistics (observe m o) = None).
  { unfold update_statistics, update_gradients, index, observe.
    cbn [xys_grad xysGradNorm visCounts set_render_state obind].
    destruct (numel (xysGradNorm m) =? 0) eqn:E.
    - apply numel_zero in E. rewrite E in Hg. cbn in Hg. lia.
    - rewrite visibleMask_length.
      cbn [radii set_render_state]. rewrite Hc.
      destruct (Nat.eqb_spec n (length (o_radii o))) as [E'|_];
        [congruence | reflexivity]. }
  split; [exact Hup|].
  unfold afterTrain. cbn [config observe set_render_state].
  apply Z.ltb_lt in Hlt. rewrite Hlt.
  change (set_render_state m (xys m) (Some (o_grad o)) (o_radii o)
            (o_height o) (o_width o)) with (observe m o).
  now rewrite Hup.
Qed.

Lemma afterTrain_count_change_witness :
  (0 < 1)%nat /\ initialised 1 tracked_model /\
  length (o_radii two_primitive_step) <> 1%nat /\
  0 < stopSplitAt (config tracked_model) /\
  update_statistics (observe tracked_model two_primitive_step) = None /\
  afterTrain (observe tracked_model two_primitive_step) 0 = Raised.
Proof.
  assert (H1 : (0 < 1)%nat) by lia.
  assert (H2 : initialised 1 tracked_model) by (repeat split).
  assert (H3 : length (o_radii two_primitive_step) <> 1%nat)
    by (cbn; discriminate).
  assert (H4 : 0 < stopSplitAt (config tracked_model)) by (cbn; lia).
  split; [exact H1|]. split; [exact H2|]. split; [exact H3|].
  split; [exact H4|].
  exact (afterTrain_count_change 1 tracked_model two_primitive_step 0
           H1 H2 H3 H4).
Defined.

Lemma magnitude_nonneg (o : Observation) (i : nat) : (0 <= magnitude o i)%R.
Proof.
  unfold magnitude, vector_norm. generalize (o_grad o). intros g. revert i.
  induction g as [|row g IH]; intros [|i]; cbn; try lra.
  - apply sqrt_pos.
  - apply IH.
Qed.

Lemma visible_sum_nonneg os i : (0 <= visible_sum os i)%R.
Proof.
  induction os as [|o os IH]; cbn; [lra|].
  pose proof (magnitude_nonneg o i). destruct (visible o i); lra.
Qed.

Lemma visible_count_le os i : (visible_count os i <= INR (length os))%R.
Proof.
  induction os as [|o os IH]; [cbn; lra|].
  change (length (o :: os)) with (S (length os)). rewrite S_INR.
  cbn [visible_count]. destruct (visible o i); lra.
Qed.

(** After any run of statistics passes that starts from uninitialized
    statistics the three tensors hold one entry per primitive, every
    count is at least 1 (so the running mean never divides by zero) and
    at most the number of passes, and every accumulator is
    non-negative. *)
Theorem statistics_invariants (n : nat) (m : Model) (o0 : Observation)
    (os : list Observation) (i : nat) :
  (i < n)%nat -> fresh m -> Forall (shaped n) (o0 :: os) ->
  exists m',
    run m (o0 :: os) = Some m' /\
    length (xysGradNorm m') = n /\ length (visCounts m') = n /\
    length (max2DSize m') = n /\
    (1 <= nth i (visCounts m') 0 <= INR (length (o0 :: os)))%R /\
    (0 <= nth i (xysGradNorm m') 0)%R.
Proof.
  intros Hi Hm Hall.
  destruct (run_fresh n m o0 os ltac:(lia) Hm Hall)
    as (m' & Hrun & (Hl1 & Hl2 & Hl3) & Hnth).
  destruct (Hnth i Hi) as (Hg & Hc & _).
  exists m'. split; [assumption|]. repeat split; try assumption.
  - rewrite Hc. pose proof (visible_count_nonneg os i). lra.
  - rewrite Hc. change (length (o0 :: os)) with (S (length os)).
    rewrite S_INR. pose proof (visible_count_le os i). lra.
  - rewrite Hg. pose proof (magnitude_nonneg o0 i).
    pose proof (visible_sum_nonneg os i). lra.
Qed.

Lemma statistics_invariants_witness :
  (0 < 1)%nat /\ fresh sample_model /\
  Forall (shaped 1) [culled_step; visible_step; culled_step] /\
  exists m',
    run sample_model [culled_step; visible_step; culled_step] = Some m' /\
    length (xysGradNorm m') = 1%nat /\ length (visCounts m') = 1%nat /\
    length (max2DSize m') = 1%nat /\
    (1 <= nth 0 (visCounts m') 0
       <= INR (length [culled_step; visible_step; culled_step]))%R /\
    (0 <= nth 0 (xysGradNorm m') 0)%R.
Proof.
  assert (Hf : fresh sample_model) by (repeat split).
  assert (Hs : Forall (shaped 1) [culled_step; visible_step; culled_step])
    by (repeat constructor).
  split; [lia|]. split; [exact Hf|]. split; [exact Hs|].
  apply (statistics_invariants 1 sample_model culled_step
           [visible_step; culled_step] 0); [lia | exact Hf | exact Hs].
Defined.

(** A pass leaves the statistics of the primitives it does not see
    alone: for a primitive with radius 0 or less, accumulator, count and
    largest size are after the pass what they were before it. *)
Theorem pass_skips_invisible (n : nat) (m : Model) (o : Observation)
    (i : nat) :
  (0 < n)%nat -> initialised n m -> shaped n o ->
  nth i (o_radii o) 0 <= 0 ->
  exists m',
    update_statistics (observe m o) = Some m' /\
    nth i (xysGradNorm m') 0%R = nth i (xysGradNorm m) 0%R /\
    nth i (visCounts m') 0%R = nth i (visCounts m) 0%R /\
    nth i (max2DSize m') (Finite 0) = nth i (max2DSize m) (Finite 0).
Proof.
  intros Hn Hm Ho Hrad.
  destruct (pass_next m o n Hn Hm Ho) as (m' & Hup & _ & Hnth).
  exists m'. split; [assumption|].
  destruct (Hnth i) as (Hg & Hc & Hs).
  assert (Hv : visible o i = false) by (unfold visible; apply Z.ltb_ge; lia).
  rewrite Hv in Hg, Hc, Hs. auto.
Qed.

Lemma pass_skips_invisible_witness :
  (0 < 1)%nat /\ initialised 1 tracked_model /\ shaped 1 culled_step /\
  nth 0 (o_radii culled_step) 0 <= 0 /\
  exists m',
    update_statistics (observe tracked_model culled_step) = Some m' /\
    nth 0 (xysGradNorm m') 0%R = nth 0 (xysGradNorm tracked_model) 0%R /\
    nth 0 (visCounts m') 0%R = nth 0 (visCounts tracked_model) 0%R /\
    nth 0 (max2DSize m') (Finite 0)
      = nth 0 (max2DSize tracked_model) (Finite 0).
Proof.
  assert (H1 : (0 < 1)%nat) by lia.
  assert (H2 : initialised 1 tracked_model) by (repeat split).
  assert (H3 : shaped 1 culled_step) by (split; reflexivity).
  assert (H4 : nth 0 (o_radii culled_step) 0 <= 0) by (cbn; lia).
  split; [exact H1|]. split; [exact H2|]. split; [exact H3|].
  split; [exact H4|].
  exact (pass_skips_invisible 1 tracked_model culled_step 0 H1 H2 H3 H4).
Defined.

(** The largest projected size is a running maximum: passes after the
    first fold [size_max] over the normalized sizes of the passes in
    which the primitive is visible. *)
Lemma size_max_infinite (a : Size) : size_max a Infinite = Infinite.
Proof. now destruct a. Qed.

Lemma visible_max_from_infinite (os : list Observation) (i : nat) :
  visible_max os i Infinite = Infinite.
Proof.
  unfold visible_max. induction os as [|o os IH]; [reflexivity|].
  cbn [fold_left]. now destruct (visible o i).
Qed.

(** One visible pass over an empty image makes the running maximum
    infinite, whatever the other passes. *)
Lemma visible_max_infinite (os : list Observation) (i : nat) (start : Size) :
  Exists (fun o => visible o i = true /\
                   Z.max (o_height o) (o_width o) = 0) os ->
  visible_max os i start = Infinite.
Proof.
  intros Hex. revert start.
  induction Hex as [o os [Hv Hside]|o os _ IH]; intros start.
  - unfold visible_max. cbn [fold_left]. rewrite Hv.
    unfold size_in, normalized. rewrite Hside. cbn [Z.eqb].
    rewrite size_max_infinite. apply visible_max_from_infinite.
  - unfold visible_max. cbn [fold_left]. apply IH.
Qed.

Lemma run_next_max (n : nat) (os : list Observation) (i : nat) :
  (0 < n)%nat -> Forall (shaped n) os ->
  forall m, initialised n m ->
  exists m',
    run m os = Some m' /\
    nth i (max2DSize m') (Finite 0)
      = visible_max os i (nth i (max2DSize m) (Finite 0)).
Proof.
  intros Hn Hos. induction Hos as [|o os Ho _ IH]; intros m Hm.
  - exists m. split; reflexivity.
  - destruct (pass_next m o n Hn Hm Ho) as (m1 & Hup & Hm1 & Hnth).
    destruct (IH m1 Hm1) as (m' & Hrun & Hmax).
    exists m'. cbn [run]. rewrite Hup. cbn [obind].
    split; [assumption|].
    destruct (Hnth i) as (_ & _ & Hs).
    rewrite Hmax, Hs. reflexivity.
Qed.

(** After a run that starts from uninitialized statistics, [max2DSize]
    holds for each primitive the largest of 0 and its projected radius
    divided by the larger side of the rendered image, over the passes in
    which it was visible; it is [+inf] once the primitive was visible in
    a pass whose rendered image was empty. *)
Theorem max2DSize_running_maximum (n : nat) (m : Model) (o0 : Observation)
    (os : list Observation) (i : nat) :
  (i < n)%nat -> fresh m -> Forall (shaped n) (o0 :: os) ->
  exists m',
    run m (o0 :: os) = Some m' /\
    nth i (max2DSize m') (Finite 0) = visible_max (o0 :: os) i (Finite 0) /\
    (Exists (fun o => visible o i = true /\
                      Z.max (o_height o) (o_width o) = 0) (o0 :: os) ->
     nth i (max2DSize m') (Finite 0) = Infinite).
Proof.
  intros Hi Hm Hall. inversion Hall as [|? ? Ho0 Hos]; subst.
  destruct (pass_first m o0 n Hm Ho0) as (m1 & Hup & Hm1 & Hfirst).
  destruct (run_next_max n os i ltac:(lia) Hos m1 Hm1) as (m' & Hrun & Hmax).
  exists m'. cbn [run]. rewrite Hup. cbn [obind].
  split; [assumption|].
  destruct (Hfirst i Hi) as (_ & _ & Hs).
  assert (E : nth i (max2DSize m') (Finite 0)
              = visible_max (o0 :: os) i (Finite 0)).
  { rewrite Hmax, Hs. unfold visible_max. cbn [fold_left].
    destruct (visible o0 i); reflexivity. }
  split; [exact E|].
  intros Hex. rewrite E. now apply visible_max_infinite.
Qed.

Lemma max2DSize_running_maximum_witness :
  (0 < 1)%nat /\ fresh sample_model /\
  Forall (shaped 1) [visible_step; empty_image_step] /\
  exists m',
    run sample_model [visible_step; empty_image_step] = Some m' /\
    nth 0 (max2DSize m') (Finite 0)
      = visible_max [visible_step; empty_image_step] 0 (Finite 0) /\
    nth 0 (max2DSize m') (Finite 0) = Infinite.
Proof.
  assert (Hf : fresh sample_model) by (repeat split).
  assert (Hs : Forall (shaped 1) [visible_step; empty_image_step])
    by (repeat constructor).
  split; [lia|]. split; [exact Hf|]. split; [exact Hs|].
  destruct (max2DSize_running_maximum 1 sample_model visible_step
              [empty_image_step] 0 ltac:(lia) Hf Hs)
    as (m' & Hrun & Hmax & Hinf).
  exists m'. split; [exact Hrun|]. split; [exact Hmax|].
  apply Hinf. right. left. split; reflexivity.
Defined.

(** * Further properties of [forward] *)

(** On the normal exit the image [forward] returns has no entry above 1,
    whatever the rasterizer produced. *)
Theorem forward_image_at_most_one (P : Pipeline) (m : Model) (cam : Camera)
    (step : Z) (r : Rendered) (row : list (list R)) (px : list R) (x : R) :
  forward m cam step = Some r ->
  sum_radii (radii (r_model r)) <> 0 ->
  In row (r_image r) -> In px row -> In x px ->
  (x <= 1)%R.
Proof.
  intros Hf Hsum Hrow Hpx Hx.
  destruct (forward_cases _ _ _ _ Hf) as (d & tb & _ & _ & [(E & _ & _ & Hr)|(_ & deg & _ & Hr)]);
    cbv zeta in Hr; subst r; cbn [r_model r_image radii set_render_state] in *.
  - contradiction.
  - apply in_map_iff in Hrow as (row0 & <- & _).
    apply in_map_iff in Hpx as (px0 & <- & _).
    apply in_map_iff in Hx as (x0 & <- & _).
    apply Rmin_r.
Qed.

Lemma sigmoid_range (y : R) : (0 <= sigmoid y <= 1)%R.
Proof.
  unfold sigmoid. pose proof (exp_pos (- y)) as He.
  assert (Hi : (0 < / (1 + exp (- y)))%R) by (apply Rinv_0_lt_compat; lra).
  assert (E : ((1 + exp (- y)) * / (1 + exp (- y)) = 1)%R) by (field; lra).
  unfold Rdiv. split; nra.
Qed.

Lemma project_args_scales m cam tb row x :
  In row (pa_scales (project_args m cam tb)) -> In x row -> (0 <= x)%R.
Proof.
  cbn [pa_scales project_args]. intros Hrow Hx.
  apply in_map_iff in Hrow as (row0 & <- & _).
  apply in_map_iff in Hx as (x0 & <- & _). apply Rlt_le, exp_pos.
Qed.

(** The external stages only ever see activated parameters: the scales
    handed to the projection stage are not negative, the colours handed
    to the rasterizer are not negative either, and the opacities handed
    to it lie between 0 and 1.  The bounds are the closed ones, which
    hold for the rounded values as well: an exponential can round to 0
    and a sigmoid to 0 or to 1. *)
Theorem forward_activations (P : Pipeline) (m : Model) (cam : Camera)
    (step : Z) (r : Rendered) :
  forward m cam step = Some r ->
  (forall pargs row x,
     In (ProjectCall pargs) (r_calls r) -> In row (pa_scales pargs) ->
     In x row -> (0 <= x)%R) /\
  (forall rargs row x,
     In (RasterizeCall rargs) (r_calls r) -> In row (ra_colors rargs) ->
     In x row -> (0 <= x)%R) /\
  (forall rargs row x,
     In (RasterizeCall rargs) (r_calls r) -> In row (ra_opacity rargs) ->
     In x row -> (0 <= x <= 1)%R).
Proof.
  intros Hf.
  destruct (forward_cases _ _ _ _ Hf)
    as (d & tb & Hd & Htb & [(_ & _ & _ & Hr)|(_ & deg & _ & Hr)]);
    cbv zeta in Hr; subst r; cbn [r_calls].
  - split; [|split].
    + intros pargs row x [Ha|[]] Hrow Hx. injection Ha as <-.
      eapply project_args_scales; eauto.
    + intros rargs row x [Ha|[]]. discriminate.
    + intros rargs row x [Ha|[]]. discriminate.
  - split; [|split].
    + intros pargs row x [Ha|[Ha|[Ha|[]]]] Hrow Hx; try discriminate.
      injection Ha as <-. eapply project_args_scales; eauto.
    + intros rargs row x [Ha|[Ha|[Ha|[]]]] Hrow Hx; try discriminate.
      injection Ha as <-. cbn [ra_colors] in Hrow.
      apply in_map_iff in Hrow as (row0 & <- & _).
      apply in_map_iff in Hx as (x0 & <- & _). apply Rmax_r.
    + intros rargs row x [Ha|[Ha|[Ha|[]]]] Hrow Hx; try discriminate.
      injection Ha as <-. cbn [ra_opacity] in Hrow.
      apply in_map_iff in Hrow as (row0 & <- & _).
      apply in_map_iff in Hx as (x0 & <- & _). apply sigmoid_range.
Qed.

(** The sample scene rendered at step 0 with a visible primitive. *)
Lemma sample_render_visible :
  exists r rargs tb,
    forward (P := constant_pipeline 1) sample_model (sample_camera 4 4) 0
      = Some r /\
    radii (r_model r) = [1] /\
    r_image r =
      map (map (map (fun x => Rmin x 1))) (broadcast [0; 0; 0]%R 2 2) /\
    r_calls r =
      [ProjectCall (project_args sample_model
                      (scaled (sample_camera 4 4) 2) tb);
       SphericalHarmonicsCall 0
         (viewDirs_of sample_model (scaled (sample_camera 4 4) 2))
         (map2 cons (featuresDc sample_model) (featuresRest sample_model));
       RasterizeCall rargs] /\
    ra_colors rargs = [[Rmax (0 + 0.5) 0; Rmax (0 + 0.5) 0; Rmax (0 + 0.5) 0]]%R /\
    ra_opacity rargs = [[sigmoid 0]].
Proof.
  destruct (sample_forward_visible 4 4 0 2 0 eq_refl eq_refl
              ltac:(lia) ltac:(lia))
    as (r & rargs & tb & Hf & Hrad & Hcalls & _ & _ & Hcol & Hop & Himg).
  exists r, rargs, tb. split; [exact Hf|]. split; [exact Hrad|].
  split; [exact Himg|]. split; [exact Hcalls|]. split; [|exact Hop].
  rewrite Hcol, sample_viewDirs. reflexivity.
Qed.

Lemma forward_image_at_most_one_witness :
  exists r,
    forward (P := constant_pipeline 1) sample_model (sample_camera 4 4) 0
      = Some r /\
    sum_radii (radii (r_model r)) <> 0 /\
    In [[Rmin 0 1; Rmin 0 1; Rmin 0 1]; [Rmin 0 1; Rmin 0 1; Rmin 0 1]]%R
       (r_image r) /\
    In [Rmin 0 1; Rmin 0 1; Rmin 0 1]%R
       [[Rmin 0 1; Rmin 0 1; Rmin 0 1]; [Rmin 0 1; Rmin 0 1; Rmin 0 1]]%R /\
    In (Rmin 0 1) [Rmin 0 1; Rmin 0 1; Rmin 0 1]%R /\
    (Rmin 0 1 <= 1)%R.
Proof.
  destruct sample_render_visible as (r & rargs & tb & Hf & Hrad & Himg & _).
  assert (H1 : sum_radii (radii (r_model r)) <> 0)
    by (rewrite Hrad; cbn; discriminate).
  assert (H2 : In [[Rmin 0 1; Rmin 0 1; Rmin 0 1];
                   [Rmin 0 1; Rmin 0 1; Rmin 0 1]]%R (r_image r))
    by (rewrite Himg; left; reflexivity).
  assert (H3 : In [Rmin 0 1; Rmin 0 1; Rmin 0 1]%R
                 [[Rmin 0 1; Rmin 0 1; Rmin 0 1];
                  [Rmin 0 1; Rmin 0 1; Rmin 0 1]]%R)
    by (left; reflexivity).
  assert (H4 : In (Rmin 0 1) [Rmin 0 1; Rmin 0 1; Rmin 0 1]%R)
    by (left; reflexivity).
  exists r. split; [exact Hf|]. split; [exact H1|]. split; [exact H2|].
  split; [exact H3|]. split; [exact H4|].
  exact (forward_image_at_most_one (constant_pipeline 1) sample_model
           (sample_camera 4 4) 0 r _ _ _ Hf H1 H2 H3 H4).
Defined.

Lemma forward_activations_witness :
  exists r,
    forward (P := constant_pipeline 1) sample_model (sample_camera 4 4) 0
      = Some r /\
    (forall pargs row x,
       In (ProjectCall pargs) (r_calls r) -> In row (pa_scales pargs) ->
       In x row -> (0 <= x)%R) /\
    (forall rargs row x,
       In (RasterizeCall rargs) (r_calls r) -> In row (ra_colors rargs) ->
       In x row -> (0 <= x)%R) /\
    (forall rargs row x,
       In (RasterizeCall rargs) (r_calls r) -> In row (ra_opacity rargs) ->
       In x row -> (0 <= x <= 1)%R).
Proof.
  destruct sample_render_visible as (r & rargs & tb & Hf & _).
  exists r. split; [exact Hf|].
  exact (forward_activations (constant_pipeline 1) sample_model
           (sample_camera 4 4) 0 r Hf).
Defined.

(** ** Rotations handed to the projection stage *)

Section Rotations.
Local Open Scope R_scope.

Lemma sumsq_nonneg (row : list R) :
  0 <= fold_right (fun x s => x * x + s) 0 row.
Proof.
  induction row as [|x row IH]; cbn; [lra|]. nra.
Qed.

Lemma sumsq_scale (k : R) (row : list R) :
  fold_right (fun x s => x * x + s) 0 (map (Rmult k) row)
  = k * k * fold_right (fun x s => x * x + s) 0 row.
Proof.
  induction row as [|x row IH]; cbn; [ring|]. rewrite IH. ring.
Qed.

Lemma row_norm_scale (k : R) (row : list R) :
  0 <= k -> row_norm (map (Rmult k) row) = k * row_norm row.
Proof.
  intros Hk. unfold row_norm. rewrite sumsq_scale.
  rewrite sqrt_mult by (try apply sumsq_nonneg; nra).
  now rewrite sqrt_square.
Qed.

Lemma row_norm_nonneg (row : list R) : 0 <= row_norm row.
Proof. apply sqrt_pos. Qed.

Lemma normalize_row_as_scale (row : list R) :
  map (fun x => x / row_norm row) row = map (Rmult (/ row_norm row)) row.
Proof.
  apply map_ext. intros x. unfold Rdiv. ring.
Qed.

(** A row that is not zero is normalized to length 1. *)
Lemma normalize_row_unit (row : list R) :
  row_norm row <> 0 ->
  row_norm (map (fun x => x / row_norm row) row) = 1.
Proof.
  intros Hne. pose proof (row_norm_nonneg row) as Hpos.
  rewrite normalize_row_as_scale.
  rewrite row_norm_scale.
  - field. exact Hne.
  - apply Rlt_le, Rinv_0_lt_compat. lra.
Qed.

(** Normalization forgets a positive factor. *)
Lemma normalize_row_scale (k : R) (row : list R) :
  0 < k ->
  map (fun x => x / row_norm (map (Rmult k) row)) (map (Rmult k) row)
  = map (fun x => x / row_norm row) row.
Proof.
  intros Hk. rewrite row_norm_scale by lra. rewrite map_map.
  apply map_ext. intros x. unfold Rdiv. rewrite Rinv_mult.
  replace (k * x * (/ k * / row_norm row))
    with (k * / k * (x * / row_norm row)) by ring.
  rewrite Rinv_r by lra. ring.
Qed.

Lemma normalize_rows_scale (ks : list R) (q : matrix) :
  Forall (fun k => 0 < k) ks -> length ks = length q ->
  normalize_rows (scale_rows ks q) = normalize_rows q.
Proof.
  intros Hks. revert q.
  induction Hks as [|k ks Hk _ IH]; intros [|row q] Hlen;
    try discriminate; [reflexivity|].
  injection Hlen as Hlen. unfold normalize_rows, scale_rows in *.
  cbn [map2 map]. rewrite normalize_row_scale by assumption.
  f_equal. now apply IH.
Qed.

End Rotations.

(** The projection stage receives unit quaternions: every stored
    rotation that is not the zero row reaches it divided by its length,
    so with length 1. *)
Theorem forward_unit_quaternions (P : Pipeline) (m : Model) (cam : Camera)
    (step : Z) (r : Rendered) (pargs : ProjectArgs) (i : nat) (q : list R) :
  forward m cam step = Some r ->
  In (ProjectCall pargs) (r_calls r) ->
  nth_error (quats m) i = Some q ->
  row_norm q <> 0%R ->
  nth_error (pa_quats pargs) i = Some (map (fun x => (x / row_norm q)%R) q) /\
  row_norm (map (fun x => (x / row_norm q)%R) q) = 1%R.
Proof.
  intros Hf Hin Hq Hne.
  assert (Hp : pa_quats pargs = normalize_rows (quats m)).
  { destruct (forward_cases _ _ _ _ Hf)
      as (d & tb & Hd & Htb & [(_ & _ & _ & Hr)|(_ & deg & _ & Hr)]);
      cbv zeta in Hr; subst r; cbn [r_calls] in Hin.
    - destruct Hin as [Ha|[]]. now injection Ha as <-.
    - destruct Hin as [Ha|[Ha|[Ha|[]]]]; try discriminate.
      now injection Ha as <-. }
  split; [|now apply normalize_row_unit].
  rewrite Hp. unfold normalize_rows. now rewrite nth_error_map, Hq.
Qed.

Lemma project_args_with_quats m cam tb ks :
  Forall (fun k => (0 < k)%R) ks -> length ks = length (quats m) ->
  project_args (with_quats m (scale_rows ks (quats m))) cam tb
  = project_args m cam tb.
Proof.
  intros Hks Hlen. unfold project_args.
  cbn [means scales quats with_quats].
  now rewrite normalize_rows_scale.
Qed.

(** Rendering does not depend on the length of the stored quaternions:
    multiplying each of them by a positive factor of its own changes
    neither whether [forward] returns, nor the image, nor the camera it
    leaves, nor what the external stages are called with. *)
Theorem forward_quats_scale_invariant (P : Pipeline) (m : Model)
    (cam : Camera) (step : Z) (ks : list R) :
  Forall (fun k => (0 < k)%R) ks -> length ks = length (quats m) ->
  match forward (with_quats m (scale_rows ks (quats m))) cam step,
        forward m cam step with
  | Some r', Some r =>
      r_image r' = r_image r /\ r_cam r' = r_cam r /\ r_calls r' = r_calls r
  | None, None => True
  | _, _ => False
  end.
Proof.
  intros Hks Hlen. unfold forward.
  cbn [config featuresDc featuresRest opacities backgroundColor with_quats].
  destruct (getDownscaleFactor (config m) step) as [d|]; [|exact I].
  cbn [obind].
  destruct (tileBounds_of (scaleOutputResolution cam (1 / IZR d))) as [tb|];
    [|exact I].
  cbn [obind]. rewrite !project_args_with_quats by assumption.
  destruct (sum_radii _ =? 0).
  - destruct (repeat_hw _ _ _) as [img|]; [|exact I].
    cbn [obind r_image r_cam r_calls]. auto.
  - destruct (degreesToUse (config m) step) as [deg|]; [|exact I].
    cbn [obind r_image r_cam r_calls]. auto.
Qed.

Lemma sample_quat_norm : row_norm [1; 0; 0; 0]%R = 1%R.
Proof.
  unfold row_norm. cbn [fold_right].
  replace (1 * 1 + (0 * 0 + (0 * 0 + (0 * 0 + 0))))%R with 1%R by ring.
  apply sqrt_1.
Qed.

Lemma forward_unit_quaternions_witness :
  exists r pargs,
    forward (P := constant_pipeline 1) sample_model (sample_camera 4 4) 0
      = Some r /\
    In (ProjectCall pargs) (r_calls r) /\
    nth_error (quats sample_model) 0 = Some [1; 0; 0; 0]%R /\
    row_norm [1; 0; 0; 0]%R <> 0%R /\
    nth_error (pa_quats pargs) 0
      = Some (map (fun x => (x / row_norm [1; 0; 0; 0])%R) [1; 0; 0; 0]%R) /\
    row_norm (map (fun x => (x / row_norm [1; 0; 0; 0])%R) [1; 0; 0; 0]%R)
      = 1%R.
Proof.
  destruct sample_render_visible as (r & rargs & tb & Hf & _ & _ & Hcalls & _).
  assert (Hin : In (ProjectCall
                      (project_args sample_model
                         (scaled (sample_camera 4 4) 2) tb)) (r_calls r))
    by (rewrite Hcalls; left; reflexivity).
  assert (Hne : row_norm [1; 0; 0; 0]%R <> 0%R)
    by (rewrite sample_quat_norm; lra).
  exists r. eexists. split; [exact Hf|]. split; [exact Hin|].
  split; [reflexivity|]. split; [exact Hne|].
  exact (forward_unit_quaternions (constant_pipeline 1) sample_model
           (sample_camera 4 4) 0 r _ 0%nat [1; 0; 0; 0]%R
           Hf Hin eq_refl Hne).
Defined.

Lemma forward_quats_scale_invariant_witness :
  Forall (fun k => (0 < k)%R) [2%R] /\
  length [2%R] = length (quats sample_model) /\
  match forward (P := constant_pipeline 1)
          (with_quats sample_model (scale_rows [2%R] (quats sample_model)))
          (sample_camera 4 4) 0,
        forward (P := constant_pipeline 1) sample_model (sample_camera 4 4) 0
  with
  | Some r', Some r =>
      r_image r' = r_image r /\ r_cam r' = r_cam r /\ r_calls r' = r_calls r
  | None, None => True
  | _, _ => False
  end.
Proof.
  assert (H1 : Forall (fun k => (0 < k)%R) [2%R])
    by (constructor; [lra | constructor]).
  assert (H2 : length [2%R] = length (quats sample_model)) by reflexivity.
  split; [exact H1|]. split; [exact H2|].
  exact (forward_quats_scale_invariant (constant_pipeline 1) sample_model
           (sample_camera 4 4) 0 [2%R] H1 H2).
Defined.

(** ** Tiles, exits and what [forward] leaves behind *)

Lemma ceil_div_bounds (w b : Z) :
  0 <= w -> 0 < b ->
  ((w + b - 1) ÷ b - 1) * b < w <= (w + b - 1) ÷ b * b.
Proof.
  intros Hw Hb. rewrite Z.quot_div_nonneg by lia.
  pose proof (Z.mul_div_le (w + b - 1) b Hb).
  pose proof (Z.mul_succ_div_gt (w + b - 1) b Hb).
  nia.
Qed.

(** The tile grid handed to the projection stage covers the rendered
    image exactly: a render pass has a result only when the sums
    [width + BLOCK_X] and [height + BLOCK_Y] stay inside the [int]
    range, and then, with the projected width and height non-negative
    and a positive tile size, the tiles of each axis reach the size of
    the image and one tile fewer would not; the third bound is 1. *)
Theorem forward_tile_bounds (P : Pipeline) (m : Model) (cam : Camera)
    (step : Z) (r : Rendered) (pargs : ProjectArgs) :
  forward m cam step = Some r ->
  In (ProjectCall pargs) (r_calls r) ->
  0 < BLOCK_X -> 0 < BLOCK_Y ->
  0 <= pa_width pargs -> 0 <= pa_height pargs ->
  pa_width pargs + BLOCK_X <= Int.max_int /\
  pa_height pargs + BLOCK_Y <= Int.max_int /\
  (fst (fst (pa_tileBounds pargs)) - 1) * BLOCK_X < pa_width pargs
    <= fst (fst (pa_tileBounds pargs)) * BLOCK_X /\
  (snd (fst (pa_tileBounds pargs)) - 1) * BLOCK_Y < pa_height pargs
    <= snd (fst (pa_tileBounds pargs)) * BLOCK_Y /\
  snd (pa_tileBounds pargs) = 1.
Proof.
  intros Hf Hin Hbx Hby Hw Hh.
  assert (Hp : exists c tb,
            tileBounds_of c = Some tb /\ pargs = project_args m c tb).
  { destruct (forward_cases _ _ _ _ Hf)
      as (d & tb & Hd & Htb & [(_ & _ & _ & Hr)|(_ & deg & _ & Hr)]);
      cbv zeta in Hr; subst r; cbn [r_calls] in Hin.
    - destruct Hin as [Ha|[]]. injection Ha as <-. eauto.
    - destruct Hin as [Ha|[Ha|[Ha|[]]]]; try discriminate.
      injection Ha as <-. eauto. }
  destruct Hp as (c & tb & Htb & ->).
  apply tileBounds_of_inv in Htb as (-> & Hxw & Hxh).
  cbn [pa_tileBounds pa_width pa_height project_args fst snd] in *.
  split; [exact Hxw|]. split; [exact Hxh|].
  split; [now apply ceil_div_bounds|]. split; [now apply ceil_div_bounds|].
  reflexivity.
Qed.

Lemma forward_tile_bounds_witness :
  exists r pargs,
    forward (P := constant_pipeline 1) sample_model (sample_camera 4 4) 0
      = Some r /\
    In (ProjectCall pargs) (r_calls r) /\
    0 < BLOCK_X (Pipeline := constant_pipeline 1) /\
    0 < BLOCK_Y (Pipeline := constant_pipeline 1) /\
    0 <= pa_width pargs /\ 0 <= pa_height pargs /\
    pa_width pargs + BLOCK_X (Pipeline := constant_pipeline 1)
      <= Int.max_int /\
    pa_height pargs + BLOCK_Y (Pipeline := constant_pipeline 1)
      <= Int.max_int /\
    (fst (fst (pa_tileBounds pargs)) - 1)
      * BLOCK_X (Pipeline := constant_pipeline 1) < pa_width pargs
      <= fst (fst (pa_tileBounds pargs))
         * BLOCK_X (Pipeline := constant_pipeline 1) /\
    (snd (fst (pa_tileBounds pargs)) - 1)
      * BLOCK_Y (Pipeline := constant_pipeline 1) < pa_height pargs
      <= snd (fst (pa_tileBounds pargs))
         * BLOCK_Y (Pipeline := constant_pipeline 1) /\
    snd (pa_tileBounds pargs) = 1.
Proof.
  destruct sample_render_visible as (r & rargs & tb & Hf & _ & _ & Hcalls & _).
  assert (Hin : In (ProjectCall
                      (project_args sample_model
                         (scaled (sample_camera 4 4) 2) tb)) (r_calls r))
    by (rewrite Hcalls; left; reflexivity).
  assert (Hbx : 0 < BLOCK_X (Pipeline := constant_pipeline 1)) by (cbn; lia).
  assert (Hby : 0 < BLOCK_Y (Pipeline := constant_pipeline 1)) by (cbn; lia).
  assert (Hw : 0 <= pa_width (project_args sample_model
                               (scaled (sample_camera 4 4) 2) tb)).
  { cbn [pa_width project_args].
    rewrite scaled_width, sample_width by lia. cbn. lia. }
  assert (Hh : 0 <= pa_height (project_args sample_model
                                (scaled (sample_camera 4 4) 2) tb)).
  { cbn [pa_height project_args].
    rewrite scaled_height, sample_height by lia. cbn. lia. }
  exists r. eexists. split; [exact Hf|]. split; [exact Hin|].
  split; [exact Hbx|]. split; [exact Hby|].
  split; [exact Hw|]. split; [exact Hh|].
  exact (forward_tile_bounds (constant_pipeline 1) sample_model
           (sample_camera 4 4) 0 r _ Hf Hin Hbx Hby Hw Hh).
Defined.

(** [forward] writes only the byproducts of the render: the parameters,
    the background colour, the configuration and the three statistics
    tensors are as before, the projected coordinates and radii are those
    the projection stage returned, their gradient is unset, and
    [lastHeight], [lastWidth] are the height and width that stage was
    called with. *)
Theorem forward_frame (P : Pipeline) (m : Model) (cam : Camera)
    (step : Z) (r : Rendered) :
  forward m cam step = Some r ->
  (config (r_model r) = config m /\ means (r_model r) = means m /\
   scales (r_model r) = scales m /\ quats (r_model r) = quats m /\
   featuresDc (r_model r) = featuresDc m /\
   featuresRest (r_model r) = featuresRest m /\
   opacities (r_model r) = opacities m /\
   backgroundColor (r_model r) = backgroundColor m /\
   xysGradNorm (r_model r) = xysGradNorm m /\
   visCounts (r_model r) = visCounts m /\
   max2DSize (r_model r) = max2DSize m) /\
  exists pargs,
    hd_error (r_calls r) = Some (ProjectCall pargs) /\
    xys (r_model r) = p_xys (ProjectGaussians pargs) /\
    radii (r_model r) = p_radii (ProjectGaussians pargs) /\
    xys_grad (r_model r) = None /\
    lastHeight (r_model r) = pa_height pargs /\
    lastWidth (r_model r) = pa_width pargs.
Proof.
  intros Hf.
  destruct (forward_model _ _ _ _ _ Hf) as (d & a & _ & _ & Hcall & Hm).
  rewrite Hm. split; [repeat split|].
  exists a. repeat split. exact Hcall.
Qed.

Lemma forward_frame_witness :
  exists r,
    forward (P := constant_pipeline 1) tracked_model (sample_camera 4 4) 0
      = Some r /\
    (config (r_model r) = config tracked_model /\
     means (r_model r) = means tracked_model /\
     scales (r_model r) = scales tracked_model /\
     quats (r_model r) = quats tracked_model /\
     featuresDc (r_model r) = featuresDc tracked_model /\
     featuresRest (r_model r) = featuresRest tracked_model /\
     opacities (r_model r) = opacities tracked_model /\
     backgroundColor (r_model r) = backgroundColor tracked_model /\
     xysGradNorm (r_model r) = xysGradNorm tracked_model /\
     visCounts (r_model r) = visCounts tracked_model /\
     max2DSize (r_model r) = max2DSize tracked_model) /\
    exists pargs,
      hd_error (r_calls r) = Some (ProjectCall pargs) /\
      xys (r_model r) = p_xys (ProjectGaussians (Pipeline := constant_pipeline 1) pargs) /\
      radii (r_model r) = p_radii (ProjectGaussians (Pipeline := constant_pipeline 1) pargs) /\
      xys_grad (r_model r) = None /\
      lastHeight (r_model r) = pa_height pargs /\
      lastWidth (r_model r) = pa_width pargs.
Proof.
  destruct (forward_defined (constant_pipeline 1) tracked_model
              (sample_camera 4 4) 0 2 0 eq_refl eq_refl
              (sample_tileable 1 4 4 ltac:(lia) ltac:(lia)))
    as (r & tb & Hf & _).
  exists r. split; [exact Hf|].
  exact (forward_frame (constant_pipeline 1) tracked_model
           (sample_camera 4 4) 0 r Hf).
Defined.

Lemma sum_radii_nonneg (l : list Z) :
  Forall (fun x => 0 <= x) l ->
  0 <= sum_radii l /\ (sum_radii l = 0 -> Forall (fun x => x = 0) l).
Proof.
  induction 1 as [|x l Hx _ [IH0 IH]]; cbn.
  - split; [lia | constructor].
  - fold (sum_radii l). split; [lia|].
    intros Hs. constructor; [lia|]. apply IH. lia.
Qed.

(** With projected radii that are not negative, [forward] takes its
    early exit (the projection stage only) exactly when no primitive has
    a positive radius, and goes through all three stages exactly when
    some primitive has one. *)
Theorem forward_exit_by_visibility (P : Pipeline) (m : Model) (cam : Camera)
    (step : Z) (r : Rendered) :
  forward m cam step = Some r ->
  Forall (fun x => 0 <= x) (radii (r_model r)) ->
  (length (r_calls r) = 1%nat <-> Forall (fun x => x = 0) (radii (r_model r))) /\
  (length (r_calls r) = 3%nat <-> Exists (fun x => 0 < x) (radii (r_model r))).
Proof.
  intros Hf Hnn.
  destruct (sum_radii_nonneg _ Hnn) as [Hge Hzero].
  assert (Hpos : Exists (fun x => 0 < x) (radii (r_model r)) ->
                 sum_radii (radii (r_model r)) <> 0).
  { intros Hex Hs. apply Hzero in Hs.
    apply Exists_exists in Hex as (x & Hin & Hx).
    rewrite Forall_forall in Hs. specialize (Hs x Hin). lia. }
  assert (Hex : sum_radii (radii (r_model r)) <> 0 ->
                Exists (fun x => 0 < x) (radii (r_model r))).
  { intros Hs. clear Hzero Hpos Hge.
    induction Hnn as [|x l Hx Hl IH]; [now contradiction Hs|].
    destruct (Z.eq_dec x 0) as [->|Hne].
    - right. apply IH. exact Hs.
    - left. lia. }
  destruct (forward_cases _ _ _ _ Hf)
    as (d & tb & Hd & Htb & [(E & _ & _ & Hr)|(E & deg & _ & Hr)]);
    cbv zeta in Hr; subst r;
    cbn [r_model r_calls radii set_render_state length] in *.
  - split; split; intros H.
    + now apply Hzero.
    + reflexivity.
    + discriminate.
    + now apply Hpos in H.
  - split; split; intros H.
    + discriminate.
    + now apply sum_radii_zero in H.
    + now apply Hex.
    + reflexivity.
Qed.

Lemma forward_exit_by_visibility_witness :
  exists r,
    forward (P := constant_pipeline 1) sample_model (sample_camera 4 4) 0
      = Some r /\
    Forall (fun x => 0 <= x) (radii (r_model r)) /\
    (length (r_calls r) = 1%nat
       <-> Forall (fun x => x = 0) (radii (r_model r))) /\
    (length (r_calls r) = 3%nat
       <-> Exists (fun x => 0 < x) (radii (r_model r))).
Proof.
  destruct sample_render_visible as (r & rargs & tb & Hf & Hrad & _).
  assert (Hnn : Forall (fun x => 0 <= x) (radii (r_model r)))
    by (rewrite Hrad; constructor; [lia | constructor]).
  exists r. split; [exact Hf|]. split; [exact Hnn|].
  exact (forward_exit_by_visibility (constant_pipeline 1) sample_model
           (sample_camera 4 4) 0 r Hf Hnn).
Defined.

(** * Further properties of the geometry *)

(** Equality of lists, entry by entry. *)
Ltac list_eq :=
  repeat match goal with
         | |- _ :: _ = _ :: _ => apply (f_equal2 (@cons _))
         end.

Section GeometryFacts.
Local Open Scope R_scope.

Lemma projectionMatrix_body (near far fov_x fov_y : R) :
  0 < near -> 0 < fov_x < PI -> 0 < fov_y < PI ->
  projectionMatrix near far fov_x fov_y =
    [ [1 / tan (0.5 * fov_x); 0; 0; 0];
      [0; 1 / tan (0.5 * fov_y); 0; 0];
      [0; 0; (far + near) / (far - near); - (far * near) / (far - near)];
      [0; 0; 1; 0] ].
Proof.
  intros Hn Hx Hy.
  assert (Htx : 0 < tan (0.5 * fov_x)) by (apply tan_gt_0; lra).
  assert (Hty : 0 < tan (0.5 * fov_y)) by (apply tan_gt_0; lra).
  unfold projectionMatrix, frustum_l, frustum_r, frustum_b, frustum_t.
  set (tx := tan (0.5 * fov_x)) in *. set (ty := tan (0.5 * fov_y)) in *.
  assert (Hnx : 0 < near * tx) by (apply Rmult_lt_0_compat; assumption).
  assert (Hny : 0 < near * ty) by (apply Rmult_lt_0_compat; assumption).
  cbv zeta. list_eq; try reflexivity.
  - field. split; lra.
  - replace (near * tx + - (near * tx)) with 0 by ring.
    unfold Rdiv. ring.
  - field. split; lra.
  - replace (near * ty + - (near * ty)) with 0 by ring.
    unfold Rdiv. ring.
  - unfold Rdiv. ring.
Qed.

(** For fields of view strictly between 0 and pi the frustum is
    symmetric about the axis: the off-centre terms of the projection
    matrix vanish and its two scale entries are [1 / tan (fov / 2)],
    whatever the near plane. *)
Theorem projectionMatrix_closed_form (near far fov_x fov_y : R) :
  0 < near -> 0 < fov_x < PI -> 0 < fov_y < PI ->
  projectionMatrix near far fov_x fov_y =
    [ [1 / tan (0.5 * fov_x); 0; 0; 0];
      [0; 1 / tan (0.5 * fov_y); 0; 0];
      [0; 0; (far + near) / (far - near); - (far * near) / (far - near)];
      [0; 0; 1; 0] ].
Proof.
  intros Hn Hx Hy. now apply projectionMatrix_body.
Qed.

Lemma projectionMatrix_closed_form_witness :
  0 < 0.001 /\ 0 < 1 < PI /\
  projectionMatrix 0.001 1000 1 1 =
    [ [1 / tan (0.5 * 1); 0; 0; 0];
      [0; 1 / tan (0.5 * 1); 0; 0];
      [0; 0; (1000 + 0.001) / (1000 - 0.001);
       - (1000 * 0.001) / (1000 - 0.001)];
      [0; 0; 1; 0] ].
Proof.
  assert (H1 : 0 < 0.001) by lra.
  assert (H2 : 0 < 1 < PI) by (pose proof PI2_1; lra).
  split; [exact H1|]. split; [exact H2|].
  exact (projectionMatrix_closed_form 0.001 1000 1 1 H1 H2 H2).
Defined.

Lemma tan_half_fov (a b : R) :
  0 < a -> 0 < b -> tan (0.5 * (2 * atan (a / (2 * b)))) = a / (2 * b).
Proof.
  intros Ha Hb.
  replace (0.5 * (2 * atan (a / (2 * b)))) with (atan (a / (2 * b))) by lra.
  apply tan_atan.
Qed.

(** The projection matrix [forward] builds for a camera with positive
    size and focal lengths depends on the intrinsics only through
    [2 fx / width] and [2 fy / height], its two scale entries. *)
Theorem projectionMatrix_of_camera (cam : Camera) :
  (0 < width cam)%Z -> (0 < height cam)%Z -> 0 < fx cam -> 0 < fy cam ->
  projectionMatrix zNear zFar (fovX cam) (fovY cam) =
    [ [2 * fx cam / IZR (width cam); 0; 0; 0];
      [0; 2 * fy cam / IZR (height cam); 0; 0];
      [0; 0; (1000 + 0.001) / (1000 - 0.001);
       - (1000 * 0.001) / (1000 - 0.001)];
      [0; 0; 1; 0] ].
Proof.
  intros Hw Hh Hfx Hfy.
  destruct (fov_range cam Hw Hh Hfx Hfy) as [Hx Hy].
  apply IZR_lt in Hw. apply IZR_lt in Hh.
  rewrite projectionMatrix_body by (unfold zNear; lra || assumption).
  unfold fovX, fovY. rewrite !tan_half_fov by assumption.
  unfold zNear, zFar. list_eq; try reflexivity; field; repeat split; lra.
Qed.

End GeometryFacts.

Lemma projectionMatrix_of_camera_witness :
  (0 < width (sample_camera 4 4))%Z /\ (0 < height (sample_camera 4 4))%Z /\
  (0 < fx (sample_camera 4 4))%R /\ (0 < fy (sample_camera 4 4))%R /\
  projectionMatrix zNear zFar (fovX (sample_camera 4 4))
    (fovY (sample_camera 4 4)) =
    [ [2 * fx (sample_camera 4 4) / IZR (width (sample_camera 4 4)); 0; 0; 0];
      [0; 2 * fy (sample_camera 4 4) / IZR (height (sample_camera 4 4)); 0; 0];
      [0; 0; (1000 + 0.001) / (1000 - 0.001);
       - (1000 * 0.001) / (1000 - 0.001)];
      [0; 0; 1; 0] ]%R.
Proof.
  assert (H1 : (0 < width (sample_camera 4 4))%Z)
    by (rewrite sample_width; lia).
  assert (H2 : (0 < height (sample_camera 4 4))%Z)
    by (rewrite sample_height; lia).
  assert (H3 : (0 < fx (sample_camera 4 4))%R)
    by (unfold fx; cbn [targetFx outputScale sample_camera]; lra).
  assert (H4 : (0 < fy (sample_camera 4 4))%R)
    by (unfold fy; cbn [targetFy outputScale sample_camera]; lra).
  split; [exact H1|]. split; [exact H2|]. split; [exact H3|].
  split; [exact H4|].
  exact (projectionMatrix_of_camera (sample_camera 4 4) H1 H2 H3 H4).
Defined.

Section ViewMatrix.
Local Open Scope R_scope.

(** The world-to-camera matrix, entry by entry, for a 4 x 4 pose. *)
Lemma viewMat_of_entries (cam : Camera)
    (a00 a01 a02 a10 a11 a12 a20 a21 a22 tx ty tz : R) (last : list R) :
  camToWorld cam =
    [[a00; a01; a02; tx]; [a10; a11; a12; ty]; [a20; a21; a22; tz]; last] ->
  viewMat_of cam =
    [ [a00; a10; a20; - (a00 * tx + a10 * ty + a20 * tz)];
      [- a01; - a11; - a21; a01 * tx + a11 * ty + a21 * tz];
      [- a02; - a12; - a22; a02 * tx + a12 * ty + a22 * tz];
      [0; 0; 0; 1] ].
Proof.
  intros Hcam. unfold viewMat_of. rewrite Hcam.
  cbv [rotation_of translation_of matmul transpose dot mneg diag3
       viewMatrix map map2 firstn skipn fold_right app].
  list_eq; try reflexivity; ring.
Qed.

(** The world-to-camera matrix sends the position of the camera to the
    origin of the camera frame, for every 4 x 4 pose. *)
Theorem viewMat_centres_camera (cam : Camera)
    (a00 a01 a02 a10 a11 a12 a20 a21 a22 tx ty tz : R) (last : list R) :
  camToWorld cam =
    [[a00; a01; a02; tx]; [a10; a11; a12; ty]; [a20; a21; a22; tz]; last] ->
  matmul (viewMat_of cam) [[tx]; [ty]; [tz]; [1]] = [[0]; [0]; [0]; [1]].
Proof.
  intros Hcam.
  rewrite (viewMat_of_entries cam _ _ _ _ _ _ _ _ _ _ _ _ _ Hcam).
  cbv [matmul transpose dot map map2 fold_right].
  list_eq; try reflexivity; ring.
Qed.

(** For a pose whose rotation has orthonormal columns the
    world-to-camera matrix is the inverse of the pose with its y and z
    axes flipped: their product is the identity. *)
Theorem viewMat_inverts_flipped_pose (cam : Camera)
    (a00 a01 a02 a10 a11 a12 a20 a21 a22 tx ty tz : R) (last : list R) :
  camToWorld cam =
    [[a00; a01; a02; tx]; [a10; a11; a12; ty]; [a20; a21; a22; tz]; last] ->
  a00 * a00 + a10 * a10 + a20 * a20 = 1 ->
  a01 * a01 + a11 * a11 + a21 * a21 = 1 ->
  a02 * a02 + a12 * a12 + a22 * a22 = 1 ->
  a00 * a01 + a10 * a11 + a20 * a21 = 0 ->
  a00 * a02 + a10 * a12 + a20 * a22 = 0 ->
  a01 * a02 + a11 * a12 + a21 * a22 = 0 ->
  matmul (viewMat_of cam)
    [ [a00; - a01; - a02; tx];
      [a10; - a11; - a12; ty];
      [a20; - a21; - a22; tz];
      [0; 0; 0; 1] ]
  = [[1; 0; 0; 0]; [0; 1; 0; 0]; [0; 0; 1; 0]; [0; 0; 0; 1]].
Proof.
  intros Hcam H00 H11 H22 H01 H02 H12.
  rewrite (viewMat_of_entries cam _ _ _ _ _ _ _ _ _ _ _ _ _ Hcam).
  cbv [matmul transpose dot map map2 fold_right].
  list_eq; try reflexivity; nra.
Qed.

End ViewMatrix.

Lemma viewMat_centres_camera_witness :
  camToWorld (sample_camera 4 4) =
    [[1; 0; 0; 0]; [0; 1; 0; 0]; [0; 0; 1; 0]; [0; 0; 0; 1]]%R /\
  matmul (viewMat_of (sample_camera 4 4)) [[0]; [0]; [0]; [1]]%R
    = [[0]; [0]; [0]; [1]]%R.
Proof.
  split; [reflexivity|].
  exact (viewMat_centres_camera (sample_camera 4 4)
           1 0 0 0 1 0 0 0 1 0 0 0 [0; 0; 0; 1]%R eq_refl).
Defined.

Lemma viewMat_inverts_flipped_pose_witness :
  camToWorld (sample_camera 4 4) =
    [[1; 0; 0; 0]; [0; 1; 0; 0]; [0; 0; 1; 0]; [0; 0; 0; 1]]%R /\
  (1 * 1 + 0 * 0 + 0 * 0 = 1)%R /\ (0 * 0 + 1 * 1 + 0 * 0 = 1)%R /\
  (0 * 0 + 0 * 0 + 1 * 1 = 1)%R /\ (1 * 0 + 0 * 1 + 0 * 0 = 0)%R /\
  (1 * 0 + 0 * 0 + 0 * 1 = 0)%R /\ (0 * 0 + 1 * 0 + 0 * 1 = 0)%R /\
  matmul (viewMat_of (sample_camera 4 4))
    [ [1; - 0; - 0; 0]; [0; - 1; - 0; 0]; [0; - 0; - 1; 0]; [0; 0; 0; 1] ]%R
  = [[1; 0; 0; 0]; [0; 1; 0; 0]; [0; 0; 1; 0]; [0; 0; 0; 1]]%R.
Proof.
  assert (H00 : (1 * 1 + 0 * 0 + 0 * 0 = 1)%R) by lra.
  assert (H11 : (0 * 0 + 1 * 1 + 0 * 0 = 1)%R) by lra.
  assert (H22 : (0 * 0 + 0 * 0 + 1 * 1 = 1)%R) by lra.
  assert (H01 : (1 * 0 + 0 * 1 + 0 * 0 = 0)%R) by lra.
  assert (H02 : (1 * 0 + 0 * 0 + 0 * 1 = 0)%R) by lra.
  assert (H12 : (0 * 0 + 1 * 0 + 0 * 1 = 0)%R) by lra.
  split; [reflexivity|]. split; [exact H00|]. split; [exact H11|].
  split; [exact H22|]. split; [exact H01|]. split; [exact H02|].
  split; [exact H12|].
  exact (viewMat_inverts_flipped_pose (sample_camera 4 4)
           1 0 0 0 1 0 0 0 1 0 0 0 [0; 0; 0; 1]%R eq_refl
           H00 H11 H22 H01 H02 H12).
Defined.

(** * Random rotations *)

Section RandomRotations.
Local Open Scope R_scope.

Lemma randomQuat_norm (pi u v w : R) :
  0 <= u <= 1 ->
  row_norm [sqrt (1 - u) * sin (2 * pi * v); sqrt (1 - u) * cos (2 * pi * v);
            sqrt u * sin (2 * pi * w); sqrt u * cos (2 * pi * w)] = 1.
Proof.
  intros [H0 H1]. unfold row_norm. cbn [fold_right].
  assert (Ha : sqrt (1 - u) * sqrt (1 - u) = 1 - u) by (apply sqrt_sqrt; lra).
  assert (Hb : sqrt u * sqrt u = u) by (apply sqrt_sqrt; lra).
  pose proof (sin2_cos2 (2 * pi * v)) as Hv.
  pose proof (sin2_cos2 (2 * pi * w)) as Hw.
  unfold Rsqr in Hv, Hw.
  set (sv := sin (2 * pi * v)) in *. set (cv := cos (2 * pi * v)) in *.
  set (sw := sin (2 * pi * w)) in *. set (cw := cos (2 * pi * w)) in *.
  set (a := sqrt (1 - u)) in *. set (b := sqrt u) in *.
  replace (a * sv * (a * sv) + (a * cv * (a * cv)
           + (b * sw * (b * sw) + (b * cw * (b * cw) + 0))))
    with (a * a * (sv * sv + cv * cv) + b * b * (sw * sw + cw * cw)) by ring.
  rewrite Ha, Hb, Hv, Hw.
  replace ((1 - u) * 1 + u * 1) with 1 by ring. apply sqrt_1.
Qed.

(** [randomQuatTensor] returns rotations: whatever the draws, as long as
    those of [u] lie between 0 and 1 (as [torch::rand] gives them), each
    of its [n] rows has four entries and length 1. *)
Theorem randomQuatTensor_unit (pi : R) (u v w : list R) (n : nat) :
  length u = n -> length v = n -> length w = n ->
  Forall (fun x => 0 <= x <= 1) u ->
  length (randomQuatTensor pi u v w) = n /\
  Forall (fun q => length q = 4%nat /\ row_norm q = 1)
    (randomQuatTensor pi u v w).
Proof.
  intros Hu Hv Hw Hrange. revert v w n Hu Hv Hw.
  induction Hrange as [|x u Hx _ IH]; intros v w n Hu Hv Hw.
  - subst n. split; [reflexivity | constructor].
  - destruct v as [|y v]; [subst n; discriminate|].
    destruct w as [|z w]; [subst n; discriminate|].
    destruct n as [|n]; [discriminate|].
    injection Hu as Hu. injection Hv as Hv. injection Hw as Hw.
    destruct (IH v w n Hu Hv Hw) as [Hlen Hall].
    unfold randomQuatTensor, stack4 in *. cbn [map map2 length].
    split; [now rewrite Hlen|].
    constructor; [|exact Hall].
    split; [reflexivity | now apply randomQuat_norm].
Qed.

End RandomRotations.

Lemma randomQuatTensor_unit_witness :
  length [0; 1]%R = 2%nat /\ length [0; 0]%R = 2%nat /\
  length [0; 0]%R = 2%nat /\
  Forall (fun x => (0 <= x <= 1)%R) [0; 1]%R /\
  length (randomQuatTensor PI [0; 1]%R [0; 0]%R [0; 0]%R) = 2%nat /\
  Forall (fun q => length q = 4%nat /\ row_norm q = 1%R)
    (randomQuatTensor PI [0; 1]%R [0; 0]%R [0; 0]%R).
Proof.
  assert (Hr : Forall (fun x => (0 <= x <= 1)%R) [0; 1]%R)
    by (repeat constructor; lra).
  split; [reflexivity|]. split; [reflexivity|]. split; [reflexivity|].
  split; [exact Hr|].
  exact (randomQuatTensor_unit PI [0; 1]%R [0; 0]%R [0; 0]%R 2
           eq_refl eq_refl eq_refl Hr).
Defined.

(** * Image metrics *)

Section Metrics.
Local Open Scope R_scope.

(** Sums of an even, positive-definite function of the entrywise
    differences. *)
Section DifferenceSums.
Variable f : R -> R.
Hypothesis f_zero : f 0 = 0.
Hypothesis f_pos : forall x, x <> 0 -> 0 < f x.
Hypothesis f_even : forall x, f (- x) = f x.

Lemma diff_sum_props (a b : list R) :
  length a = length b ->
  0 <= fold_right Rplus 0 (map f (map2 Rminus a b)) /\
  (fold_right Rplus 0 (map f (map2 Rminus a b)) = 0 <-> a = b) /\
  fold_right Rplus 0 (map f (map2 Rminus a b))
    = fold_right Rplus 0 (map f (map2 Rminus b a)).
Proof.
  revert b. induction a as [|x a IH]; intros [|y b] Hlen; try discriminate.
  - cbn. repeat split; lra.
  - injection Hlen as Hlen. destruct (IH b Hlen) as (Hge & Hiff & Hsym).
    cbn [map2 map fold_right].
    assert (Hfx : 0 <= f (x - y)).
    { destruct (Req_dec (x - y) 0) as [E|E]; [rewrite E, f_zero; lra|].
      apply Rlt_le, f_pos, E. }
    assert (Hs : f (x - y) = f (y - x)).
    { replace (x - y) with (- (y - x)) by ring. apply f_even. }
    split; [lra|]. split; [split|].
    + intros Hsum.
      assert (E1 : f (x - y) = 0) by lra.
      assert (E2 : fold_right Rplus 0 (map f (map2 Rminus a b)) = 0) by lra.
      apply Hiff in E2. subst b. f_equal.
      destruct (Req_dec (x - y) 0) as [E|E]; [lra|].
      pose proof (f_pos _ E). lra.
    + intros [= -> ->].
      replace (y - y) with 0 by ring. rewrite f_zero.
      assert (E : fold_right Rplus 0 (map f (map2 Rminus b b)) = 0)
        by now apply Hiff.
      lra.
    + rewrite Hs, Hsym. reflexivity.
Qed.

End DifferenceSums.

Lemma Rabs_props :
  Rabs 0 = 0 /\ (forall x, x <> 0 -> 0 < Rabs x) /\
  (forall x, Rabs (- x) = Rabs x).
Proof.
  split; [apply Rabs_R0|]. split; [apply Rabs_pos_lt | apply Rabs_Ropp].
Qed.

Lemma square_props :
  (fun x : R => x * x) 0 = 0 /\
  (forall x, x <> 0 -> 0 < (fun x : R => x * x) x) /\
  (forall x, (fun x : R => x * x) (- x) = (fun x : R => x * x) x).
Proof.
  split; [cbv beta; ring|]. split; intros x; cbv beta; [nra | ring].
Qed.

Lemma mean_Some (t : list R) :
  t <> [] -> mean t = Some (fold_right Rplus 0 t / INR (length t)).
Proof. destruct t; [contradiction | reflexivity]. Qed.

Lemma diff_nonempty (g : R -> R) (a b : list R) :
  length a = length b -> a <> [] ->
  map g (map2 Rminus a b) <> [] /\
  length (map g (map2 Rminus a b)) = length a.
Proof.
  destruct a as [|x a]; [contradiction|].
  destruct b as [|y b]; [discriminate|]. intros Hlen _.
  split; [discriminate|].
  rewrite length_map. now apply map2_length_same.
Qed.

Lemma sub_entries_Some (a b : list R) :
  length a = length b -> sub_entries a b = Some (map2 Rminus a b).
Proof.
  intros H. unfold sub_entries. now rewrite H, Nat.eqb_refl.
Qed.

Lemma INR_length_pos {A : Type} (a : list A) : a <> [] -> 0 < INR (length a).
Proof.
  destruct a; [contradiction|]. intros _. apply lt_0_INR. cbn. lia.
Qed.

Lemma l1_value (rendered gt : list R) :
  length rendered = length gt -> rendered <> [] ->
  l1 rendered gt =
    Some (fold_right Rplus 0 (map Rabs (map2 Rminus gt rendered))
          / INR (length rendered)).
Proof.
  intros Hlen Hne. unfold l1.
  rewrite sub_entries_Some by congruence. cbn [obind].
  assert (Hgt : gt <> []) by (destruct gt, rendered; cbn in *; congruence).
  destruct (diff_nonempty Rabs gt rendered ltac:(congruence) Hgt) as [Hd Hl].
  rewrite mean_Some by assumption. now rewrite Hl, Hlen.
Qed.

Lemma mse_value (rendered gt : list R) :
  length rendered = length gt -> rendered <> [] ->
  mse rendered gt =
    Some (fold_right Rplus 0
            (map (fun x => x * x) (map2 Rminus rendered gt))
          / INR (length rendered)).
Proof.
  intros Hlen Hne. unfold mse.
  rewrite sub_entries_Some by congruence. cbn [obind].
  destruct (diff_nonempty (fun x => x * x) rendered gt Hlen Hne) as [Hd Hl].
  rewrite mean_Some by assumption. now rewrite Hl.
Qed.

(** [l1] of two images of the same shape with at least one entry is
    defined, does not depend on the order of its arguments, is not
    negative, and is 0 for equal images.  (Over the reals it is 0 for
    equal images only; the rounded mean of small differences can be 0
    as well, so that direction is not stated.) *)
Theorem l1_distance (rendered gt : list R) :
  length rendered = length gt -> rendered <> [] ->
  exists v,
    l1 rendered gt = Some v /\ l1 gt rendered = Some v /\
    0 <= v /\ (rendered = gt -> v = 0).
Proof.
  intros Hlen Hne.
  assert (Hgt : gt <> []) by (destruct gt, rendered; cbn in *; congruence).
  destruct Rabs_props as (A0 & Apos & Aeven).
  destruct (diff_sum_props Rabs A0 Apos Aeven gt rendered ltac:(congruence))
    as (Hge & Hiff & Hsym).
  pose proof (INR_length_pos rendered Hne) as Hn.
  eexists. split; [now apply l1_value|].
  split; [rewrite l1_value by congruence; rewrite <- Hsym, Hlen; reflexivity|].
  set (s := fold_right Rplus 0 (map Rabs (map2 Rminus gt rendered))) in *.
  assert (Hinv : 0 < / INR (length rendered)) by now apply Rinv_0_lt_compat.
  unfold Rdiv. split; [nra|].
  intros ->. assert (E : s = 0) by now apply Hiff. rewrite E. ring.
Qed.

Lemma psnr_value (rendered gt : list R) (e : R) :
  mse rendered gt = Some e ->
  psnr rendered gt = if Rlt_dec 0 e then Some (10 * log10 (1 / e)) else None.
Proof. intros H. unfold psnr. now rewrite H. Qed.

(** [psnr] of two images of the same shape with at least one entry has
    no finite value when the images are equal (the ratio is infinite),
    so a finite value, which is [10 log10 (1 / mse)] for a positive mean
    squared error, is a value for images that differ; and [psnr] does
    not depend on the order of its arguments.  (That images that differ
    have a finite value holds over the reals only, a squared difference
    can round to 0, and is not stated.) *)
Theorem psnr_defined (rendered gt : list R) :
  length rendered = length gt -> rendered <> [] ->
  (rendered = gt -> psnr rendered gt = None) /\
  (forall v, psnr rendered gt = Some v ->
     rendered <> gt /\
     exists e, mse rendered gt = Some e /\ 0 < e /\
               v = 10 * log10 (1 / e)) /\
  psnr rendered gt = psnr gt rendered.
Proof.
  intros Hlen Hne.
  assert (Hgt : gt <> []) by (destruct gt, rendered; cbn in *; congruence).
  destruct square_props as (S0 & Spos & Seven).
  destruct (diff_sum_props (fun x => x * x) S0 Spos Seven rendered gt Hlen)
    as (Hge & Hiff & Hsym).
  pose proof (INR_length_pos rendered Hne) as Hn.
  assert (Hinv : 0 < / INR (length rendered)) by now apply Rinv_0_lt_compat.
  pose proof (mse_value rendered gt Hlen Hne) as Hmse.
  rewrite (psnr_value _ _ _ Hmse).
  rewrite (psnr_value _ _ _ (mse_value gt rendered (eq_sym Hlen) Hgt)).
  rewrite <- Hsym, <- Hlen.
  set (s := fold_right Rplus 0
              (map (fun x => x * x) (map2 Rminus rendered gt))) in *.
  split; [|split; [|reflexivity]].
  - intros Heq. apply Hiff in Heq.
    destruct (Rlt_dec 0 (s / INR (length rendered))) as [Hpos|Hnpos];
      [|reflexivity].
    unfold Rdiv in Hpos. nra.
  - intros v.
    destruct (Rlt_dec 0 (s / INR (length rendered))) as [Hpos|Hnpos];
      [|discriminate].
    intros [= <-]. split.
    + intros Heq. apply Hiff in Heq. unfold Rdiv in Hpos. nra.
    + eexists. split; [exact Hmse|]. split; [exact Hpos | reflexivity].
Qed.

Lemma ln_10_pos : 0 < ln 10.
Proof. rewrite <- ln_1. apply ln_increasing; lra. Qed.

Lemma square_sum_le (a b : list R) :
  length a = length b ->
  Forall (fun x => 0 <= x <= 1) a -> Forall (fun x => 0 <= x <= 1) b ->
  fold_right Rplus 0 (map (fun x => x * x) (map2 Rminus a b))
    <= INR (length a).
Proof.
  intros Hlen Ha. revert b Hlen.
  induction Ha as [|x a Hx _ IH]; intros [|y b] Hlen Hb; try discriminate.
  - cbn. lra.
  - injection Hlen as Hlen. inversion Hb as [|? ? Hy Hb']; subst.
    change (length (x :: a)) with (S (length a)). rewrite S_INR.
    cbn [map2 map fold_right]. specialize (IH b Hlen Hb'). nra.
Qed.

(** For images with entries between 0 and 1, a finite [psnr] is never
    negative. *)
Theorem psnr_nonneg (rendered gt : list R) (v : R) :
  length rendered = length gt ->
  Forall (fun x => 0 <= x <= 1) rendered ->
  Forall (fun x => 0 <= x <= 1) gt ->
  psnr rendered gt = Some v ->
  0 <= v.
Proof.
  intros Hlen Hr Hg Hp.
  assert (Hne : rendered <> []).
  { intros ->. destruct gt; [|discriminate]. discriminate Hp. }
  rewrite (psnr_value _ _ _ (mse_value rendered gt Hlen Hne)) in Hp.
  pose proof (square_sum_le rendered gt Hlen Hr Hg) as Hle.
  pose proof (INR_length_pos rendered Hne) as Hn.
  set (s := fold_right Rplus 0
              (map (fun x => x * x) (map2 Rminus rendered gt))) in *.
  destruct (Rlt_dec 0 (s / INR (length rendered))) as [Hpos|]; [|discriminate].
  injection Hp as <-.
  set (e := s / INR (length rendered)) in *.
  assert (He : e <= 1).
  { subst e. unfold Rdiv.
    assert (Hinv : 0 < / INR (length rendered)) by now apply Rinv_0_lt_compat.
    assert (E : INR (length rendered) * / INR (length rendered) = 1)
      by (field; lra).
    nra. }
  assert (H1 : 1 <= 1 / e).
  { unfold Rdiv. assert (Hinv : 0 < / e) by now apply Rinv_0_lt_compat.
    assert (E : e * / e = 1) by (field; lra). nra. }
  assert (Hln : 0 <= ln (1 / e)).
  { destruct (Req_dec (1 / e) 1) as [E|E]; [rewrite E, ln_1; lra|].
    rewrite <- ln_1. apply Rlt_le, ln_increasing; lra. }
  pose proof ln_10_pos as H10. unfold log10.
  assert (0 <= ln (1 / e) / ln 10).
  { unfold Rdiv. assert (0 < / ln 10) by now apply Rinv_0_lt_compat. nra. }
  lra.
Qed.

End Metrics.

Lemma l1_distance_witness :
  length [0; 1]%R = length [1; 1]%R /\ [0; 1]%R <> [] /\
  exists v,
    l1 [0; 1]%R [1; 1]%R = Some v /\ l1 [1; 1]%R [0; 1]%R = Some v /\
    (0 <= v)%R /\ ([0; 1]%R = [1; 1]%R -> v = 0%R).
Proof.
  assert (Hne : [0; 1]%R <> []) by discriminate.
  split; [reflexivity|]. split; [exact Hne|].
  exact (l1_distance [0; 1]%R [1; 1]%R eq_refl Hne).
Defined.

Lemma psnr_defined_witness :
  length [0; 1]%R = length [1; 1]%R /\ [0; 1]%R <> [] /\
  ([0; 1]%R = [1; 1]%R -> psnr [0; 1]%R [1; 1]%R = None) /\
  (forall v, psnr [0; 1]%R [1; 1]%R = Some v ->
     [0; 1]%R <> [1; 1]%R /\
     exists e, mse [0; 1]%R [1; 1]%R = Some e /\ (0 < e)%R /\
               v = (10 * log10 (1 / e))%R) /\
  psnr [0; 1]%R [1; 1]%R = psnr [1; 1]%R [0; 1]%R.
Proof.
  assert (Hne : [0; 1]%R <> []) by discriminate.
  split; [reflexivity|]. split; [exact Hne|].
  exact (psnr_defined [0; 1]%R [1; 1]%R eq_refl Hne).
Defined.

Lemma sample_mse_pos :
  (0 < fold_right Rplus 0
         (map (fun x => x * x) (map2 Rminus [0; 1] [1; 1]))
       / INR (length [0; 1]))%R.
Proof.
  apply Rdiv_lt_0_compat.
  - cbn [map2 map fold_right]. lra.
  - apply INR_length_pos. discriminate.
Qed.

Lemma psnr_nonneg_witness :
  exists v,
    length [0; 1]%R = length [1; 1]%R /\
    Forall (fun x => (0 <= x <= 1)%R) [0; 1]%R /\
    Forall (fun x => (0 <= x <= 1)%R) [1; 1]%R /\
    psnr [0; 1]%R [1; 1]%R = Some v /\
    (0 <= v)%R.
Proof.
  assert (Hne : [0; 1]%R <> []) by discriminate.
  assert (Hr : Forall (fun x => (0 <= x <= 1)%R) [0; 1]%R)
    by (repeat constructor; lra).
  assert (Hg : Forall (fun x => (0 <= x <= 1)%R) [1; 1]%R)
    by (repeat constructor; lra).
  pose proof (psnr_value _ _ _ (mse_value [0; 1]%R [1; 1]%R eq_refl Hne)) as E.
  destruct (Rlt_dec 0 _) as [Hpos|Hn] in E;
    [|exfalso; apply Hn; exact sample_mse_pos].
  eexists. split; [reflexivity|]. split; [exact Hr|]. split; [exact Hg|].
  split; [exact E|].
  exact (psnr_nonneg [0; 1]%R [1; 1]%R _ eq_refl Hr Hg E).
Defined.

(** * Schedules and passes together *)

(** [forward] divides by its two schedule lengths: it has a result only
    if [resolutionSchedule] is not 0, and a result of the normal exit
    only if [shDegreeInterval] is not 0 either. *)
Theorem forward_needs_schedules (P : Pipeline) (m : Model) (cam : Camera)
    (step : Z) (r : Rendered) :
  forward m cam step = Some r ->
  resolutionSchedule (config m) <> 0 /\
  (length (r_calls r) = 3%nat -> shDegreeInterval (config m) <> 0).
Proof.
  intros Hf.
  assert (Hdiv : forall a b q, Int.div a b = Some q -> b <> 0).
  { intros a b q. unfold Int.div.
    destruct (Z.eqb_spec b 0); [discriminate | auto]. }
  destruct (forward_cases _ _ _ _ Hf)
    as (d & tb & Hd & Htb & [(_ & _ & _ & Hr)|(_ & deg & Hdeg & Hr)]);
    cbv zeta in Hr; subst r; cbn [r_calls length].
  - split; [|discriminate].
    unfold getDownscaleFactor in Hd.
    destruct (Int.div step (resolutionSchedule (config m))) eqn:E;
      [eapply Hdiv; eauto | discriminate].
  - split.
    + unfold getDownscaleFactor in Hd.
      destruct (Int.div step (resolutionSchedule (config m))) eqn:E;
        [eapply Hdiv; eauto | discriminate].
    + intros _. unfold degreesToUse in Hdeg.
      destruct (Int.div step (shDegreeInterval (config m))) eqn:E;
        [eapply Hdiv; eauto | discriminate].
Qed.

Lemma forward_needs_schedules_witness :
  exists r,
    forward (P := constant_pipeline 1) sample_model (sample_camera 4 4) 0
      = Some r /\
    resolutionSchedule (config sample_model) <> 0 /\
    (length (r_calls r) = 3%nat -> shDegreeInterval (config sample_model) <> 0).
Proof.
  destruct sample_render_visible as (r & rargs & tb & Hf & _).
  exists r. split; [exact Hf|].
  exact (forward_needs_schedules (constant_pipeline 1) sample_model
           (sample_camera 4 4) 0 r Hf).
Defined.

Lemma vector_norm_nth (g : matrix) (i : nat) :
  (i < length g)%nat -> nth i (vector_norm g) 0%R = row_norm (nth i g []).
Proof.
  unfold vector_norm. revert i.
  induction g as [|row g IH]; intros [|i] Hi; cbn in *; try lia;
    [reflexivity|]. apply IH. lia.
Qed.

(** The first statistics pass after a render, once the backward pass has
    stored a gradient [g] with one row per primitive, prints and leaves
    for each primitive its gradient norm as accumulator, the count 1,
    and as largest size 0 or, for a primitive of positive radius, that
    radius divided by the larger side of the image as the projection
    stage was asked to render it, not of the full-resolution image; the
    size is [+inf] when that image was empty. *)
Theorem afterTrain_after_forward (P : Pipeline) (m : Model) (cam : Camera)
    (s step : Z) (r : Rendered) (pargs : ProjectArgs) (g : matrix)
    (i : nat) :
  forward m cam s = Some r ->
  fresh m ->
  hd_error (r_calls r) = Some (ProjectCall pargs) ->
  length g = length (radii (r_model r)) ->
  (i < length (radii (r_model r)))%nat ->
  step < stopSplitAt (config m) ->
  exists m',
    afterTrain
      (set_render_state (r_model r) (xys (r_model r)) (Some g)
         (radii (r_model r)) (lastHeight (r_model r)) (lastWidth (r_model r)))
      step = Exited 1 (max2DSize m') m' /\
    nth i (xysGradNorm m') 0%R = row_norm (nth i g []) /\
    nth i (visCounts m') 0%R = 1%R /\
    nth i (max2DSize m') (Finite 0) =
      (if 0 <? nth i (radii (r_model r)) 0
       then size_max (Finite 0)
              (normalized (nth i (radii (r_model r)) 0)
                 (Z.max (pa_height pargs) (pa_width pargs)))
       else Finite 0) /\
    (0 < nth i (radii (r_model r)) 0 ->
     Z.max (pa_height pargs) (pa_width pargs) = 0 ->
     nth i (max2DSize m') (Finite 0) = Infinite).
Proof.
  intros Hf Hm Hcall Hg Hi Hlt.
  destruct (forward_model _ _ _ _ _ Hf) as (d & a & _ & _ & Hcall' & Hr).
  rewrite Hcall in Hcall'. injection Hcall' as <-.
  set (o := {| o_radii := radii (r_model r); o_grad := g;
               o_height := lastHeight (r_model r);
               o_width := lastWidth (r_model r) |}).
  assert (Hfresh : fresh (r_model r)) by (rewrite Hr; exact Hm).
  assert (Hshape : shaped (length (radii (r_model r))) o)
    by (split; [reflexivity | exact Hg]).
  destruct (pass_first (r_model r) o _ Hfresh Hshape)
    as (m' & Hup & _ & Hnth).
  destruct (Hnth i Hi) as (Hacc & Hcnt & Hsize).
  exists m'. split.
  - change (set_render_state (r_model r) (xys (r_model r)) (Some g)
              (radii (r_model r)) (lastHeight (r_model r))
              (lastWidth (r_model r))) with (observe (r_model r) o).
    unfold afterTrain.
    replace (config (observe (r_model r) o)) with (config m)
      by (rewrite Hr; reflexivity).
    apply Z.ltb_lt in Hlt. now rewrite Hlt, Hup.
  - assert (Hmax : nth i (max2DSize m') (Finite 0) =
             (if 0 <? nth i (radii (r_model r)) 0
              then size_max (Finite 0)
                     (normalized (nth i (radii (r_model r)) 0)
                        (Z.max (pa_height pargs) (pa_width pargs)))
              else Finite 0)).
    { rewrite Hsize. unfold visible, size_in.
      cbn [o_radii o_height o_width o]. rewrite Hr. reflexivity. }
    split; [|split; [exact Hcnt|split; [exact Hmax|]]].
    + rewrite Hacc. unfold magnitude. cbn [o_grad o].
      apply vector_norm_nth. lia.
    + intros Hpos Hside. rewrite Hmax.
      apply Z.ltb_lt in Hpos. rewrite Hpos.
      unfold normalized. rewrite Hside. reflexivity.
Qed.

Lemma afterTrain_after_forward_witness :
  exists r pargs,
    forward (P := constant_pipeline 1) sample_model (sample_camera 4 4) 0
      = Some r /\
    fresh sample_model /\
    hd_error (r_calls r) = Some (ProjectCall pargs) /\
    length [[3; 4]]%R = length (radii (r_model r)) /\
    (0 < length (radii (r_model r)))%nat /\
    0 < stopSplitAt (config sample_model) /\
    exists m',
      afterTrain
        (set_render_state (r_model r) (xys (r_model r)) (Some [[3; 4]]%R)
           (radii (r_model r)) (lastHeight (r_model r))
           (lastWidth (r_model r)))
        0 = Exited 1 (max2DSize m') m' /\
      nth 0 (xysGradNorm m') 0%R = row_norm (nth 0 [[3; 4]]%R []) /\
      nth 0 (visCounts m') 0%R = 1%R /\
      nth 0 (max2DSize m') (Finite 0) =
        (if 0 <? nth 0 (radii (r_model r)) 0
         then size_max (Finite 0)
                (normalized (nth 0 (radii (r_model r)) 0)
                   (Z.max (pa_height pargs) (pa_width pargs)))
         else Finite 0) /\
      (0 < nth 0 (radii (r_model r)) 0 ->
       Z.max (pa_height pargs) (pa_width pargs) = 0 ->
       nth 0 (max2DSize m') (Finite 0) = Infinite).
Proof.
  destruct sample_render_visible as (r & rargs & tb & Hf & Hrad & _ & Hcalls & _).
  assert (Hm : fresh sample_model) by (repeat split).
  assert (Hcall : hd_error (r_calls r)
                  = Some (ProjectCall
                            (project_args sample_model
                               (scaled (sample_camera 4 4) 2) tb)))
    by (rewrite Hcalls; reflexivity).
  assert (Hg : length [[3; 4]]%R = length (radii (r_model r)))
    by (rewrite Hrad; reflexivity).
  assert (Hi : (0 < length (radii (r_model r)))%nat)
    by (rewrite Hrad; cbn; lia).
  assert (Hlt : 0 < stopSplitAt (config sample_model)) by (cbn; lia).
  exists r. eexists. split; [exact Hf|]. split; [exact Hm|].
  split; [exact Hcall|]. split; [exact Hg|]. split; [exact Hi|].
  split; [exact Hlt|].
  exact (afterTrain_after_forward (constant_pipeline 1) sample_model
           (sample_camera 4 4) 0 0 r _ [[3; 4]]%R 0%nat
           Hf Hm Hcall Hg Hi Hlt).
Defined.
